(** * SpeedRunningESM2: the binary shard pipeline and the batch loaders

    A shallow embedding of [data/omgprot50.py] (shard writer and the
    tokenisation driver) and of [dataloading.py] (shard reader, the
    single-stream loader and the padded loader), followed by the properties
    of the data pipeline.

    Conventions.  A file is the list of its bytes, a byte being an integer
    of [0, 256).  Array lengths, indices and counters are naturals; header
    words and token values are integers.  The padded loader's tensors are
    uint8 tensors and its ids are Python integers: an id is converted to
    uint8 where the code compares it with a tensor or fills a tensor with
    it.  A Python exception is a value of
    [exn]; a call that can raise returns a [result], and what the call
    had done to its object before raising is not kept.  Console output
    ([print], the tqdm bar's drawing) is not modelled, with two
    exceptions: the bar's being [None], because [progress_bar.update]
    raises on [None], and the loader's malformed-sample warning, which is
    recorded as an effect next to the reseeding of the generator. *)

From Stdlib Require Import String.
From Stdlib Require Import ZArith List Lia Bool Arith PeanoNat.
Import ListNotations.

Set Implicit Arguments.

(** ** Exceptions *)

Inductive exn : Type :=
| AssertionError (msg : string)
| RuntimeError (msg : string)
| ValueError (msg : string)
| AttributeError (msg : string)
| UnboundLocalError (var : string)
| ZeroDivisionError
| IndexError (msg : string).

Inductive result (A : Type) : Type :=
| Ok (a : A)
| Raise (e : exn).

Arguments Ok {A} a.
Arguments Raise {A} e.

Definition bind {A B : Type} (r : result A) (k : A -> result B) : result B :=
  match r with
  | Ok a => k a
  | Raise e => Raise e
  end.

Notation "x <- r ;; k" := (bind r (fun x => k))
  (at level 61, r at next level, right associativity).

Notation "' pat <- r ;; k" := (bind r (fun x => match x with pat => k end))
  (at level 61, pat pattern, r at next level, right associativity).

(** The three assertions of the shard reader are what the specification
    calls a FormatError. *)
Definition is_assertion (e : exn) : bool :=
  match e with
  | AssertionError _ => true
  | _ => false
  end.

(** ** Slices *)

(** [l[a:b]] for non-negative [a] and [b]: clamped to the list. *)
Definition slice {A : Type} (l : list A) (a b : nat) : list A :=
  firstn (b - a) (skipn a l).

(** [buf[a:b] = src] on a one-dimensional numpy array: the target region is
    the clamped slice, and the source must have the region's length, or
    length one (broadcast). *)
Definition assign_slice (buf : list Z) (a b : nat) (src : list Z)
  : result (list Z) :=
  let n := length buf in
  let a' := Nat.min a n in
  let b' := Nat.max a' (Nat.min b n) in
  let len := b' - a' in
  if length src =? len then
    Ok (firstn a' buf ++ src ++ skipn b' buf)
  else if length src =? 1 then
    Ok (firstn a' buf ++ repeat (hd 0%Z src) len ++ skipn b' buf)
  else Raise (ValueError "could not broadcast input array").

(** ** Byte layout (little-endian) *)

Module Bytes.
Open Scope Z_scope.

(** A uint16 element as two bytes. *)
Definition of_u16 (t : Z) : list Z := [t mod 256; (t / 256) mod 256].

(** An int32 element as four bytes (two's complement). *)
Definition of_i32 (w : Z) : list Z :=
  [w mod 256; (w / 256) mod 256; (w / 65536) mod 256; (w / 16777216) mod 256].

(** Four bytes as an int32 element. *)
Definition to_i32 (b0 b1 b2 b3 : Z) : Z :=
  let u := b0 + 256 * b1 + 65536 * b2 + 16777216 * b3 in
  if u <? 2 ^ 31 then u else u - 2 ^ 32.

(** Two bytes as a uint16 element. *)
Definition to_u16 (b0 b1 : Z) : Z := b0 + 256 * b1.

(** [ndarray.tobytes()] of a uint16 array and of an int32 array. *)
Definition tobytes_u16 (a : list Z) : list Z := flat_map of_u16 a.
Definition tobytes_i32 (a : list Z) : list Z := flat_map of_i32 a.

(** The first [n] int32 elements stored in a byte list. *)
Fixpoint words_i32 (n : nat) (bs : list Z) : list Z :=
  match n, bs with
  | S k, b0 :: b1 :: b2 :: b3 :: rest => to_i32 b0 b1 b2 b3 :: words_i32 k rest
  | _, _ => []
  end.

(** The uint16 elements stored in a byte list (a trailing odd byte is
    not an element). *)
Fixpoint words_u16 (fuel : nat) (bs : list Z) : list Z :=
  match fuel, bs with
  | S k, b0 :: b1 :: rest => to_u16 b0 b1 :: words_u16 k rest
  | _, _ => []
  end.

Definition is_byte (b : Z) : Prop := 0 <= b < 256.
Definition is_u16 (t : Z) : Prop := 0 <= t < 65536.
End Bytes.

(** ** data/omgprot50.py *)

Module Omgprot50.

Definition MAGIC : Z := 20240520.
Definition VERSION : Z := 1.

(** The 256-word header of [write_datafile]. *)
Definition header (ntok : nat) : list Z :=
  [MAGIC; VERSION; Z.of_nat ntok] ++ repeat 0%Z 253.

(** [write_datafile(filename, toks)]: the bytes written to [filename]. *)
Definition write_datafile (toks : list Z) : result (list Z) :=
  if (Z.of_nat (length toks) <? 2 ^ 31)%Z then
    Ok (Bytes.tobytes_i32 (header (length toks)) ++ Bytes.tobytes_u16 toks)
  else Raise (AssertionError "token count too large").

(** The state of the loop of [tokenize_fw]; [written] are the files
    created so far, oldest first, each with the shard index that its name
    [omgprot50_{split}_{shard_index:06d}.bin] carries. *)
Record writer : Type := mkWriter {
  shard_index : nat;
  all_tokens_np : list Z;
  token_count : nat;
  progress_bar : option nat;
  written : list (nat * list Z)
}.

Section Driver.
Variable shard_size : nat.

(** One iteration of [for tokens in pool.imap(...)].  The two natural
    subtractions are exact: [token_count] never exceeds [shard_size]
    ([writer_inv] below), and the shard-full branch is entered with
    [token_count + len(tokens) >= shard_size]. *)
Definition feed (w : writer) (tokens : list Z) : result writer :=
  let n := length tokens in
  if token_count w + n <? shard_size then
    buf <- assign_slice (all_tokens_np w) (token_count w)
                        (token_count w + n) tokens ;;
    Ok (mkWriter (shard_index w) buf (token_count w + n)
          (Some (match progress_bar w with
                 | None => n
                 | Some done => done + n
                 end))
          (written w))
  else
    let remainder := shard_size - token_count w in
    match progress_bar w with
    | None => Raise (AttributeError "'NoneType' object has no attribute 'update'")
    | Some _ =>
        buf1 <- assign_slice (all_tokens_np w) (token_count w)
                             (token_count w + remainder)
                             (firstn remainder tokens) ;;
        file <- write_datafile buf1 ;;
        buf2 <- assign_slice buf1 0 (n - remainder) (skipn remainder tokens) ;;
        Ok (mkWriter (S (shard_index w)) buf2 (n - remainder) None
              (written w ++ [(shard_index w, file)]))
    end.

Fixpoint feed_all (w : writer) (fw : list (list Z)) : result writer :=
  match fw with
  | [] => Ok w
  | tokens :: rest => w' <- feed w tokens ;; feed_all w' rest
  end.

(** [tokenize_fw(fw, split)]: the shard files written for the split, in
    the order of their indices.  [empty] is the content of the buffer
    [np.empty((shard_size,))] hands out, [fw] the token arrays the
    tokenizer pool yields, one per document, in document order. *)
Definition tokenize_fw (empty : list Z) (fw : list (list Z))
  : result (list (nat * list Z)) :=
  w <- feed_all (mkWriter 0 empty 0 None []) fw ;;
  if token_count w =? 0 then Ok (written w)
  else
    file <- write_datafile (firstn (token_count w) (all_tokens_np w)) ;;
    Ok (written w ++ [(shard_index w, file)]).
End Driver.

End Omgprot50.

(** ** dataloading.py *)

Module Dataloading.

Definition path := string.
Definition filesystem := path -> option (list Z).

(** What a call leaves behind besides its result: reseeding the process-wide
    generator and shuffling with it, and the malformed-sample warning. *)
Inductive effect : Type :=
| SeedShuffle (seed : nat)
| Warning (i : nat).

(** [torch.from_file(file, False, size, dtype=torch.int32)]. *)
Definition from_file_int32 (bytes : list Z) (size : nat) : result (list Z) :=
  if length bytes <? 4 * size then
    Raise (RuntimeError "file size is smaller than the required mapping size")
  else Ok (Bytes.words_i32 size bytes).

(** [f.seek(offset); f.readinto(buffer)] for a buffer of [n] bytes: the
    bytes read. *)
Definition readinto (bytes : list Z) (offset n : nat) : list Z :=
  firstn n (skipn offset bytes).

(** [_load_data_shard] on the content of a file that exists. *)
Definition load_bytes (bytes : list Z) : result (list Z) :=
  header <- from_file_int32 bytes 256 ;;
  if negb (nth 0 header 0 =? 20240520)%Z then
    Raise (AssertionError "magic number mismatch in the data .bin file")
  else if negb (nth 1 header 0 =? 1)%Z then
    Raise (AssertionError "unsupported version")
  else
    let num_tokens := nth 2 header 0%Z in
    if (num_tokens <? 0)%Z then
      Raise (RuntimeError "Trying to create tensor with negative dimension")
    else
      let tokens := readinto bytes (256 * 4) (Z.to_nat num_tokens) in
      if (Z.of_nat (length tokens) =? num_tokens)%Z then Ok tokens
      else Raise (AssertionError "number of tokens read does not match header?").

(** [_load_data_shard(file)].  The first access to the file is
    [torch.from_file], which raises a [RuntimeError] when the file cannot
    be opened. *)
Definition _load_data_shard (fs : filesystem) (file : path) : result (list Z) :=
  match fs file with
  | None => Raise (RuntimeError "unable to open file in read-only mode")
  | Some bytes => load_bytes bytes
  end.

(** *** DistributedDataLoader *)

Record loader : Type := mkLoader {
  world_size : nat;
  rank : nat;
  files : list path;
  batch_size : nat;
  local_batch_size : nat;
  next_shard : nat;
  pos : nat;
  tokens : list Z
}.

Definition set_pos (p : nat) (b : loader) : loader :=
  mkLoader (world_size b) (rank b) (files b) (batch_size b)
           (local_batch_size b) (next_shard b) p (tokens b).

Definition set_next_shard (n : nat) (b : loader) : loader :=
  mkLoader (world_size b) (rank b) (files b) (batch_size b)
           (local_batch_size b) n (pos b) (tokens b).

Definition set_tokens (t : list Z) (b : loader) : loader :=
  mkLoader (world_size b) (rank b) (files b) (batch_size b)
           (local_batch_size b) (next_shard b) (pos b) t.

Definition set_files (f : list path) (b : loader) : loader :=
  mkLoader (world_size b) (rank b) f (batch_size b)
           (local_batch_size b) (next_shard b) (pos b) (tokens b).

(** A loader class: its [DistributedDataLoader] part and its own
    [advance], which the inherited [reset] and [next_batch] call. *)
Class LoaderClass (L : Type) : Type := {
  base : L -> loader;
  with_base : loader -> L -> L;
  advance : L -> result (L * list effect)
}.

Section Inherited.
Context {L : Type} {C : LoaderClass L}.

Definition reset (self : L) : result (L * list effect) :=
  advance (with_base (set_next_shard 0 (base self)) self).

Definition next_batch (self : L) : result (list Z * L * list effect) :=
  let b := base self in
  let buf := firstn (local_batch_size b)
                    (skipn (pos b + rank b * local_batch_size b) (tokens b)) in
  let self1 := with_base (set_pos (pos b + batch_size b) b) self in
  if length (tokens b) <=? pos b + batch_size b + batch_size b then
    '(self2, log) <- advance self1 ;;
    Ok (buf, self2, log)
  else Ok (buf, self1, []).
End Inherited.

Section Loaders.
Variable fs : filesystem.

(** [DistributedDataLoader.advance]. *)
Definition base_advance (self : loader) : result (loader * list effect) :=
  let self := set_pos 0 self in
  match nth_error (files self) (next_shard self) with
  | None => Raise (IndexError "list index out of range")
  | Some file =>
      toks <- _load_data_shard fs file ;;
      Ok (set_next_shard (S (next_shard self) mod length (files self))
            (set_tokens toks self), [])
  end.

#[export] Instance DistributedDataLoader : LoaderClass loader := {
  base := fun self => self;
  with_base := fun b _ => b;
  advance := base_advance
}.

(** [DistributedDataLoader.__init__] up to its final [self.reset()];
    [sorted_files] is [sorted(Path.cwd().glob(filename_pattern))]. *)
Definition new_loader (sorted_files : list path)
           (batch_size rank world_size : nat) : result loader :=
  if world_size =? 0 then Raise ZeroDivisionError
  else if negb (batch_size mod world_size =? 0) then Raise (AssertionError "")
  else Ok (mkLoader world_size rank sorted_files batch_size
                    (batch_size / world_size) 0 0 []).

Definition init (sorted_files : list path) (batch_size rank world_size : nat)
  : result (loader * list effect) :=
  self <- new_loader sorted_files batch_size rank world_size ;;
  reset self.
End Loaders.

(** *** DistributedPaddedDataLoader *)

Record padded : Type := mkPadded {
  super : loader;
  cls_id : Z;
  eos_id : Z;
  pad_id : Z;
  _leftover_tokens : list Z;
  max_epochs : nat
}.

Definition set_super (b : loader) (self : padded) : padded :=
  mkPadded b (cls_id self) (eos_id self) (pad_id self)
           (_leftover_tokens self) (max_epochs self).

Definition set_leftover (l : list Z) (self : padded) : padded :=
  mkPadded (super self) (cls_id self) (eos_id self) (pad_id self)
           l (max_epochs self).

(** The tensors of the padded loader are uint8 tensors, and its ids are
    Python integers.  In [tensor == id] the integer is converted to the
    tensor's type, and that conversion wraps: 258 compares equal to the
    element 2.  (Ids are taken in the 64-bit range of a tensor scalar.) *)
Definition to_uint8 (id : Z) : Z := (id mod 256)%Z.

(** [(raw_tokens == eos_id).nonzero(as_tuple=True)[0]], counting from [i]. *)
Fixpoint nonzero_eq (eos_id : Z) (i : nat) (raw : list Z) : list nat :=
  match raw with
  | [] => []
  | t :: rest =>
      if (t =? to_uint8 eos_id)%Z then i :: nonzero_eq eos_id (S i) rest
      else nonzero_eq eos_id (S i) rest
  end.

(** [tensor.split(split_size)] for a tensor cut into [num_splits] pieces. *)
Fixpoint split_n (num_splits split_size : nat) (t : list Z) : list (list Z) :=
  match num_splits with
  | 0 => []
  | S k => firstn split_size t :: split_n k split_size (skipn split_size t)
  end.

(** [torch.chunk(t, chunks)] on a one-dimensional tensor. *)
Definition torch_chunk (t : list Z) (chunks : nat) : list (list Z) :=
  let split_size := (length t + chunks - 1) / chunks in
  let num_splits := Nat.max ((length t + split_size - 1) / split_size) 1 in
  split_n num_splits split_size t.

Section Packing.
Variables (cls eos pad : Z) (local_batch_size : nat).

(** [torch.full((n,), pad_id, dtype=torch.uint8)].  The fill value goes
    through the checked conversion of a scalar, whatever [n] is: it
    raises beyond 255 and below -255, and lets the negative values in
    between wrap. *)
Definition full (n : nat) : result (list Z) :=
  if ((-256 <? pad) && (pad <? 256))%Z then Ok (repeat (to_uint8 pad) n)
  else Raise (RuntimeError
                "value cannot be converted to type uint8_t without overflow").

(** The state of the loop over the samples. *)
Record packing : Type := mkPacking {
  processed_chunks : list (list Z);
  curr_batch_len : nat;
  warnings : list effect
}.

(** The inner loop over the pieces of an oversized sample; a piece
    longer than the row would ask [torch.full] for a negative size. *)
Fixpoint pad_each (pieces : list (list Z)) : result (list (list Z)) :=
  match pieces with
  | [] => Ok []
  | split_sample :: rest =>
      if local_batch_size <? length split_sample then
        Raise (RuntimeError "Trying to create tensor with negative dimension")
      else
        padding <- full (local_batch_size - length split_sample) ;;
        rows <- pad_each rest ;;
        Ok (split_sample :: padding :: rows)
  end.

(** The body of [for i in range(len(eos_positions))] for one sample. *)
Definition pack_sample (st : packing) (i : nat) (sample : list Z)
  : result packing :=
  let warn :=
    if negb (hd 0%Z sample =? to_uint8 cls)%Z
       && (last sample 0%Z =? to_uint8 eos)%Z
    then [Warning i] else [] in
  if negb (curr_batch_len st <? local_batch_size) then
    Raise (AssertionError "(curr_batch_len, local_batch_size)")
  else
    st1 <-
      (if local_batch_size <=? length sample + curr_batch_len st then
         padding <- full (local_batch_size - curr_batch_len st) ;;
         Ok (mkPacking (processed_chunks st ++ [padding])
                       0 (warnings st ++ warn))
       else Ok (mkPacking (processed_chunks st) (curr_batch_len st)
                          (warnings st ++ warn))) ;;
    if local_batch_size <? length sample then
      rows <- pad_each (torch_chunk sample (length sample / local_batch_size + 1)) ;;
      Ok (mkPacking (processed_chunks st1 ++ rows) 0 (warnings st1))
    else
      let len := curr_batch_len st1 + length sample in
      Ok (mkPacking (processed_chunks st1 ++ [sample])
                    (if len =? local_batch_size then 0 else len)
                    (warnings st1)).

(** The loop, from iteration [i] on; [prev_eos_plus_one] is [0] at the
    first iteration and [eos_positions[i-1] + 1] afterwards. *)
Fixpoint pack_loop (raw : list Z) (i prev_eos_plus_one : nat)
         (eos_positions : list nat) (st : packing) : result packing :=
  match eos_positions with
  | [] => Ok st
  | curr_eos :: rest =>
      let sample := slice raw prev_eos_plus_one (curr_eos + 1) in
      st' <- pack_sample st i sample ;;
      pack_loop raw (S i) (curr_eos + 1) rest st'
  end.

(** Lines 81 to 115 of [advance]: the new working buffer, the new
    leftover, and the warnings.  [curr_eos] is unbound after a loop
    that never ran. *)
Definition pack (raw : list Z) : result (list Z * list Z * list effect) :=
  let eos_positions := nonzero_eq eos 0 raw in
  st <- pack_loop raw 0 0 eos_positions (mkPacking [] 0 []) ;;
  match eos_positions with
  | [] => Raise (UnboundLocalError "curr_eos")
  | _ :: _ =>
      let curr_eos := last eos_positions 0 in
      Ok (concat (processed_chunks st), skipn (curr_eos + 1) raw, warnings st)
  end.
End Packing.

Section PaddedLoader.
Variable fs : filesystem.
(** [random.seed(seed); random.shuffle(files)]: the list afterwards. *)
Variable shuffle : nat -> list path -> list path.

(** Lines 62 to 70 of [advance]: the combined buffer and the loader
    with its cursor reset and its shard counter moved. *)
Definition gather (self : padded) : result (list Z * padded) :=
  let b := set_pos 0 (super self) in
  let nfiles := length (files b) in
  if nfiles =? 0 then Raise ZeroDivisionError
  else if next_shard b / nfiles <? max_epochs self then
    match nth_error (files b) (next_shard b mod nfiles) with
    | None => Raise (IndexError "list index out of range")
    | Some file =>
        raw_tokens <- _load_data_shard fs file ;;
        Ok (_leftover_tokens self ++ raw_tokens,
            set_super (set_next_shard (S (next_shard b)) b) self)
    end
  else Ok (_leftover_tokens self, set_super b self).

(** Lines 71 to 115 of [advance], on the combined buffer. *)
Definition repack (raw_tokens : list Z) (self : padded)
  : result (padded * list effect) :=
  match raw_tokens with
  | [] => Ok (set_leftover [] (set_super (set_tokens [] (super self)) self), [])
  | _ :: _ =>
      let b := super self in
      let reshuffle := next_shard b mod length (files b) =? 0 in
      let b1 := if reshuffle then set_files (shuffle (next_shard b) (files b)) b
                else b in
      let log1 := if reshuffle then [SeedShuffle (next_shard b)] else [] in
      '(toks, leftover, log2) <-
        pack (cls_id self) (eos_id self) (pad_id self) (local_batch_size b)
             raw_tokens ;;
      Ok (set_leftover leftover (set_super (set_tokens toks b1) self),
          log1 ++ log2)
  end.

(** [DistributedPaddedDataLoader.advance]. *)
Definition padded_advance (self : padded) : result (padded * list effect) :=
  '(raw_tokens, self) <- gather self ;;
  repack raw_tokens self.

#[export] Instance DistributedPaddedDataLoader : LoaderClass padded := {
  base := super;
  with_base := set_super;
  advance := padded_advance
}.

(** [DistributedPaddedDataLoader.__init__]. *)
Definition padded_init (sorted_files : list path)
           (seq_len process_rank num_processes : nat)
           (cls_id eos_id pad_id : Z) (max_epochs : nat)
  : result (padded * list effect) :=
  b <- new_loader sorted_files seq_len process_rank num_processes ;;
  reset (mkPadded b cls_id eos_id pad_id [] max_epochs).
End PaddedLoader.

End Dataloading.

(** * Notions used in the statements *)

Import Omgprot50 Dataloading.

Definition is_i32 (w : Z) : Prop := (- 2 ^ 31 <= w < 2 ^ 31)%Z.

(** The token payload of a shard file as [write_datafile] documents it:
    the uint16 elements after the 1024-byte header. *)
Definition payload (file : list Z) : list Z :=
  let body := skipn 1024 file in
  Bytes.words_u16 (length body) body.

(** The tokens held by a list of shard files, read as two-byte units. *)
Definition shard_tokens (shards : list (nat * list Z)) : list Z :=
  concat (map (fun f => payload (snd f)) shards).

(** What the loop of [tokenize_fw] maintains once the documents of
    [corpus] (their concatenation) have been consumed. *)
Record writer_inv (shard_size : nat) (w : writer) (corpus : list Z) : Prop := {
  inv_buffer : length (all_tokens_np w) = shard_size;
  inv_count : token_count w <= shard_size;
  inv_bar : progress_bar w <> None -> token_count w < shard_size;
  inv_index : map fst (written w) = seq 0 (shard_index w);
  inv_full : Forall (fun f => length (payload (snd f)) = shard_size) (written w);
  inv_tokens :
    shard_tokens (written w) ++ firstn (token_count w) (all_tokens_np w) = corpus
}.

(** The running row length is below the row width, and the chunks
    emitted so far are whole rows followed by that many tokens. *)
Definition row_invariant (width : nat) (st : packing) : Prop :=
  curr_batch_len st < width /\
  exists rows,
    length (concat (processed_chunks st)) = rows * width + curr_batch_len st.

(** The seeds the generator was reseeded with, in order. *)
Definition seeds (log : list effect) : list nat :=
  flat_map (fun e => match e with SeedShuffle s => [s] | Warning _ => [] end) log.

Definition is_empty (raw : list Z) : bool :=
  match raw with [] => true | _ :: _ => false end.

(** With documents of at most half a shard, the bar is never [None] when
    a shard fills: a state without bar holds less than half a shard. *)
Definition bar_or_room (shard_size : nat) (w : writer) : Prop :=
  progress_bar w = None -> 2 * token_count w < shard_size.

(** [k] calls of [advance] in a row, and [k] calls of [next_batch] in a
    row with the batches they return (the accumulation loop of the
    training script). *)
Fixpoint advance_times {L : Type} {C : LoaderClass L} (k : nat) (self : L)
  : result L :=
  match k with
  | 0 => Ok self
  | S k' => '(self', _) <- advance self ;; advance_times k' self'
  end.

Fixpoint next_batches {L : Type} {C : LoaderClass L} (k : nat) (self : L)
  : result (list (list Z) * L) :=
  match k with
  | 0 => Ok ([], self)
  | S k' =>
      '(buf, self', _) <- next_batch self ;;
      '(bufs, self'') <- next_batches k' self' ;;
      Ok (buf :: bufs, self'')
  end.

(** The same loader on another rank. *)
Definition set_rank (r : nat) (b : loader) : loader :=
  mkLoader (world_size b) r (files b) (batch_size b)
           (local_batch_size b) (next_shard b) (pos b) (tokens b).

Definition with_rank (r : nat) (self : padded) : padded :=
  set_super (set_rank r (super self)) self.

(** [out] is [src] with PAD tokens inserted: nothing of [src] is dropped,
    doubled or moved. *)
Inductive pad_insertion (pad : Z) : list Z -> list Z -> Prop :=
| pad_insertion_nil : pad_insertion pad [] []
| pad_insertion_keep (x : Z) (src out : list Z) :
    pad_insertion pad src out -> pad_insertion pad (x :: src) (x :: out)
| pad_insertion_pad (src out : list Z) :
    pad_insertion pad src out -> pad_insertion pad src (pad :: out).

(** The row layout of a list of samples, in the words of the amended
    row-alignment claim.  [row_layout pad width used samples out final]:
    starting in a row that holds [used] tokens, the samples are laid out
    as [out], and the last row then holds [final] tokens.  A sample that
    leaves room in the current row joins it.  A sample that would meet
    or exceed the row end has the row padded out first; if it is at most
    a row long it then starts the next row, and otherwise it is cut into
    pieces of at most a row, each of which is padded to a full row. *)
Inductive row_layout (pad : Z) (width : nat)
  : nat -> list (list Z) -> list Z -> nat -> Prop :=
| row_layout_done (used : nat) : row_layout pad width used [] [] used
| row_layout_joins (used : nat) (sample : list Z) (rest : list (list Z))
                   (out : list Z) (final : nat) :
    length sample + used < width ->
    row_layout pad width (used + length sample) rest out final ->
    row_layout pad width used (sample :: rest) (sample ++ out) final
| row_layout_next_row (used : nat) (sample : list Z) (rest : list (list Z))
                      (out : list Z) (final : nat) :
    width <= length sample + used ->
    length sample <= width ->
    row_layout pad width (if length sample =? width then 0 else length sample)
               rest out final ->
    row_layout pad width used (sample :: rest)
               (repeat pad (width - used) ++ sample ++ out) final
| row_layout_split (used : nat) (sample : list Z) (pieces : list (list Z))
                   (rest : list (list Z)) (out : list Z) (final : nat) :
    width < length sample ->
    concat pieces = sample ->
    Forall (fun piece => length piece <= width) pieces ->
    row_layout pad width 0 rest out final ->
    row_layout pad width used (sample :: rest)
               (repeat pad (width - used)
                ++ concat (map (fun piece =>
                                  piece ++ repeat pad (width - length piece))
                               pieces)
                ++ out)
               final.

(** Positions that increase, the first being at least [from]. *)
Fixpoint increasing_from (from : nat) (positions : list nat) : Prop :=
  match positions with
  | [] => True
  | p :: rest => from <= p /\ increasing_from (p + 1) rest
  end.

(** Two packing states that differ in their warnings at most. *)
Definition same_packing (a b : packing) : Prop :=
  processed_chunks a = processed_chunks b /\
  curr_batch_len a = curr_batch_len b.

(** The padded loader at the end of its stream: cursor at 0, nothing in
    the working buffer, nothing left over. *)
Definition at_end (self : padded) : padded :=
  set_leftover [] (set_super (set_tokens [] (set_pos 0 (super self))) self).

(** The values [sample] takes in the loop of [advance], in order:
    [raw_tokens[prev_eos_plus_one:curr_eos+1]] for each EOS position. *)
Fixpoint samples_of (raw : list Z) (prev_eos_plus_one : nat)
         (eos_positions : list nat) : list (list Z) :=
  match eos_positions with
  | [] => []
  | curr_eos :: rest =>
      slice raw prev_eos_plus_one (curr_eos + 1)
      :: samples_of raw (curr_eos + 1) rest
  end.

(** The loop body run over a list of samples, numbered from [i]. *)
Fixpoint pack_samples (cls eos pad : Z) (width : nat) (i : nat)
         (samples : list (list Z)) (st : packing) : result packing :=
  match samples with
  | [] => Ok st
  | sample :: rest =>
      st' <- pack_sample cls eos pad width st i sample ;;
      pack_samples cls eos pad width (S i) rest st'
  end.

(** The runs of [rest] that end with EOS, the first one continuing
    [pending]. *)
Fixpoint segments (eos : Z) (pending rest : list Z) : list (list Z) :=
  match rest with
  | [] => []
  | t :: rest' =>
      if (t =? eos)%Z then (pending ++ [t]) :: segments eos [] rest'
      else segments eos (pending ++ [t]) rest'
  end.

(** The warning of one iteration, if any: the sample's first token is
    compared with the CLS id as a uint8 scalar. *)
Definition warning_for (cls : Z) (numbered : nat * list Z) : list effect :=
  if (hd 0%Z (snd numbered) =? to_uint8 cls)%Z then []
  else [Warning (fst numbered)].

(** [k] calls of [advance] in a row, with the working buffer each one
    leaves. *)
Fixpoint advance_buffers {L : Type} {C : LoaderClass L} (k : nat) (self : L)
  : result (list (list Z) * L) :=
  match k with
  | 0 => Ok ([], self)
  | S k' =>
      '(self', _) <- advance self ;;
      '(bufs, self'') <- advance_buffers k' self' ;;
      Ok (tokens (base self') :: bufs, self'')
  end.

(** * Concrete inputs *)

(** A file system holding one file, whatever the name asked for. *)
Definition single_file (bytes : list Z) : filesystem := fun _ => Some bytes.

(** The shuffle of a list of at most one file, and a stand-in for the
    seeded shuffle that does move two files. *)
Definition shuffle_singleton : nat -> list path -> list path := fun _ l => l.

Definition shuffle_reverse : nat -> list path -> list path := fun _ l => rev l.

(** The shard of the three-token document CLS M EOS (ids 0, 20, 2), as
    [write_datafile] lays it out. *)
Definition cls_m_eos_shard : list Z :=
  Bytes.tobytes_i32 (header 3) ++ Bytes.tobytes_u16 [0; 20; 2]%Z.

(** A file that ends one byte short of a full header. *)
Definition truncated_header : list Z := repeat 0%Z 1023.

(** The tokens 0, 1, ..., 1029 as one document. *)
Definition one_long_document : list (list Z) :=
  [map Z.of_nat (seq 0 1030)].

(** The same tokens as 103 documents of ten tokens each. *)
Definition short_documents : list (list Z) :=
  map (fun i => map Z.of_nat (seq (10 * i) 10)) (seq 0 103).

(** Two samples of seven tokens each (CLS, five residues, EOS), read with
    CLS = 0, EOS = 2 and PAD = 1, and what rows of ten make of them. *)
Definition two_samples : list Z :=
  [0; 5; 6; 7; 8; 9; 2; 0; 10; 11; 12; 13; 14; 2]%Z.

Definition two_samples_packed : list Z :=
  [0; 5; 6; 7; 8; 9; 2; 1; 1; 1; 0; 10; 11; 12; 13; 14; 2]%Z.

(** A sample of twenty tokens, CLS, eighteen residues and EOS. *)
Definition sample_of_twenty : list Z :=
  [0%Z] ++ repeat 5%Z 18 ++ [2%Z].

(** A shard, in the reader's one-byte units, of fourteen PAD tokens, a
    sample of seven tokens and two more PAD tokens (PAD = 1). *)
Definition pad_tail_shard : list Z :=
  Bytes.tobytes_i32 (header 23)
  ++ repeat 1%Z 14 ++ [0; 5; 5; 5; 5; 5; 2]%Z ++ [1; 1]%Z.

(** A shard of eight one-byte units, two samples of four. *)
Definition eight_unit_shard : list Z :=
  Bytes.tobytes_i32 (header 8) ++ [0; 5; 6; 2; 0; 7; 8; 2]%Z.

(** A shard, in the reader's one-byte units, that ends inside a sample:
    CLS, a residue, EOS, then CLS and a residue. *)
Definition fragment_shard : list Z :=
  Bytes.tobytes_i32 (header 5) ++ [0; 7; 2; 0; 5]%Z.

(** The padded loader over the one shard [fragment_shard] (rows of ten,
    one process, one epoch), with the given shard counter, working buffer
    and leftover. *)
Definition fragment_loader (next_shard : nat) (tokens leftover : list Z) : padded :=
  mkPadded (mkLoader 1 0 ["shard_000000.bin"%string] 10 10 next_shard 0 tokens)
           0 2 1 leftover 1.

(** That loader once its epoch is used up, holding the beginning of a
    sample, CLS and one residue, as leftover. *)
Definition drained_with_fragment : padded := fragment_loader 1 [] [0; 5]%Z.

(** A padded loader over two shard files at the end of its single epoch,
    with nothing left over. *)
Definition drained : padded :=
  mkPadded (mkLoader 1 0 ["shard_000000.bin"%string; "shard_000001.bin"%string]
                     10 10 2 0 [])
           0 2 1 [] 1.

(** A file system holding the listed files. *)
Fixpoint files_of (listing : list (path * list Z)) : filesystem :=
  fun name =>
    match listing with
    | [] => None
    | (n, bytes) :: rest =>
        if String.eqb n name then Some bytes else files_of rest name
    end.

(** A shard of three one-byte units, and the same file with three more
    bytes behind them. *)
Definition three_unit_shard : list Z :=
  Bytes.tobytes_i32 (header 3) ++ [0; 7; 2]%Z.

(** Four documents of at most five tokens, thirteen tokens in all. *)
Definition four_documents : list (list Z) :=
  [[1; 2; 3]; [4; 5]; [6; 7; 8; 9; 10]; [11; 12; 13]]%Z.

(** A padded loader of two ranks over a buffer of eight tokens, one token
    per rank and step. *)
Definition two_rank_loader : padded :=
  mkPadded (mkLoader 2 0 ["shard_000000.bin"%string] 2 1 1 0
                     [0; 5; 6; 2; 0; 7; 8; 2]%Z)
           0 2 1 [] 1.

(** The padded loader over the one shard [three_unit_shard], one sample
    that ends the shard (rows of ten, one process, one epoch). *)
Definition sample_loader (next_shard : nat) (tokens : list Z) : padded :=
  mkPadded (mkLoader 1 0 ["shard_000000.bin"%string] 10 10 next_shard 0 tokens)
           0 2 1 [] 1.

(** A padded loader over the two files a.bin and b.bin (rows of ten, one
    process, one epoch), and the file system that holds them. *)
Definition two_file_loader (next_shard : nat) (tokens : list Z) : padded :=
  mkPadded (mkLoader 1 0 ["a.bin"%string; "b.bin"%string] 10 10 next_shard 0
                     tokens)
           0 2 1 [] 1.

Definition two_files : filesystem :=
  files_of [("a.bin"%string, three_unit_shard);
            ("b.bin"%string, eight_unit_shard)].

(** Two files of which the first ends inside a sample. *)
Definition boundary_files : filesystem :=
  files_of [("a.bin"%string, fragment_shard);
            ("b.bin"%string, three_unit_shard)].

(** * Properties *)

(** ** The byte layout *)

Section ByteLayout.
Open Scope Z_scope.

Lemma to_i32_of_i32 (w : Z) :
  is_i32 w ->
  Bytes.to_i32 (w mod 256) ((w / 256) mod 256) ((w / 65536) mod 256)
               ((w / 16777216) mod 256) = w.
Proof.
  unfold is_i32, Bytes.to_i32. intros Hw.
  replace (w / 65536) with (w / 256 / 256) by (rewrite Z.div_div by lia; reflexivity).
  replace (w / 16777216) with (w / 256 / 256 / 256)
    by (rewrite !Z.div_div by lia; reflexivity).
  pose proof (Z.div_mod w 256 ltac:(lia)) as E0.
  pose proof (Z.div_mod (w / 256) 256 ltac:(lia)) as E1.
  pose proof (Z.div_mod (w / 256 / 256) 256 ltac:(lia)) as E2.
  pose proof (Z.div_mod (w / 256 / 256 / 256) 256 ltac:(lia)) as E3.
  pose proof (Z.mod_pos_bound w 256 ltac:(lia)).
  pose proof (Z.mod_pos_bound (w / 256) 256 ltac:(lia)).
  pose proof (Z.mod_pos_bound (w / 256 / 256) 256 ltac:(lia)).
  pose proof (Z.mod_pos_bound (w / 256 / 256 / 256) 256 ltac:(lia)).
  change (2 ^ 31) with 2147483648 in *. change (2 ^ 32) with 4294967296.
  destruct (_ <? _) eqn:E; [apply Z.ltb_lt in E | apply Z.ltb_ge in E]; lia.
Qed.

Lemma to_u16_of_u16 (t : Z) :
  Bytes.is_u16 t -> Bytes.to_u16 (t mod 256) ((t / 256) mod 256) = t.
Proof.
  unfold Bytes.is_u16, Bytes.to_u16. intros Ht.
  pose proof (Z.div_mod t 256 ltac:(lia)).
  rewrite (Z.mod_small (t / 256)); [lia|].
  split; [apply Z.div_pos; lia | apply Z.div_lt_upper_bound; lia].
Qed.

Lemma length_tobytes_i32 (ws : list Z) :
  length (Bytes.tobytes_i32 ws) = (4 * length ws)%nat.
Proof. induction ws as [|w ws IH]; simpl; [reflexivity | rewrite IH; lia]. Qed.

Lemma length_tobytes_u16 (ts : list Z) :
  length (Bytes.tobytes_u16 ts) = (2 * length ts)%nat.
Proof. induction ts as [|t ts IH]; simpl; [reflexivity | rewrite IH; lia]. Qed.

Lemma words_i32_tobytes (ws rest : list Z) :
  Forall is_i32 ws ->
  Bytes.words_i32 (length ws) (Bytes.tobytes_i32 ws ++ rest) = ws.
Proof.
  induction 1 as [|w ws Hw _ IH]; simpl; [reflexivity|].
  rewrite IH, to_i32_of_i32 by assumption. reflexivity.
Qed.

Lemma words_u16_tobytes (ts : list Z) (fuel : nat) :
  Forall Bytes.is_u16 ts -> (length ts <= fuel)%nat ->
  Bytes.words_u16 fuel (Bytes.tobytes_u16 ts) = ts.
Proof.
  intros H. revert fuel.
  induction H as [|t ts Ht _ IH]; intros fuel Hf; simpl.
  - destruct fuel; reflexivity.
  - destruct fuel as [|fuel]; simpl in Hf; [lia|]. simpl.
    rewrite IH, to_u16_of_u16 by (assumption || lia). reflexivity.
Qed.

Lemma tobytes_u16_bytes (ts : list Z) :
  Forall Bytes.is_byte (Bytes.tobytes_u16 ts).
Proof.
  induction ts as [|t ts IH]; simpl; [constructor|].
  constructor; [|constructor; [|exact IH]];
    unfold Bytes.is_byte; apply Z.mod_pos_bound; lia.
Qed.
End ByteLayout.

(** ** The shard writer and the shard reader *)

Section ShardFile.

Lemma length_header (n : nat) : length (header n) = 256.
Proof. unfold header. rewrite length_app, repeat_length. reflexivity. Qed.

Lemma header_i32 (n : nat) :
  (Z.of_nat n < 2 ^ 31)%Z -> Forall is_i32 (header n).
Proof.
  intros Hn. unfold header.
  apply Forall_app. split.
  - repeat constructor; unfold is_i32, MAGIC, VERSION; try lia.
  - apply Forall_forall. intros x Hx. apply repeat_spec in Hx. subst x.
    unfold is_i32. lia.
Qed.

Lemma write_datafile_ok (toks : list Z) :
  (Z.of_nat (length toks) < 2 ^ 31)%Z ->
  write_datafile toks =
  Ok (Bytes.tobytes_i32 (header (length toks)) ++ Bytes.tobytes_u16 toks).
Proof.
  intros H. unfold write_datafile.
  apply Z.ltb_lt in H. rewrite H. reflexivity.
Qed.

Lemma write_datafile_inv (toks file : list Z) :
  write_datafile toks = Ok file ->
  (Z.of_nat (length toks) < 2 ^ 31)%Z /\
  file = Bytes.tobytes_i32 (header (length toks)) ++ Bytes.tobytes_u16 toks.
Proof.
  unfold write_datafile.
  destruct (Z.ltb_spec (Z.of_nat (length toks)) (2 ^ 31)); intros E;
    inversion E; auto.
Qed.

(** The file the writer creates is 1024 + 2N bytes long. *)
Lemma write_datafile_size (toks file : list Z) :
  write_datafile toks = Ok file ->
  length file = 1024 + 2 * length toks.
Proof.
  intros E. apply write_datafile_inv in E as [_ ->].
  rewrite length_app, length_tobytes_i32, length_tobytes_u16, length_header.
  reflexivity.
Qed.

Lemma skipn_header (n : nat) (body : list Z) :
  skipn 1024 (Bytes.tobytes_i32 (header n) ++ body) = body.
Proof.
  rewrite skipn_app.
  rewrite skipn_all2 by (rewrite length_tobytes_i32, length_header; lia).
  rewrite length_tobytes_i32, length_header. reflexivity.
Qed.

(** Read as two-byte units, the payload of the written file is the token
    array. *)
Lemma payload_write_datafile (toks file : list Z) :
  Forall Bytes.is_u16 toks ->
  write_datafile toks = Ok file ->
  payload file = toks.
Proof.
  intros Hu E. apply write_datafile_inv in E as [_ ->].
  unfold payload. rewrite skipn_header.
  apply words_u16_tobytes; [assumption|].
  rewrite length_tobytes_u16. lia.
Qed.

Lemma from_file_header (n : nat) (body : list Z) :
  (Z.of_nat n < 2 ^ 31)%Z ->
  from_file_int32 (Bytes.tobytes_i32 (header n) ++ body) 256 = Ok (header n).
Proof.
  intros Hn. unfold from_file_int32.
  rewrite length_app, length_tobytes_i32, length_header.
  destruct (Nat.ltb_spec (4 * 256 + length body) (4 * 256)); [lia|].
  rewrite <- (length_header n) at 1.
  rewrite words_i32_tobytes by (apply header_i32; assumption).
  reflexivity.
Qed.

(** What the reader returns on a file of the writer: the first [N] bytes
    of the [2N]-byte payload. *)
Lemma load_bytes_write_datafile (toks file : list Z) :
  write_datafile toks = Ok file ->
  load_bytes file = Ok (firstn (length toks) (Bytes.tobytes_u16 toks)).
Proof.
  intros E. apply write_datafile_inv in E as [Hn ->].
  unfold load_bytes. rewrite from_file_header by assumption.
  cbn [bind].
  change (nth 0 (header (length toks)) 0%Z) with MAGIC.
  change (nth 1 (header (length toks)) 0%Z) with VERSION.
  change (nth 2 (header (length toks)) 0%Z) with (Z.of_nat (length toks)).
  cbn [negb MAGIC VERSION Z.eqb Pos.eqb].
  destruct (Z.ltb_spec (Z.of_nat (length toks)) 0); [lia|].
  unfold readinto. change (256 * 4) with 1024.
  rewrite skipn_header, Nat2Z.id.
  rewrite length_firstn, length_tobytes_u16.
  rewrite Nat.min_l by lia. rewrite Z.eqb_refl. reflexivity.
Qed.

End ShardFile.

Section ShardReader.
Variable fs : filesystem.

Lemma load_bytes_unfold (bytes : list Z) :
  1024 <= length bytes ->
  load_bytes bytes =
  let header := Bytes.words_i32 256 bytes in
  if negb (nth 0 header 0 =? 20240520)%Z then
    Raise (AssertionError "magic number mismatch in the data .bin file")
  else if negb (nth 1 header 0 =? 1)%Z then
    Raise (AssertionError "unsupported version")
  else if (nth 2 header 0 <? 0)%Z then
    Raise (RuntimeError "Trying to create tensor with negative dimension")
  else
    let tokens := firstn (Z.to_nat (nth 2 header 0%Z)) (skipn 1024 bytes) in
    if (Z.of_nat (length tokens) =? nth 2 header 0)%Z then Ok tokens
    else Raise (AssertionError "number of tokens read does not match header?").
Proof.
  intros Hlen. unfold load_bytes, from_file_int32.
  change (4 * 256) with 1024.
  destruct (Nat.ltb_spec (length bytes) 1024); [lia|]. reflexivity.
Qed.

(** A file too short to hold the header is rejected before any check. *)
Lemma load_bytes_short (bytes : list Z) :
  length bytes < 1024 ->
  load_bytes bytes =
  Raise (RuntimeError "file size is smaller than the required mapping size").
Proof.
  intros Hlen. unfold load_bytes, from_file_int32.
  change (4 * 256) with 1024.
  destruct (Nat.ltb_spec (length bytes) 1024); [reflexivity | lia].
Qed.

(** C5, as the code has it.  For every file, the reader never returns
    partial or other data: a file too short to hold the 1024-byte header
    is rejected by [torch.from_file] with a [RuntimeError], before any
    check is made; a file that holds the header fails with an assertion
    (the FormatError of the specification) when the first header word is
    not 20240520 or the second is not 1, and when fewer bytes than the
    declared count follow the header; a header that passes with enough
    bytes behind it is accepted; and every successful read comes from a
    file with a valid header and returns exactly the declared number of
    units, which are the bytes that follow the header, in order. *)
Theorem load_data_shard_validation (file : path) (bytes : list Z) :
  fs file = Some bytes ->
  let header := Bytes.words_i32 256 bytes in
  let declared := nth 2 header 0%Z in
  (length bytes < 1024 ->
     _load_data_shard fs file =
     Raise (RuntimeError "file size is smaller than the required mapping size")) /\
  (1024 <= length bytes ->
   (nth 0 header 0 <> 20240520 \/ nth 1 header 0 <> 1)%Z ->
     exists e, _load_data_shard fs file = Raise e /\ is_assertion e = true) /\
  (1024 <= length bytes ->
   (Z.of_nat (length bytes - 1024) < declared)%Z ->
     exists e, _load_data_shard fs file = Raise e /\ is_assertion e = true) /\
  (1024 <= length bytes ->
   (nth 0 header 0 = 20240520 /\ nth 1 header 0 = 1 /\
    0 <= declared <= Z.of_nat (length bytes - 1024))%Z ->
     _load_data_shard fs file =
     Ok (firstn (Z.to_nat declared) (skipn 1024 bytes))) /\
  (forall toks, _load_data_shard fs file = Ok toks ->
     1024 <= length bytes /\
     (nth 0 header 0 = 20240520 /\ nth 1 header 0 = 1)%Z /\
     Z.of_nat (length toks) = declared /\
     toks = firstn (length toks) (skipn 1024 bytes)).
Proof.
  intros Hfs header declared.
  unfold _load_data_shard. rewrite Hfs.
  destruct (Nat.lt_ge_cases (length bytes) 1024) as [Hshort|Hlen].
  { rewrite (@load_bytes_short bytes Hshort).
    split; [reflexivity|]. split; [lia|]. split; [lia|]. split; [lia|].
    intros toks E; discriminate. }
  split; [lia|].
  rewrite (@load_bytes_unfold bytes Hlen).
  cbv zeta. fold header. fold declared.
  assert (Havail : length (skipn 1024 bytes) = length bytes - 1024)
    by apply length_skipn.
  destruct (Z.eqb_spec (nth 0 header 0%Z) 20240520) as [Hm|Hm]; cbn [negb].
  2:{ split; [|split; [|split]].
      - intros _ _. eexists; split; reflexivity.
      - intros _ _. eexists; split; reflexivity.
      - intros _ (? & _); contradiction.
      - intros toks E; discriminate. }
  destruct (Z.eqb_spec (nth 1 header 0%Z) 1) as [Hv|Hv]; cbn [negb].
  2:{ split; [|split; [|split]].
      - intros _ _. eexists; split; reflexivity.
      - intros _ _. eexists; split; reflexivity.
      - intros _ (_ & ? & _); contradiction.
      - intros toks E; discriminate. }
  destruct (Z.ltb_spec declared 0) as [Hneg|Hpos].
  { split; [|split; [|split]].
    - intros _ [?|?]; contradiction.
    - lia.
    - lia.
    - intros toks E; discriminate. }
  rewrite length_firstn, Havail.
  destruct (Z.eqb_spec
              (Z.of_nat (Nat.min (Z.to_nat declared) (length bytes - 1024)))
              declared) as [Hc|Hc].
  - split; [|split; [|split]].
    + intros _ [?|?]; contradiction.
    + lia.
    + reflexivity.
    + intros toks E.
      assert (Et : toks = firstn (Z.to_nat declared) (skipn 1024 bytes))
        by congruence.
      rewrite Et, length_firstn, Havail.
      replace (Nat.min (Z.to_nat declared) (length bytes - 1024))
        with (Z.to_nat declared) by lia.
      repeat split; try assumption. lia.
  - split; [|split; [|split]].
    + intros _ [?|?]; contradiction.
    + intros _ _. eexists; split; reflexivity.
    + lia.
    + intros toks E; discriminate.
Qed.

End ShardReader.

Lemma load_data_shard_validation_witness :
  single_file cls_m_eos_shard "shard.bin"%string = Some cls_m_eos_shard /\
  _load_data_shard (single_file cls_m_eos_shard) "shard.bin"%string
  = Ok [0; 0; 20]%Z.
Proof.
  assert (Hfs : single_file cls_m_eos_shard "shard.bin"%string
                = Some cls_m_eos_shard) by reflexivity.
  split; [exact Hfs|].
  destruct (load_data_shard_validation (single_file cls_m_eos_shard)
              "shard.bin"%string Hfs) as (_ & _ & _ & Haccept & _).
  rewrite Haccept.
  - vm_compute. reflexivity.
  - apply Nat.leb_le. vm_compute. reflexivity.
  - vm_compute. repeat split; discriminate.
Defined.

(** C5, as stated, fails on a file that ends inside its header.  A file
    of 1023 zero bytes has 0 for its first header word, not 20240520, and
    the reader fails on it with the [RuntimeError] of [torch.from_file],
    which is none of the assertions. *)
Lemma truncated_header_is_no_format_error :
  nth 0 (Bytes.words_i32 256 truncated_header) 0%Z <> 20240520%Z /\
  _load_data_shard (single_file truncated_header) "shard.bin"%string
  = Raise (RuntimeError "file size is smaller than the required mapping size") /\
  is_assertion
    (RuntimeError "file size is smaller than the required mapping size")
  = false.
Proof.
  split; [vm_compute; discriminate|]. split; reflexivity.
Qed.

(** With two tokens or more the reader's second unit is the high byte of
    the first token, whatever the second token was. *)
Lemma load_bytes_second_unit (t0 t1 : Z) (rest file : list Z) :
  write_datafile (t0 :: t1 :: rest) = Ok file ->
  exists units,
    load_bytes file = Ok (t0 mod 256 :: (t0 / 256) mod 256 :: units)%Z.
Proof.
  intros E. rewrite (load_bytes_write_datafile _ E).
  cbn [length Bytes.tobytes_u16 flat_map Bytes.of_u16 app firstn].
  eexists. reflexivity.
Qed.

(** So a round trip of two tokens or more needs the second token to be
    the high byte of the first. *)
Lemma roundtrip_only_if (t0 t1 : Z) (rest file : list Z) :
  write_datafile (t0 :: t1 :: rest) = Ok file ->
  load_bytes file = Ok (t0 :: t1 :: rest) ->
  t1 = ((t0 / 256) mod 256)%Z.
Proof.
  intros Ew El. destruct (load_bytes_second_unit _ _ _ Ew) as [units Eu].
  congruence.
Qed.

(** C1.  Round-trip of the shard format, at the three-token document
    CLS M EOS: the writer lays the tokens out as two-byte units (reading the
    payload back in two-byte units gives the tokens), and the reader
    returns the first three bytes of the six-byte payload, [0; 0; 20],
    which is not the token sequence [0; 20; 2] that was written. *)
Theorem shard_roundtrip_reads_half_the_payload :
  write_datafile [0; 20; 2]%Z = Ok cls_m_eos_shard /\
  payload cls_m_eos_shard = [0; 20; 2]%Z /\
  _load_data_shard (single_file cls_m_eos_shard) "shard.bin"%string
  = Ok [0; 0; 20]%Z /\
  _load_data_shard (single_file cls_m_eos_shard) "shard.bin"%string
  <> Ok [0; 20; 2]%Z.
Proof.
  assert (Hw : write_datafile [0; 20; 2]%Z = Ok cls_m_eos_shard) by reflexivity.
  split; [exact Hw | split; [| split]].
  - apply payload_write_datafile with (toks := [0; 20; 2]%Z); [|exact Hw].
    repeat constructor; unfold Bytes.is_u16; lia.
  - unfold _load_data_shard, single_file.
    rewrite (load_bytes_write_datafile _ Hw). reflexivity.
  - unfold _load_data_shard, single_file.
    rewrite (load_bytes_write_datafile _ Hw). discriminate.
Qed.

(** ** The tokenisation driver *)

Section SliceAssignment.

Lemma assign_slice_within (buf src : list Z) (a : nat) :
  a + length src <= length buf ->
  assign_slice buf a (a + length src) src =
  Ok (firstn a buf ++ src ++ skipn (a + length src) buf).
Proof.
  intros H. unfold assign_slice.
  rewrite (Nat.min_l a) by lia.
  rewrite (Nat.min_l (a + length src)) by lia.
  rewrite Nat.max_r by lia.
  replace (a + length src - a) with (length src) by lia.
  rewrite Nat.eqb_refl. reflexivity.
Qed.

Lemma firstn_two_parts (A : Type) (l1 l2 l3 : list A) (k : nat) :
  length l1 + length l2 = k -> firstn k (l1 ++ l2 ++ l3) = l1 ++ l2.
Proof.
  intros <-. rewrite app_assoc, <- length_app.
  rewrite <- (Nat.add_0_r (length (l1 ++ l2))), firstn_app_2.
  cbn. apply app_nil_r.
Qed.

Lemma Forall_firstn (A : Type) (P : A -> Prop) (n : nat) (l : list A) :
  Forall P l -> Forall P (firstn n l).
Proof.
  intros H. revert n. induction H; intros [|n]; cbn; auto.
Qed.

Lemma Forall_skipn (A : Type) (P : A -> Prop) (n : nat) (l : list A) :
  Forall P l -> Forall P (skipn n l).
Proof.
  intros H. revert n. induction H; intros [|n]; cbn; auto.
Qed.

(** Storing at the start of a non-empty buffer succeeds only when the
    source fits. *)
Lemma assign_slice_prefix_inv (buf src buf' : list Z) :
  0 < length buf ->
  assign_slice buf 0 (length src) src = Ok buf' ->
  length src <= length buf /\ buf' = src ++ skipn (length src) buf.
Proof.
  intros Hpos. unfold assign_slice.
  rewrite Nat.min_0_l, Nat.max_0_l, Nat.sub_0_r. cbn [firstn app].
  destruct (Nat.le_gt_cases (length src) (length buf)) as [Hle|Hgt].
  - rewrite Nat.min_l by lia. rewrite Nat.eqb_refl.
    intros E. split; [exact Hle | congruence].
  - rewrite Nat.min_r by lia.
    destruct (Nat.eqb_spec (length src) (length buf)); [lia|].
    destruct (Nat.eqb_spec (length src) 1); [lia|]. discriminate.
Qed.

End SliceAssignment.

Lemma shard_tokens_app (s1 s2 : list (nat * list Z)) :
  shard_tokens (s1 ++ s2) = shard_tokens s1 ++ shard_tokens s2.
Proof. unfold shard_tokens. rewrite map_app, concat_app. reflexivity. Qed.

Section Driver.
Variable shard_size : nat.

Lemma writer_inv_init (empty : list Z) :
  length empty = shard_size ->
  writer_inv shard_size (mkWriter 0 empty 0 None []) [].
Proof.
  intros H. constructor; cbn; auto; try lia. intros E; congruence.
Qed.

Lemma feed_inv (w w' : writer) (corpus tokens : list Z) :
  writer_inv shard_size w corpus ->
  Forall Bytes.is_u16 corpus ->
  Forall Bytes.is_u16 tokens ->
  feed shard_size w tokens = Ok w' ->
  writer_inv shard_size w' (corpus ++ tokens).
Proof.
  intros [Hbuf Hcnt Hbar Hidx Hfull Htok] Hcorpus Htokens.
  unfold feed.
  destruct (Nat.ltb_spec (token_count w + length tokens) shard_size) as [Hlt|Hge].
  - (* the document fits *)
    rewrite assign_slice_within by lia. cbn [bind].
    intros E. injection E as <-.
    constructor; cbn [all_tokens_np token_count progress_bar written shard_index];
      auto; try lia.
    { rewrite !length_app, length_firstn, length_skipn. lia. }
    rewrite firstn_two_parts
      by (rewrite length_firstn; lia).
    rewrite app_assoc, Htok. reflexivity.
  - (* the shard fills *)
    destruct (progress_bar w) as [done|] eqn:Epb; [|discriminate].
    assert (Hroom : token_count w < shard_size) by (apply Hbar; congruence).
    set (remainder := shard_size - token_count w).
    assert (Hrem : length (firstn remainder tokens) = remainder)
      by (rewrite length_firstn; subst remainder; lia).
    rewrite <- Hrem at 1.
    rewrite assign_slice_within by (rewrite Hrem; subst remainder; lia).
    cbn [bind]. rewrite Hrem.
    replace (token_count w + remainder) with shard_size
      by (subst remainder; lia).
    rewrite skipn_all2 by lia. rewrite app_nil_r.
    set (buf1 := firstn (token_count w) (all_tokens_np w)
                 ++ firstn remainder tokens).
    assert (Hbuf1 : length buf1 = shard_size).
    { subst buf1. rewrite length_app, Hrem, length_firstn.
      subst remainder. lia. }
    destruct (write_datafile buf1) as [file|e] eqn:Ew; [|discriminate].
    cbn [bind].
    assert (Hleft : length (skipn remainder tokens) = length tokens - remainder)
      by apply length_skipn.
    rewrite <- Hleft.
    destruct (assign_slice buf1 0 (length (skipn remainder tokens))
                           (skipn remainder tokens)) as [buf2|e] eqn:Ea;
      [|discriminate].
    apply assign_slice_prefix_inv in Ea as [Hfit ->]; [|lia].
    cbn [bind]. intros E. injection E as <-.
    assert (Hu : Forall Bytes.is_u16 buf1).
    { subst buf1. apply Forall_app. split.
      - rewrite <- Htok in Hcorpus. apply Forall_app in Hcorpus. tauto.
      - apply Forall_firstn. assumption. }
    pose proof (payload_write_datafile Hu Ew) as Hpay.
    constructor; cbn [all_tokens_np token_count progress_bar written shard_index].
    + rewrite length_app, (length_skipn _ buf1). lia.
    + rewrite Hleft, Hbuf1 in Hfit. lia.
    + congruence.
    + rewrite map_app, Hidx, seq_S. reflexivity.
    + apply Forall_app. split; [assumption|].
      constructor; [|constructor]. cbn [snd]. rewrite Hpay. exact Hbuf1.
    + rewrite shard_tokens_app. unfold shard_tokens at 2.
      cbn [map snd concat].
      rewrite Hpay, app_nil_r.
      rewrite firstn_app, firstn_all, Nat.sub_diag. cbn [firstn].
      rewrite app_nil_r. subst buf1.
      rewrite <- Htok, <- !app_assoc. do 2 f_equal.
      apply firstn_skipn.
Qed.

Lemma feed_all_inv (fw : list (list Z)) (w w' : writer) (corpus : list Z) :
  writer_inv shard_size w corpus ->
  Forall Bytes.is_u16 corpus ->
  Forall (Forall Bytes.is_u16) fw ->
  feed_all shard_size w fw = Ok w' ->
  writer_inv shard_size w' (corpus ++ concat fw).
Proof.
  revert w corpus.
  induction fw as [|tokens fw IH]; intros w corpus Hinv Hc Hfw; cbn.
  - intros E. injection E as <-. rewrite app_nil_r. exact Hinv.
  - inversion Hfw as [|? ? Ht Hrest]; subst.
    destruct (feed shard_size w tokens) as [w1|e] eqn:E1; [|discriminate].
    cbn [bind]. intros E.
    rewrite app_assoc. apply IH with (w := w1); auto.
    + eapply feed_inv; eauto.
    + apply Forall_app. split; assumption.
Qed.

(** Whenever the driver runs to completion, the shard files it wrote,
    taken in index order and read as two-byte units, hold the tokenized
    corpus exactly; their indices are 0, 1, 2, ... *)
Lemma tokenize_fw_complete (empty : list Z) (fw : list (list Z))
      (shards : list (nat * list Z)) :
  length empty = shard_size ->
  Forall (Forall Bytes.is_u16) fw ->
  tokenize_fw shard_size empty fw = Ok shards ->
  shard_tokens shards = concat fw /\
  map fst shards = seq 0 (length shards).
Proof.
  intros Hempty Hfw. unfold tokenize_fw.
  destruct (feed_all shard_size _ fw) as [w|e] eqn:E; [|discriminate].
  cbn [bind].
  pose proof (feed_all_inv (writer_inv_init _ Hempty) (Forall_nil _) Hfw E)
    as [Hbuf Hcnt Hbar Hidx Hfull Htok].
  cbn [app] in Htok.
  assert (Hlen : length (written w) = shard_index w).
  { rewrite <- (length_map fst), Hidx, length_seq. reflexivity. }
  destruct (Nat.eqb_spec (token_count w) 0) as [Hz|Hnz].
  - intros E'. injection E' as <-.
    rewrite Hz in Htok. cbn in Htok. rewrite app_nil_r in Htok.
    rewrite Hlen. auto.
  - destruct (write_datafile _) as [file|e] eqn:Ew; [|discriminate].
    cbn [bind]. intros E'. injection E' as <-.
    assert (Hu : Forall Bytes.is_u16 (firstn (token_count w) (all_tokens_np w))).
    { assert (Hall : Forall Bytes.is_u16 (concat fw)).
      { clear -Hfw. induction Hfw; cbn; [constructor|].
        apply Forall_app; split; assumption. }
      rewrite <- Htok in Hall. apply Forall_app in Hall. tauto. }
    split.
    + rewrite shard_tokens_app. unfold shard_tokens at 2.
      cbn [map snd concat].
      rewrite (payload_write_datafile Hu Ew), app_nil_r. exact Htok.
    + rewrite map_app, Hidx, length_app, Hlen. cbn.
      rewrite Nat.add_1_r, seq_S. reflexivity.
Qed.

End Driver.

(** The end-to-end example on documents that fit: two shard files,
    numbered 0 and 1, of 1000 and 30 tokens, which together hold the
    1030 tokens in order. *)
Lemma tokenize_fw_short_documents :
  exists f0 f1,
    tokenize_fw 1000 (repeat 0%Z 1000) short_documents = Ok [(0, f0); (1, f1)] /\
    length f0 = 1024 + 2 * 1000 /\ length f1 = 1024 + 2 * 30 /\
    length (payload f0) = 1000 /\ length (payload f1) = 30 /\
    payload f0 ++ payload f1 = map Z.of_nat (seq 0 1030).
Proof.
  destruct (tokenize_fw 1000 (repeat 0%Z 1000) short_documents)
    as [shards|e] eqn:E; [|vm_compute in E; discriminate].
  destruct shards as [|[i0 f0] [|[i1 f1] [|? ?]]];
    try (vm_compute in E; discriminate).
  assert (i0 = 0 /\ i1 = 1) as [-> ->]
    by (vm_compute in E; split; congruence).
  exists f0, f1. split; [reflexivity|].
  vm_compute in E. injection E as <- <-.
  vm_compute. repeat split; reflexivity.
Qed.

(** C4.  Shard-writer completeness, at three document streams the driver
    does not survive.  A single document of 1030 tokens with shards of
    1000: the first shard fills before any progress bar exists, and
    [progress_bar.update] raises on [None] with no file written.  Documents
    of 6, 6 and 9 tokens with shards of 10: the second document fills the
    first shard and clears the bar, the third fills the next shard at once,
    and the same call raises.  Documents of 1 and 25 tokens with shards of
    10: the 16 tokens left over from the second document do not fit the
    buffer, and the slice assignment raises. *)
Theorem tokenize_fw_raises_on_finite_streams :
  tokenize_fw 1000 (repeat 0%Z 1000) one_long_document
  = Raise (AttributeError "'NoneType' object has no attribute 'update'") /\
  tokenize_fw 10 (repeat 0%Z 10)
              [repeat 5%Z 6; repeat 6%Z 6; repeat 7%Z 9]
  = Raise (AttributeError "'NoneType' object has no attribute 'update'") /\
  tokenize_fw 10 (repeat 0%Z 10) [[4%Z]; repeat 5%Z 25]
  = Raise (ValueError "could not broadcast input array").
Proof.
  repeat split; vm_compute; reflexivity.
Qed.

(** ** Chunking an oversized sample *)

Section Chunking.

Lemma split_n_lengths (num_splits split_size : nat) (t : list Z) :
  Forall (fun piece => length piece <= split_size)
         (split_n num_splits split_size t).
Proof.
  revert t. induction num_splits as [|k IH]; intros t; cbn; constructor.
  - rewrite length_firstn. lia.
  - apply IH.
Qed.

Lemma length_split_n (num_splits split_size : nat) (t : list Z) :
  length (split_n num_splits split_size t) = num_splits.
Proof.
  revert t. induction num_splits as [|k IH]; intros t; cbn; [|rewrite IH];
    reflexivity.
Qed.

Lemma concat_split_n (num_splits split_size : nat) (t : list Z) :
  length t <= num_splits * split_size ->
  concat (split_n num_splits split_size t) = t.
Proof.
  revert t. induction num_splits as [|k IH]; intros t Hlen; cbn.
  - destruct t; [reflexivity | cbn in Hlen; lia].
  - rewrite IH; [apply firstn_skipn|].
    rewrite length_skipn. cbn in Hlen. lia.
Qed.

(** The piece size [torch.chunk] picks for [len // width + 1] chunks is
    at least one and at most the row width. *)
Lemma split_size_bounds (len width : nat) :
  0 < width -> 0 < len ->
  let chunks := len / width + 1 in
  let split_size := (len + chunks - 1) / chunks in
  0 < split_size <= width.
Proof.
  intros Hw Hl chunks split_size. subst split_size chunks.
  set (q := len / width).
  assert (Hq : len < width * (q + 1)).
  { subst q. pose proof (Nat.mul_succ_div_gt len width ltac:(lia)). lia. }
  split.
  - apply Nat.div_str_pos. lia.
  - assert ((len + (q + 1) - 1) / (q + 1) < width + 1); [|lia].
    apply Nat.Div0.div_lt_upper_bound. nia.
Qed.

Lemma ceil_div_covers (len size : nat) :
  0 < size -> len <= (len + size - 1) / size * size.
Proof.
  intros Hs.
  pose proof (Nat.div_mod_eq (len + size - 1) size) as E.
  pose proof (Nat.mod_upper_bound (len + size - 1) size ltac:(lia)).
  lia.
Qed.

Lemma torch_chunk_pieces (sample : list Z) (width : nat) :
  0 < width -> 0 < length sample ->
  let pieces := torch_chunk sample (length sample / width + 1) in
  Forall (fun piece => length piece <= width) pieces /\
  concat pieces = sample.
Proof.
  intros Hw Hl pieces. subst pieces. unfold torch_chunk.
  pose proof (split_size_bounds Hw Hl) as Hs. cbv zeta in Hs.
  set (split_size := (length sample + (length sample / width + 1) - 1)
                     / (length sample / width + 1)) in *.
  split.
  - eapply Forall_impl; [|apply split_n_lengths].
    cbn beta. intros piece Hp. lia.
  - apply concat_split_n.
    pose proof (@ceil_div_covers (length sample) split_size ltac:(lia)).
    nia.
Qed.

(** When the row width does not divide the sample's length,
    [len // width + 1] is the ceiling of [len / width], and that many
    pieces come out. *)
Lemma torch_chunk_count (sample : list Z) (width : nat) :
  0 < width -> 0 < length sample ->
  length sample mod width <> 0 ->
  length (torch_chunk sample (length sample / width + 1))
  = (length sample + width - 1) / width.
Proof.
  intros Hw Hl Hmod. unfold torch_chunk. rewrite length_split_n.
  pose proof (split_size_bounds Hw Hl) as Hs. cbv zeta in Hs.
  set (q := length sample / width) in *.
  set (len := length sample) in *.
  set (split_size := (len + (q + 1) - 1) / (q + 1)) in *.
  pose proof (Nat.div_mod_eq len width) as Elen. fold q in Elen.
  pose proof (Nat.mod_upper_bound len width ltac:(lia)) as Hr.
  assert (Hceil : (len + width - 1) / width = q + 1).
  { symmetry. apply Nat.div_unique with (r := len mod width - 1). lia. lia. }
  rewrite Hceil.
  assert (Hsz : len <= split_size * (q + 1)).
  { subst split_size.
    pose proof (@ceil_div_covers len (q + 1) ltac:(lia)). lia. }
  set (n := (len + split_size - 1) / split_size).
  assert (Hn1 : len <= n * split_size)
    by (subst n; apply ceil_div_covers; lia).
  assert (Hn2 : n <= q + 1).
  { subst n. apply Nat.lt_succ_r.
    apply Nat.Div0.div_lt_upper_bound. nia. }
  assert (Hn3 : q < n) by nia.
  fold n. rewrite Nat.max_l by lia. lia.
Qed.

End Chunking.

(** ** Packing samples into rows *)

Section PackingProperties.
Variables (cls eos pad : Z) (width : nat).

Local Abbreviation pack_sample := (pack_sample cls eos pad width).
Local Abbreviation pack_loop := (pack_loop cls eos pad width).
Local Abbreviation pack := (pack cls eos pad width).
Local Abbreviation pad_each := (pad_each pad width).
Local Abbreviation full := (full pad).
Local Abbreviation p8 := (to_uint8 pad).

Lemma to_uint8_byte (v : Z) : Bytes.is_byte v -> to_uint8 v = v.
Proof. unfold Bytes.is_byte, to_uint8. intros H. apply Z.mod_small. lia. Qed.

(** A PAD id of the uint8 range is the fill value itself. *)
Lemma full_ok (n : nat) : Bytes.is_byte pad -> full n = Ok (repeat pad n).
Proof.
  intros H. unfold Dataloading.full. rewrite (to_uint8_byte H).
  unfold Bytes.is_byte in H.
  destruct (Z.ltb_spec (-256) pad); [|lia].
  destruct (Z.ltb_spec pad 256); [|lia]. reflexivity.
Qed.

Lemma full_inv (n : nat) (l : list Z) :
  full n = Ok l -> l = repeat p8 n.
Proof.
  unfold Dataloading.full. destruct (_ && _); intros E; congruence.
Qed.

(** [torch.full] raises for every size or for none, and what it raises
    is not an assertion. *)
Lemma full_raises (n m : nat) (e : exn) :
  full n = Raise e ->
  full m = Raise e /\ is_assertion e = false /\ ~ Bytes.is_byte pad.
Proof.
  intros E. split; [|split].
  - revert E. unfold Dataloading.full. destruct (_ && _); congruence.
  - revert E. unfold Dataloading.full.
    destruct (_ && _); [discriminate|]. intros E. injection E as <-.
    reflexivity.
  - intros H. rewrite (full_ok n H) in E. discriminate.
Qed.

Lemma pad_each_inv (pieces rows : list (list Z)) :
  pad_each pieces = Ok rows ->
  Forall (fun piece => length piece <= width) pieces /\
  rows = flat_map (fun piece => [piece; repeat p8 (width - length piece)])
                  pieces.
Proof.
  revert rows. induction pieces as [|piece pieces IH]; intros rows;
    cbn [Dataloading.pad_each flat_map app].
  - intros E. injection E as <-. split; [constructor | reflexivity].
  - destruct (Nat.ltb_spec width (length piece)); [discriminate|].
    destruct (full _) as [padding|e] eqn:Ef; cbn [bind]; [|discriminate].
    destruct (Dataloading.pad_each pad width pieces) as [rows'|e];
      cbn [bind]; [|discriminate].
    intros E. injection E as <-.
    destruct (IH _ eq_refl) as [Hall ->]. apply full_inv in Ef. subst padding.
    split; [constructor; [lia | exact Hall] | reflexivity].
Qed.

Lemma pad_each_ok (pieces : list (list Z)) :
  Bytes.is_byte pad ->
  Forall (fun piece => length piece <= width) pieces ->
  pad_each pieces =
  Ok (flat_map (fun piece => [piece; repeat pad (width - length piece)]) pieces).
Proof.
  intros Hpad. induction 1 as [|piece pieces Hp _ IH];
    cbn [Dataloading.pad_each flat_map app]; [reflexivity|].
  destruct (Nat.ltb_spec width (length piece)); [lia|].
  rewrite (full_ok _ Hpad), IH. reflexivity.
Qed.

Lemma length_padded_rows (v : Z) (pieces : list (list Z)) :
  Forall (fun piece => length piece <= width) pieces ->
  length (concat (flat_map
                    (fun piece => [piece; repeat v (width - length piece)])
                    pieces))
  = length pieces * width.
Proof.
  induction 1 as [|piece pieces Hp _ IH]; cbn; [reflexivity|].
  rewrite !length_app, IH. rewrite repeat_length. lia.
Qed.

Lemma length_concat_app (A : Type) (l1 l2 : list (list A)) :
  length (concat (l1 ++ l2)) = length (concat l1) + length (concat l2).
Proof. rewrite concat_app, length_app. reflexivity. Qed.

(** Every way one iteration can return: the assertion held, the warning
    is the one of the sample, and the sample joined the current row,
    started the next one behind PAD, or was split into padded pieces. *)
Lemma pack_sample_cases (st st' : packing) (i : nat) (sample : list Z) :
  pack_sample st i sample = Ok st' ->
  curr_batch_len st < width /\
  warnings st'
  = warnings st
    ++ (if negb (hd 0%Z sample =? to_uint8 cls)%Z
           && (last sample 0%Z =? to_uint8 eos)%Z
        then [Warning i] else []) /\
  ((length sample + curr_batch_len st < width /\
    processed_chunks st' = processed_chunks st ++ [sample] /\
    curr_batch_len st' = curr_batch_len st + length sample) \/
   (width <= length sample + curr_batch_len st /\ length sample <= width /\
    processed_chunks st'
    = processed_chunks st ++ [repeat p8 (width - curr_batch_len st); sample] /\
    curr_batch_len st' = (if length sample =? width then 0 else length sample)) \/
   (width < length sample /\
    Forall (fun piece => length piece <= width)
           (torch_chunk sample (length sample / width + 1)) /\
    processed_chunks st'
    = processed_chunks st
      ++ [repeat p8 (width - curr_batch_len st)]
      ++ flat_map (fun piece => [piece; repeat p8 (width - length piece)])
                  (torch_chunk sample (length sample / width + 1)) /\
    curr_batch_len st' = 0)).
Proof.
  unfold Dataloading.pack_sample.
  destruct (Nat.ltb_spec (curr_batch_len st) width) as [Hcurr|]; cbn [negb];
    [|discriminate].
  destruct (Nat.leb_spec width (length sample + curr_batch_len st))
    as [Hfull|Hroom].
  - destruct (full _) as [padding|e] eqn:Ef; cbn [bind]; [|discriminate].
    apply full_inv in Ef. subst padding.
    cbn [processed_chunks curr_batch_len warnings].
    destruct (Nat.ltb_spec width (length sample)) as [Hbig|Hfits].
    + destruct (Dataloading.pad_each pad width _) as [rows|e] eqn:Er;
        cbn [bind]; [|discriminate].
      apply pad_each_inv in Er as [Hall ->].
      intros E. injection E as <-.
      cbn [processed_chunks curr_batch_len warnings].
      split; [exact Hcurr|]. split; [reflexivity|].
      right. right. rewrite <- app_assoc. auto.
    + intros E. injection E as <-.
      cbn [processed_chunks curr_batch_len warnings Nat.add].
      split; [exact Hcurr|]. split; [reflexivity|].
      right. left. rewrite <- app_assoc. auto.
  - cbn [bind processed_chunks curr_batch_len warnings].
    destruct (Nat.ltb_spec width (length sample)) as [Hbig|Hfits]; [lia|].
    intros E. injection E as <-.
    cbn [processed_chunks curr_batch_len warnings].
    split; [exact Hcurr|]. split; [reflexivity|].
    left. destruct (Nat.eqb_spec (curr_batch_len st + length sample) width);
      [lia|]. auto.
Qed.

(** One iteration never fails its assertion when it starts below the row
    width: it returns with the invariant re-established, unless
    [torch.full] rejects the PAD id. *)
Lemma pack_sample_invariant (st : packing) (i : nat) (sample : list Z) :
  row_invariant width st ->
  match pack_sample st i sample with
  | Ok st' => row_invariant width st'
  | Raise e => is_assertion e = false /\ ~ Bytes.is_byte pad
  end.
Proof.
  intros [Hcurr [rows Hrows]].
  destruct (pack_sample st i sample) as [st'|e] eqn:E.
  - apply pack_sample_cases in E
      as (_ & _ & [(Hroom & Hc & Hl)|[(Hfull & Hfits & Hc & Hl)
                                     |(Hbig & Hall & Hc & Hl)]]);
      split; rewrite ?Hc, ?Hl.
    + lia.
    + exists rows. rewrite length_concat_app, Hrows. cbn.
      rewrite app_nil_r. lia.
    + destruct (Nat.eqb_spec (length sample) width); lia.
    + exists (if length sample =? width then rows + 2 else rows + 1).
      rewrite length_concat_app, Hrows. cbn.
      rewrite app_nil_r, length_app, repeat_length.
      destruct (Nat.eqb_spec (length sample) width); lia.
    + lia.
    + exists (rows + 1
              + length (torch_chunk sample (length sample / width + 1))).
      rewrite !length_concat_app, Hrows, (length_padded_rows _ Hall). cbn.
      rewrite app_nil_r, repeat_length. lia.
  - revert E. unfold Dataloading.pack_sample.
    destruct (Nat.ltb_spec (curr_batch_len st) width) as [_|]; [|lia].
    cbn [negb].
    destruct (Nat.leb_spec width (length sample + curr_batch_len st))
      as [Hfull|Hroom].
    + destruct (full (width - curr_batch_len st)) as [padding|e'] eqn:Ef;
        cbn [bind].
      * cbn [processed_chunks curr_batch_len warnings].
        destruct (Nat.ltb_spec width (length sample)) as [Hbig|Hfits];
          [|discriminate].
        destruct (@torch_chunk_pieces sample width) as [Hpieces _]; try lia.
        revert Hpieces.
        generalize (torch_chunk sample (length sample / width + 1)).
        intros pieces Hpieces.
        assert (Hrows' : forall e0, Dataloading.pad_each pad width pieces
                                    <> Raise e0).
        { induction Hpieces as [|piece pieces Hp _ IH];
            cbn [Dataloading.pad_each]; [discriminate|].
          intros e0. destruct (Nat.ltb_spec width (length piece)); [lia|].
          destruct (full (width - length piece)) as [q|e1] eqn:Eq.
          - cbn [bind].
            destruct (Dataloading.pad_each pad width pieces) eqn:Ep;
              cbn [bind]; [discriminate|].
            exfalso. exact (IH _ eq_refl).
          - apply (@full_raises _ (width - curr_batch_len st) _) in Eq as [Eq _].
            congruence. }
        destruct (Dataloading.pad_each pad width pieces) as [rows'|e1] eqn:Ep;
          cbn [bind]; [discriminate|].
        exfalso. exact (Hrows' _ eq_refl).
      * intros E. injection E as <-.
        apply (@full_raises _ 0 _) in Ef as (_ & Ha & Hb). auto.
    + cbn [bind processed_chunks curr_batch_len warnings].
      destruct (Nat.ltb_spec width (length sample)); [lia | discriminate].
Qed.

(** With a PAD id of the uint8 range the iteration returns. *)
Lemma pack_sample_succeeds (st : packing) (i : nat) (sample : list Z) :
  Bytes.is_byte pad ->
  row_invariant width st ->
  exists st', pack_sample st i sample = Ok st' /\ row_invariant width st'.
Proof.
  intros Hpad Hinv. pose proof (pack_sample_invariant i sample Hinv) as H.
  destruct (pack_sample st i sample) as [st'|e]; [eauto|].
  destruct H as [_ H]. contradiction.
Qed.

Lemma pack_loop_invariant (raw : list Z) (eos_positions : list nat)
      (i prev : nat) (st : packing) :
  row_invariant width st ->
  match pack_loop raw i prev eos_positions st with
  | Ok st' => row_invariant width st'
  | Raise e => is_assertion e = false /\ ~ Bytes.is_byte pad
  end.
Proof.
  revert i prev st.
  induction eos_positions as [|curr_eos rest IH]; intros i prev st Hinv;
    cbn [Dataloading.pack_loop]; [exact Hinv|].
  pose proof (pack_sample_invariant i (slice raw prev (curr_eos + 1)) Hinv)
    as H.
  destruct (pack_sample st i _) as [st1|e]; cbn [bind]; [|exact H].
  apply IH. exact H.
Qed.

Lemma pack_loop_succeeds (raw : list Z) (eos_positions : list nat)
      (i prev : nat) (st : packing) :
  Bytes.is_byte pad ->
  row_invariant width st ->
  exists st', pack_loop raw i prev eos_positions st = Ok st' /\
              row_invariant width st'.
Proof.
  intros Hpad Hinv.
  pose proof (pack_loop_invariant raw eos_positions i prev Hinv) as H.
  destruct (pack_loop raw i prev eos_positions st) as [st'|e]; [eauto|].
  destruct H as [_ H]. contradiction.
Qed.

Lemma row_invariant_init : 0 < width -> row_invariant width (mkPacking [] 0 []).
Proof. intros H. split; [exact H | exists 0; reflexivity]. Qed.

(** The loop run on a prefix of the positions is the beginning of the
    loop run on all of them. *)
Lemma pack_loop_app (raw : list Z) (pre post : list nat)
      (i prev : nat) (st : packing) :
  pack_loop raw i prev (pre ++ post) st =
  st' <- pack_loop raw i prev pre st ;;
  pack_loop raw (i + length pre)
            (fold_left (fun _ curr_eos => curr_eos + 1) pre prev) post st'.
Proof.
  revert i prev st. induction pre as [|p pre IH]; intros i prev st.
  - cbn. rewrite Nat.add_0_r. reflexivity.
  - cbn [app Dataloading.pack_loop fold_left length].
    destruct (pack_sample st i _) as [st1|e]; cbn [bind]; [|reflexivity].
    rewrite IH.
    replace (i + S (length pre)) with (S i + length pre) by lia.
    reflexivity.
Qed.

End PackingProperties.

(** C9.  Packing-loop assertion validity.  For every combined buffer,
    every row width of at least one and all ids, the in-loop assertion
    never fails.  After any prefix of the EOS positions has been
    processed, either the loop has reached a state whose running row
    length is at least zero and below the row width (which is what the
    assertion of the next iteration asks), the rest of the loop continuing
    from that state; or it has stopped on an exception that is not the
    assertion, which only a PAD id outside the uint8 range causes
    ([torch.full] rejects it).  So the whole loop never raises the
    assertion, and with a PAD id of the uint8 range it runs to its end. *)
Theorem packing_assertion_never_fails
        (cls eos pad : Z) (local_batch_size : nat) (raw : list Z) :
  1 <= local_batch_size ->
  let eos_positions := nonzero_eq eos 0 raw in
  let start := mkPacking [] 0 [] in
  (forall pre post, eos_positions = pre ++ post ->
     match pack_loop cls eos pad local_batch_size raw 0 0 pre start with
     | Ok st =>
         0 <= curr_batch_len st < local_batch_size /\
         pack_loop cls eos pad local_batch_size raw 0 0 eos_positions start
         = pack_loop cls eos pad local_batch_size raw (length pre)
                     (fold_left (fun _ curr_eos => curr_eos + 1) pre 0) post st
     | Raise e => is_assertion e = false /\ ~ Bytes.is_byte pad
     end) /\
  (forall e,
     pack_loop cls eos pad local_batch_size raw 0 0 eos_positions start
     = Raise e ->
     is_assertion e = false) /\
  (Bytes.is_byte pad ->
   exists final,
     pack_loop cls eos pad local_batch_size raw 0 0 eos_positions start
     = Ok final).
Proof.
  intros Hw eos_positions start.
  assert (Hstart : row_invariant local_batch_size start)
    by (apply row_invariant_init; lia).
  split; [|split].
  - intros pre post Hsplit.
    pose proof (pack_loop_invariant cls eos pad raw pre 0 0 Hstart) as H.
    destruct (pack_loop cls eos pad local_batch_size raw 0 0 pre start)
      as [st|e] eqn:E; [|exact H].
    destruct H as [Hcurr _]. split; [lia|].
    rewrite Hsplit, pack_loop_app, E. reflexivity.
  - intros e E.
    pose proof (pack_loop_invariant cls eos pad raw eos_positions 0 0 Hstart)
      as H.
    rewrite E in H. apply H.
  - intros Hpad.
    destruct (pack_loop_succeeds cls eos raw eos_positions 0 0 Hpad Hstart)
      as (final & E & _).
    exists final. exact E.
Qed.

Lemma packing_assertion_never_fails_witness :
  1 <= 10 /\
  exists final,
    pack_loop 0 2 1 10 two_samples 0 0 (nonzero_eq 2 0 two_samples)
              (mkPacking [] 0 []) = Ok final.
Proof.
  assert (Hw : 1 <= 10) by lia.
  split; [exact Hw|].
  apply (proj2 (proj2 (@packing_assertion_never_fails 0 2 1 10 two_samples Hw))).
  unfold Bytes.is_byte. lia.
Defined.

(** A buffer with no EOS in it leaves [curr_eos] unbound. *)
Lemma pack_without_eos (cls eos pad : Z) (width : nat) (raw : list Z) :
  nonzero_eq eos 0 raw = [] ->
  pack cls eos pad width raw = Raise (UnboundLocalError "curr_eos").
Proof. intros E. unfold pack. rewrite E. reflexivity. Qed.

(** A buffer with an EOS in it is packed, whatever it holds, provided the
    row width is positive and the PAD id is of the uint8 range. *)
Lemma pack_with_eos (cls eos pad : Z) (width : nat) (raw : list Z) :
  0 < width ->
  Bytes.is_byte pad ->
  nonzero_eq eos 0 raw <> [] ->
  exists st,
    pack_loop cls eos pad width raw 0 0 (nonzero_eq eos 0 raw)
              (mkPacking [] 0 []) = Ok st /\
    row_invariant width st /\
    pack cls eos pad width raw =
    Ok (concat (processed_chunks st),
        skipn (last (nonzero_eq eos 0 raw) 0 + 1) raw,
        warnings st).
Proof.
  intros Hw Hpad Heos.
  destruct (pack_loop_succeeds cls eos raw (nonzero_eq eos 0 raw) 0 0
              Hpad (row_invariant_init Hw)) as (st & E & Hinv).
  exists st. split; [exact E|]. split; [exact Hinv|].
  unfold pack. rewrite E. cbn [bind].
  destruct (nonzero_eq eos 0 raw); [congruence | reflexivity].
Qed.

(** ** The samples of a buffer *)

Section Segmentation.
Variable eos : Z.

Local Abbreviation e8 := (to_uint8 eos).

(** The loop over the EOS positions is the loop body run over the
    samples it cuts. *)
Lemma pack_loop_over_samples (cls pad : Z) (width : nat) (raw : list Z)
      (positions : list nat) (i prev : nat) (st : packing) :
  pack_loop cls eos pad width raw i prev positions st
  = pack_samples cls eos pad width i (samples_of raw prev positions) st.
Proof.
  revert i prev st. induction positions as [|p rest IH]; intros i prev st;
    [reflexivity|].
  cbn [pack_loop samples_of pack_samples].
  destruct (pack_sample cls eos pad width st i _); cbn [bind];
    [apply IH | reflexivity].
Qed.

Lemma samples_of_segments (rest done pending : list Z) :
  samples_of (done ++ pending ++ rest) (length done)
             (nonzero_eq eos (length done + length pending) rest)
  = segments e8 pending rest.
Proof.
  revert done pending. induction rest as [|t rest IH]; intros done pending;
    [reflexivity|].
  cbn [nonzero_eq segments].
  destruct (t =? e8)%Z.
  - cbn [samples_of]. f_equal.
    + unfold slice. rewrite skipn_app, skipn_all, Nat.sub_diag.
      cbn [skipn app].
      replace (length done + length pending + 1 - length done)
        with (length (pending ++ [t])) by (rewrite length_app; cbn; lia).
      change (t :: rest) with ([t] ++ rest). rewrite app_assoc.
      rewrite firstn_app, firstn_all, Nat.sub_diag. cbn [firstn].
      apply app_nil_r.
    + specialize (IH (done ++ pending ++ [t]) []).
      rewrite !length_app in IH. cbn [length] in IH.
      rewrite <- !app_assoc in IH. cbn [app] in IH.
      replace (length done + length pending + 1)
        with (length done + (length pending + 1)) by lia.
      replace (S (length done + length pending))
        with (length done + (length pending + 1) + 0) by lia.
      exact IH.
  - specialize (IH done (pending ++ [t])).
    rewrite length_app in IH. cbn [length] in IH.
    rewrite <- app_assoc in IH. cbn [app] in IH.
    replace (S (length done + length pending))
      with (length done + (length pending + 1)) by lia.
    exact IH.
Qed.

(** The samples of a whole buffer. *)
Lemma samples_of_buffer (raw : list Z) :
  samples_of raw 0 (nonzero_eq eos 0 raw) = segments e8 [] raw.
Proof. exact (samples_of_segments raw [] []). Qed.

End Segmentation.

Lemma segments_spec (sep : Z) (rest pending : list Z) :
  ~ In sep pending ->
  length (segments sep pending rest) = count_occ Z.eq_dec rest sep /\
  Forall (fun sample => exists body, sample = body ++ [sep] /\ ~ In sep body)
         (segments sep pending rest) /\
  exists tail,
    pending ++ rest = concat (segments sep pending rest) ++ tail /\
    ~ In sep tail.
Proof.
  revert pending. induction rest as [|t rest IH]; intros pending Hno.
  - cbn. split; [reflexivity|]. split; [constructor|].
    exists pending. rewrite app_nil_r. auto.
  - cbn [segments count_occ].
    destruct (Z.eqb_spec t sep) as [->|Hne].
    + destruct (IH [] ltac:(cbn; tauto)) as (Hlen & Hall & tail & Hcat & Htail).
      destruct (Z.eq_dec sep sep) as [_|]; [|congruence].
      split; [cbn; rewrite Hlen; reflexivity|].
      split; [constructor; [exists pending; auto | exact Hall]|].
      exists tail. split; [|exact Htail].
      cbn [concat]. rewrite <- !app_assoc. f_equal. cbn [app].
      f_equal. exact Hcat.
    + assert (Hno' : ~ In sep (pending ++ [t])).
      { intros Hin. apply in_app_or in Hin as [Hin|[Hin|[]]];
          [exact (Hno Hin) | congruence]. }
      destruct (IH _ Hno') as (Hlen & Hall & tail & Hcat & Htail).
      destruct (Z.eq_dec t sep) as [|_]; [congruence|].
      split; [exact Hlen|]. split; [exact Hall|].
      exists tail. split; [|exact Htail].
      rewrite <- Hcat, <- app_assoc. reflexivity.
Qed.

(** ** The row layout *)

Section RowLayout.
Variables (cls eos pad : Z) (width : nat).

Lemma concat_padded_rows (v : Z) (pieces : list (list Z)) :
  concat (flat_map (fun piece => [piece; repeat v (width - length piece)])
                   pieces)
  = concat (map (fun piece => piece ++ repeat v (width - length piece))
                pieces).
Proof.
  induction pieces as [|piece pieces IH]; [reflexivity|].
  cbn [flat_map map concat app]. rewrite IH, <- app_assoc. reflexivity.
Qed.

(** What the loop body appends for a list of samples is their row
    layout, PAD being the uint8 value of the PAD id. *)
Lemma pack_samples_layout (samples : list (list Z)) (i : nat)
      (st st' : packing) :
  0 < width ->
  pack_samples cls eos pad width i samples st = Ok st' ->
  exists out,
    concat (processed_chunks st') = concat (processed_chunks st) ++ out /\
    row_layout (to_uint8 pad) width (curr_batch_len st) samples out
               (curr_batch_len st').
Proof.
  intros Hw. revert i st.
  induction samples as [|sample samples IH]; intros i st;
    cbn [pack_samples].
  - intros E. injection E as <-. exists []. rewrite app_nil_r.
    split; [reflexivity | constructor].
  - destruct (pack_sample cls eos pad width st i sample) as [st1|e] eqn:E1;
      cbn [bind]; [|discriminate].
    intros E. apply IH in E as (out & Hcat & Hlay).
    apply pack_sample_cases in E1
      as (_ & _ & [(Hroom & Hc & Hl)|[(Hfull & Hfits & Hc & Hl)
                                     |(Hbig & Hall & Hc & Hl)]]);
      rewrite Hc, Hl in *.
    + exists (sample ++ out). split.
      * rewrite Hcat, concat_app. cbn [concat].
        rewrite app_nil_r, <- app_assoc. reflexivity.
      * apply row_layout_joins; assumption.
    + exists (repeat (to_uint8 pad) (width - curr_batch_len st)
              ++ sample ++ out).
      split.
      * rewrite Hcat, concat_app. cbn [concat].
        rewrite app_nil_r, <- !app_assoc. reflexivity.
      * apply row_layout_next_row; assumption.
    + destruct (@torch_chunk_pieces sample width) as [_ Hpieces]; try lia.
      exists (repeat (to_uint8 pad) (width - curr_batch_len st)
              ++ concat (map (fun piece =>
                                piece ++ repeat (to_uint8 pad)
                                                (width - length piece))
                             (torch_chunk sample (length sample / width + 1)))
              ++ out).
      split.
      * rewrite Hcat, !concat_app, concat_padded_rows. cbn [concat].
        rewrite app_nil_r, <- !app_assoc. reflexivity.
      * apply row_layout_split; assumption.
Qed.

End RowLayout.

(** C2, as the code has it.  For every combined buffer with an EOS in
    it, every row width of at least one and every PAD id of the uint8
    range, packing succeeds and the working buffer is the row layout of
    the buffer's samples (its EOS-terminated runs): a row is padded out
    only when the next sample would meet or exceed the row end, and every
    piece of a sample longer than a row is padded to a full row.  So every
    row but the last is full and the last row is left unpadded: the
    packed buffer is a whole number of rows followed by the tokens of the
    last row, which is as long as the running row length at the end of
    the loop (below the row width, zero exactly when the buffer is a
    multiple of the width). *)
Theorem packed_rows_full_except_last
        (cls eos pad : Z) (local_batch_size : nat) (raw : list Z) :
  1 <= local_batch_size ->
  Bytes.is_byte pad ->
  nonzero_eq eos 0 raw <> [] ->
  exists st toks leftover log,
    pack_loop cls eos pad local_batch_size raw 0 0 (nonzero_eq eos 0 raw)
              (mkPacking [] 0 []) = Ok st /\
    pack cls eos pad local_batch_size raw = Ok (toks, leftover, log) /\
    row_layout pad local_batch_size 0 (segments (to_uint8 eos) [] raw)
               toks (curr_batch_len st) /\
    curr_batch_len st < local_batch_size /\
    length toks mod local_batch_size = curr_batch_len st /\
    (length toks mod local_batch_size = 0 <-> curr_batch_len st = 0).
Proof.
  intros Hw Hpad Heos.
  destruct (@pack_with_eos cls eos pad local_batch_size raw) as
    (st & E & [Hcurr [rows Hrows]] & Hpack); [lia | exact Hpad | exact Heos |].
  exists st. do 3 eexists. split; [exact E|]. split; [exact Hpack|].
  assert (Hmod : length (concat (processed_chunks st)) mod local_batch_size
                 = curr_batch_len st).
  { rewrite Hrows, Nat.add_comm, Nat.Div0.mod_add.
    apply Nat.mod_small. exact Hcurr. }
  split.
  { rewrite pack_loop_over_samples, samples_of_buffer in E.
    apply pack_samples_layout in E as (out & Hcat & Hlay); [|lia].
    cbn [processed_chunks curr_batch_len concat app] in Hcat, Hlay.
    rewrite Hcat. rewrite (to_uint8_byte Hpad) in Hlay. exact Hlay. }
  split; [exact Hcurr|]. split; [exact Hmod|].
  rewrite Hmod. tauto.
Qed.

Lemma packed_rows_full_except_last_witness :
  1 <= 10 /\
  Bytes.is_byte 1 /\
  nonzero_eq 2 0 two_samples <> [] /\
  exists st toks leftover log,
    pack_loop 0 2 1 10 two_samples 0 0 (nonzero_eq 2 0 two_samples)
              (mkPacking [] 0 []) = Ok st /\
    pack 0 2 1 10 two_samples = Ok (toks, leftover, log) /\
    row_layout 1 10 0 (segments (to_uint8 2) [] two_samples)
               toks (curr_batch_len st) /\
    curr_batch_len st < 10 /\
    length toks mod 10 = curr_batch_len st /\
    (length toks mod 10 = 0 <-> curr_batch_len st = 0).
Proof.
  assert (Hw : 1 <= 10) by lia.
  assert (Hpad : Bytes.is_byte 1) by (unfold Bytes.is_byte; lia).
  assert (Heos : nonzero_eq 2 0 two_samples <> []) by (vm_compute; discriminate).
  split; [exact Hw|]. split; [exact Hpad|]. split; [exact Heos|].
  exact (@packed_rows_full_except_last 0 2 1 10 two_samples Hw Hpad Heos).
Defined.

(** C2, as stated, fails on its own example: with rows of ten and two
    samples of seven tokens the packed buffer is the first sample, three
    PAD tokens and the second sample, 17 tokens, which is neither 20 nor a
    multiple of ten; nothing is left over. *)
Lemma two_samples_pack_to_seventeen :
  pack 0 2 1 10 two_samples = Ok (two_samples_packed, [], []) /\
  length two_samples_packed = 17 /\
  length two_samples_packed <> 20 /\
  length two_samples_packed mod 10 <> 0.
Proof. vm_compute. repeat split; discriminate. Qed.

(** ** The leftover *)

Section Leftover.
Variable eos : Z.

Local Abbreviation e8 := (to_uint8 eos).

Lemma nonzero_eq_nil (raw : list Z) (i : nat) :
  nonzero_eq eos i raw = [] -> ~ In e8 raw.
Proof.
  revert i. induction raw as [|t rest IH]; intros i; cbn [nonzero_eq In];
    [tauto|].
  destruct (Z.eqb_spec t e8) as [->|Hne]; [discriminate|].
  intros E [Ht|Hin]; [congruence | exact (IH _ E Hin)].
Qed.

Lemma nonzero_eq_last (raw : list Z) (i : nat) :
  nonzero_eq eos i raw <> [] ->
  let p := last (nonzero_eq eos i raw) 0 in
  i <= p /\
  nth_error raw (p - i) = Some e8 /\
  ~ In e8 (skipn (p - i + 1) raw).
Proof.
  revert i. induction raw as [|t rest IH]; intros i; cbn [nonzero_eq];
    [congruence|].
  destruct (Z.eqb_spec t e8) as [->|Hne].
  - intros _. destruct (nonzero_eq eos (S i) rest) as [|q qs] eqn:E.
    + cbn [last]. rewrite Nat.sub_diag. cbn.
      repeat split; auto. exact (nonzero_eq_nil _ _ E).
    + change (last (i :: q :: qs) 0) with (last (q :: qs) 0).
      rewrite <- E. cbv zeta.
      destruct (IH (S i)) as (Hle & Hnth & Hno); [congruence|].
      cbv zeta in Hle, Hnth, Hno.
      set (p := last (nonzero_eq eos (S i) rest) 0) in *.
      replace (p - i) with (S (p - S i)) by lia.
      repeat split; [lia | exact Hnth | exact Hno].
  - intros Hpos. cbv zeta.
    destruct (IH (S i) Hpos) as (Hle & Hnth & Hno).
    cbv zeta in Hle, Hnth, Hno.
    set (p := last (nonzero_eq eos (S i) rest) 0) in *.
    replace (p - i) with (S (p - S i)) by lia.
    repeat split; [lia | exact Hnth | exact Hno].
Qed.

(** Whenever the buffer is packed, the leftover is what follows the last
    EOS: the buffer is a run ending in EOS followed by the leftover, and
    the leftover holds no EOS. *)
Lemma pack_leftover (cls pad : Z) (width : nat)
      (raw toks leftover : list Z) (log : list effect) :
  pack cls eos pad width raw = Ok (toks, leftover, log) ->
  exists consumed,
    raw = consumed ++ [e8] ++ leftover /\ ~ In e8 leftover.
Proof.
  unfold pack.
  destruct (pack_loop cls eos pad width raw 0 0 _ _) as [st|e];
    cbn [bind]; [|discriminate].
  destruct (nonzero_eq eos 0 raw) as [|q qs] eqn:E; [discriminate|].
  intros Hok. injection Hok as _ Hleft _.
  destruct (@nonzero_eq_last raw 0) as (_ & Hnth & Hno); [congruence|].
  cbv zeta in Hnth, Hno. rewrite E, Nat.sub_0_r in Hnth, Hno.
  set (p := last (q :: qs) 0) in *.
  apply nth_error_split in Hnth as (before & after & Hraw & Hlen).
  exists before.
  assert (Hskip : skipn (p + 1) raw = after).
  { rewrite Hraw, <- Hlen, Nat.add_1_r.
    change (before ++ e8 :: after) with (before ++ [e8] ++ after).
    rewrite app_assoc.
    replace (S (length before)) with (length (before ++ [e8]))
      by (rewrite length_app; cbn; lia).
    rewrite skipn_app, skipn_all, Nat.sub_diag. reflexivity. }
  change (skipn (p + 1) raw = leftover) in Hleft.
  rewrite Hskip in Hleft, Hno. subst leftover.
  split; [exact Hraw | exact Hno].
Qed.

End Leftover.

(** C3.  Leftover carryover, at a buffer without EOS.  The two tokens
    [0; 5] hold no EOS: packing them, and advancing the loader that holds
    them as its leftover once its epochs are used up, raises on the
    unbound [curr_eos] instead of keeping them as the new leftover.  The
    state is reached by constructing a loader over a shard that ends inside
    a sample: the construction keeps [0; 5] as leftover, and the first
    [next_batch] raises. *)
Theorem advance_raises_on_buffer_without_eos :
  pack 0 2 1 10 [0; 5]%Z = Raise (UnboundLocalError "curr_eos") /\
  (forall fs shuffle,
     padded_advance fs shuffle drained_with_fragment
     = Raise (UnboundLocalError "curr_eos")) /\
  exists self log,
    padded_init (single_file fragment_shard) shuffle_singleton
                ["shard_000000.bin"%string] 10 0 1 0 2 1 1 = Ok (self, log) /\
    tokens (super self) = [0; 7; 2]%Z /\
    _leftover_tokens self = [0; 5]%Z /\
    @next_batch _ (DistributedPaddedDataLoader (single_file fragment_shard)
                                               shuffle_singleton) self
    = Raise (UnboundLocalError "curr_eos").
Proof.
  split; [reflexivity|]. split; [intros fs shuffle; reflexivity|].
  do 2 eexists. split; [vm_compute; reflexivity|].
  repeat split; vm_compute; reflexivity.
Qed.

(** C6.  Oversized-sample splitting, at a sample twice the row width.
    With rows of ten a sample of twenty tokens is cut by
    [torch.chunk(sample, 20 // 10 + 1)] into three pieces of 7, 7 and 6
    tokens, one more than the ceiling of 20/10; the packed buffer is a row
    of PAD followed by the three pieces, each padded to ten. *)
Theorem sample_of_two_rows_is_cut_in_three :
  length sample_of_twenty = 20 /\
  (20 + 10 - 1) / 10 = 2 /\
  map (@length Z) (torch_chunk sample_of_twenty (20 / 10 + 1)) = [7; 7; 6] /\
  pack 0 2 1 10 sample_of_twenty
  = Ok (repeat 1%Z 10
          ++ ([0%Z] ++ repeat 5%Z 6) ++ repeat 1%Z 3
          ++ repeat 5%Z 7 ++ repeat 1%Z 3
          ++ (repeat 5%Z 5 ++ [2%Z]) ++ repeat 1%Z 4,
        [], []).
Proof. repeat split; vm_compute; reflexivity. Qed.

(** ** The single-stream loader *)

Section SingleStream.
Variable fs : filesystem.

Local Abbreviation next_batch := (@next_batch _ (DistributedDataLoader fs)).

(** C7, as the code has it.  A call of [next_batch] on the
    single-stream loader returns the part of the current shard's buffer
    inside [cursor + rank * local_batch_size,
    cursor + (rank + 1) * local_batch_size): at most [local_batch_size]
    tokens, all from the current buffer, and exactly that many when the
    buffer reaches the end of the slice.  The cursor then moves on by
    [batch_size]: when another [batch_size] from the new cursor stays
    strictly inside the buffer the loader keeps the shard, and when it
    would overrun the buffer the loader advances to the next shard. *)
Theorem next_batch_contract (self : loader) :
  let width := local_batch_size self in
  let start := pos self + rank self * width in
  let buf := slice (tokens self) start (start + width) in
  let moved := set_pos (pos self + batch_size self) self in
  (forall out self' log,
     next_batch self = Ok (out, self', log) ->
     out = buf /\ length out <= width /\
     (start + width <= length (tokens self) -> length out = width)) /\
  (pos moved + batch_size self < length (tokens self) ->
     next_batch self = Ok (buf, moved, [])) /\
  (length (tokens self) < pos moved + batch_size self ->
     next_batch self =
     '(self', log) <- base_advance fs moved ;; Ok (buf, self', log)).
Proof.
  intros width start buf moved.
  assert (Hbuf : firstn width (skipn start (tokens self)) = buf).
  { subst buf. unfold slice. f_equal. lia. }
  assert (Hlen : length buf <= width /\
                 (start + width <= length (tokens self) -> length buf = width)).
  { rewrite <- Hbuf, length_firstn, length_skipn. lia. }
  unfold Dataloading.next_batch.
  cbn [base with_base advance DistributedDataLoader].
  fold width. fold start. rewrite Hbuf. fold moved.
  change (pos moved) with (pos self + batch_size self).
  destruct (Nat.leb_spec (length (tokens self))
                         (pos self + batch_size self + batch_size self))
    as [Hend|Hmore].
  - split; [|split; [lia|]].
    + intros out self' log.
      destruct (base_advance fs moved) as [[s l]|e]; cbn [bind];
        [|discriminate].
      intros E. injection E as <- _ _. tauto.
    + intros _. reflexivity.
  - split; [|split; [|lia]].
    + intros out self' log E. injection E as <- _ _. tauto.
    + intros _. reflexivity.
Qed.

End SingleStream.

Lemma next_batch_contract_witness :
  exists self,
    init (single_file eight_unit_shard) ["shard_000000.bin"%string] 2 0 1
    = Ok (self, []) /\
    pos self + batch_size self + batch_size self < length (tokens self) /\
    @next_batch _ (DistributedDataLoader (single_file eight_unit_shard)) self
    = Ok ([0; 5]%Z, set_pos 2 self, []).
Proof.
  eexists. split; [vm_compute; reflexivity|].
  match goal with |- _ /\ ?n _ ?s = _ =>
    pose proof (proj1 (proj2 (next_batch_contract
                                (single_file eight_unit_shard) s))) as H
  end.
  assert (Hlt : 0 + 2 + 2 < 8) by lia.
  split; [exact Hlt|].
  exact (H Hlt).
Defined.

(** C7, as stated, fails twice.  On a shard of three units and batches of
    four the call returns three tokens, not [local_batch_size].  On a shard
    of eight units and batches of four the loader leaves the shard after
    the first batch, although the second batch fits the buffer exactly and
    one more [batch_size] would not overrun it. *)
Lemma next_batch_short_and_early :
  (exists self,
     init (single_file cls_m_eos_shard) ["shard_000000.bin"%string] 4 0 1
     = Ok (self, []) /\
     local_batch_size self = 4 /\
     @next_batch _ (DistributedDataLoader (single_file cls_m_eos_shard)) self
     = Ok ([0; 0; 20]%Z, set_pos 0 self, [])) /\
  (exists self,
     init (single_file eight_unit_shard) ["shard_000000.bin"%string] 4 0 1
     = Ok (self, []) /\
     length (tokens self) = 8 /\
     @next_batch _ (DistributedDataLoader (single_file eight_unit_shard)) self
     = Ok ([0; 5; 6; 2]%Z, set_pos 0 self, [])).
Proof.
  split; eexists; (split; [vm_compute; reflexivity|]);
    split; vm_compute; reflexivity.
Qed.

(** ** The padded loader *)

Lemma seeds_app (l1 l2 : list effect) : seeds (l1 ++ l2) = seeds l1 ++ seeds l2.
Proof. unfold seeds. apply flat_map_app. Qed.

Section PackingLog.
Variables (cls eos pad : Z) (width : nat).

Lemma pack_sample_seeds (st st' : packing) (i : nat) (sample : list Z) :
  pack_sample cls eos pad width st i sample = Ok st' ->
  seeds (warnings st') = seeds (warnings st).
Proof.
  intros E. apply pack_sample_cases in E as (_ & Hw & _).
  rewrite Hw, seeds_app. destruct (_ && _); cbn; apply app_nil_r.
Qed.

Lemma pack_loop_seeds (raw : list Z) (eos_positions : list nat)
      (i prev : nat) (st st' : packing) :
  pack_loop cls eos pad width raw i prev eos_positions st = Ok st' ->
  seeds (warnings st') = seeds (warnings st).
Proof.
  revert i prev st.
  induction eos_positions as [|curr_eos rest IH]; intros i prev st; cbn.
  - intros E. injection E as <-. reflexivity.
  - destruct (pack_sample cls eos pad width st i _) as [st1|e] eqn:E1;
      cbn [bind]; [|discriminate].
    intros E. rewrite (IH _ _ _ E).
    apply pack_sample_seeds in E1. exact E1.
Qed.

(** Packing never touches the generator. *)
Lemma pack_seeds (raw toks leftover : list Z) (log : list effect) :
  pack cls eos pad width raw = Ok (toks, leftover, log) -> seeds log = [].
Proof.
  unfold pack.
  destruct (pack_loop cls eos pad width raw 0 0 _ _) as [st|e] eqn:E;
    cbn [bind]; [|discriminate].
  destruct (nonzero_eq eos 0 raw); [discriminate|].
  intros Hok. injection Hok as _ _ <-.
  apply pack_loop_seeds in E. exact E.
Qed.
End PackingLog.

Section PaddedProperties.
Variable fs : filesystem.
Variable shuffle : nat -> list path -> list path.

Local Abbreviation gather := (gather fs).
Local Abbreviation repack := (repack shuffle).
Local Abbreviation padded_advance := (padded_advance fs shuffle).

(** Gathering changes neither the file list nor anything but the cursor
    and the shard counter. *)
Lemma gather_files (self self1 : padded) (raw : list Z) :
  gather self = Ok (raw, self1) ->
  files (super self1) = files (super self) /\
  local_batch_size (super self1) = local_batch_size (super self) /\
  _leftover_tokens self1 = _leftover_tokens self.
Proof.
  unfold Dataloading.gather. cbn [files set_pos next_shard].
  destruct (_ =? 0); [discriminate|].
  destruct (_ <? _).
  - destruct (nth_error _ _); [|discriminate].
    destruct (_load_data_shard fs p); cbn [bind]; [|discriminate].
    intros E. injection E as _ <-. auto.
  - intros E. injection E as _ <-. auto.
Qed.

(** What [advance] does to the file list, given the combined buffer. *)
Lemma repack_files (raw : list Z) (self1 self' : padded) (log : list effect) :
  repack raw self1 = Ok (self', log) ->
  let counter := next_shard (super self1) in
  let due := negb (is_empty raw)
             && (counter mod length (files (super self1)) =? 0) in
  next_shard (super self') = counter /\
  files (super self') =
    (if due then shuffle counter (files (super self1))
     else files (super self1)) /\
  seeds log = (if due then [counter] else []).
Proof.
  unfold Dataloading.repack. destruct raw as [|t raw].
  - intros E. injection E as <- <-. cbn. auto.
  - destruct (pack _ _ _ _ _) as [[[toks leftover] log2]|e] eqn:Ep;
      cbn [bind]; [|discriminate].
    intros E. injection E as <- <-.
    apply pack_seeds in Ep. rewrite seeds_app, Ep, app_nil_r.
    cbn [is_empty negb andb].
    destruct (_ =? 0); cbn; auto.
Qed.

(** On a non-empty combined buffer the new working buffer and the new
    leftover are those of [pack], at the loader's own ids and row width. *)
Lemma padded_advance_packs (self self1 self' : padded) (raw : list Z)
      (log : list effect) :
  gather self = Ok (raw, self1) ->
  raw <> [] ->
  padded_advance self = Ok (self', log) ->
  exists log2,
    pack (cls_id self) (eos_id self) (pad_id self)
         (local_batch_size (super self)) raw
    = Ok (tokens (super self'), _leftover_tokens self', log2).
Proof.
  intros Hg Hne. unfold Dataloading.padded_advance. rewrite Hg. cbn [bind].
  assert (Hids : cls_id self1 = cls_id self /\ eos_id self1 = eos_id self /\
                 pad_id self1 = pad_id self /\
                 local_batch_size (super self1) = local_batch_size (super self)).
  { revert Hg. unfold Dataloading.gather. cbn [files set_pos next_shard].
    destruct (_ =? 0); [discriminate|].
    destruct (_ <? _).
    - destruct (nth_error _ _); [|discriminate].
      destruct (_load_data_shard fs p); cbn [bind]; [|discriminate].
      intros E. injection E as _ <-. auto.
    - intros E. injection E as _ <-. auto. }
  destruct Hids as (Hc & He & Hp & Hl).
  unfold Dataloading.repack. destruct raw as [|t raw]; [congruence|].
  rewrite Hc, He, Hp, Hl.
  destruct (pack _ _ _ _ _) as [[[toks leftover] log2]|e]; cbn [bind];
    [|discriminate].
  intros E. injection E as <- _. exists log2.
  destruct (_ =? 0); reflexivity.
Qed.

(** On a non-empty combined buffer without EOS, [advance] raises. *)
Lemma padded_advance_without_eos (self self1 : padded) (raw : list Z) :
  gather self = Ok (raw, self1) ->
  raw <> [] ->
  nonzero_eq (eos_id self1) 0 raw = [] ->
  padded_advance self = Raise (UnboundLocalError "curr_eos").
Proof.
  intros Hg Hne Heos. unfold Dataloading.padded_advance. rewrite Hg.
  cbn [bind]. unfold Dataloading.repack.
  destruct raw as [|t raw]; [congruence|].
  rewrite pack_without_eos by exact Heos. reflexivity.
Qed.

(** C8, as the code has it.  When [advance] returns, the file list is
    reshuffled exactly when the combined buffer is not empty and the
    shard counter (after the step that loads a shard) is a multiple of
    the file count; the generator is then reseeded once, with the
    counter, and the new order is the seeded shuffle of the old one.
    The new order is a function of the seed and the old order alone:
    any other loader that holds the same file list and reaches the
    same counter, with a buffer that is empty or not alike, ends with
    the same file order and the same reseeding. *)
Theorem reshuffle_gated_and_deterministic
        (self self1 self' : padded) (raw : list Z) (log : list effect) :
  gather self = Ok (raw, self1) ->
  padded_advance self = Ok (self', log) ->
  let counter := next_shard (super self1) in
  let due := negb (is_empty raw)
             && (counter mod length (files (super self)) =? 0) in
  files (super self') =
    (if due then shuffle counter (files (super self))
     else files (super self)) /\
  seeds log = (if due then [counter] else []) /\
  (forall other other1 other' raw' log',
     gather other = Ok (raw', other1) ->
     padded_advance other = Ok (other', log') ->
     files (super other) = files (super self) ->
     next_shard (super other1) = counter ->
     is_empty raw' = is_empty raw ->
     files (super other') = files (super self') /\ seeds log' = seeds log).
Proof.
  intros Hg Ha counter due.
  assert (Hstep : forall a a1 a' r l,
    gather a = Ok (r, a1) -> padded_advance a = Ok (a', l) ->
    let c := next_shard (super a1) in
    let d := negb (is_empty r) && (c mod length (files (super a)) =? 0) in
    files (super a') = (if d then shuffle c (files (super a))
                        else files (super a)) /\
    seeds l = (if d then [c] else [])).
  { intros a a1 a' r l Hga Haa.
    unfold Dataloading.padded_advance in Haa. rewrite Hga in Haa.
    cbn [bind] in Haa.
    pose proof Hga as Hf. apply gather_files in Hf as (Hf & _ & _).
    apply repack_files in Haa as (_ & Hfiles & Hseeds).
    cbv zeta in Hfiles, Hseeds. rewrite Hf in Hfiles, Hseeds.
    cbv zeta. auto. }
  destruct (Hstep _ _ _ _ _ Hg Ha) as [Hfiles Hseeds].
  split; [exact Hfiles|]. split; [exact Hseeds|].
  intros other other1 other' raw' log' Hg' Ha' Hsame Hcounter Hempty.
  destruct (Hstep _ _ _ _ _ Hg' Ha') as [Hfiles' Hseeds'].
  cbv zeta in Hfiles, Hseeds, Hfiles', Hseeds'.
  rewrite Hcounter, Hsame, Hempty in Hfiles', Hseeds'.
  fold counter in Hfiles, Hseeds, Hfiles', Hseeds'.
  split; congruence.
Qed.

End PaddedProperties.

Lemma reshuffle_gated_and_deterministic_witness :
  gather (single_file fragment_shard) (fragment_loader 0 [] [])
  = Ok ([0; 7; 2; 0; 5]%Z, fragment_loader 1 [] []) /\
  padded_advance (single_file fragment_shard) shuffle_singleton
                 (fragment_loader 0 [] [])
  = Ok (fragment_loader 1 [0; 7; 2]%Z [0; 5]%Z, [SeedShuffle 1]) /\
  seeds [SeedShuffle 1] = [1].
Proof.
  assert (Hg : gather (single_file fragment_shard) (fragment_loader 0 [] [])
               = Ok ([0; 7; 2; 0; 5]%Z, fragment_loader 1 [] []))
    by (vm_compute; reflexivity).
  assert (Ha : padded_advance (single_file fragment_shard) shuffle_singleton
                              (fragment_loader 0 [] [])
               = Ok (fragment_loader 1 [0; 7; 2]%Z [0; 5]%Z, [SeedShuffle 1]))
    by (vm_compute; reflexivity).
  split; [exact Hg|]. split; [exact Ha|].
  exact (proj1 (proj2 (@reshuffle_gated_and_deterministic
                         (single_file fragment_shard) shuffle_singleton
                         _ _ _ _ _ Hg Ha))).
Defined.

(** C8, as stated, fails at the end of the stream: the shard counter, 2,
    is a multiple of the file count, 2, and [advance] returns before the
    reshuffle because the combined buffer is empty.  The generator is not
    reseeded and the file list stays as it was. *)
Lemma no_reshuffle_on_empty_buffer :
  next_shard (super drained) mod length (files (super drained)) = 0 /\
  padded_advance (fun _ => None) shuffle_reverse drained = Ok (drained, []) /\
  shuffle_reverse 2 (files (super drained)) <> files (super drained).
Proof.
  split; [reflexivity|]. split; [reflexivity|]. vm_compute. discriminate.
Qed.

(** * Further properties of the shard files *)

Section ShardFileExtras.

Lemma tobytes_i32_bytes (ws : list Z) :
  Forall Bytes.is_byte (Bytes.tobytes_i32 ws).
Proof.
  induction ws as [|w ws IH]; cbn; [constructor|].
  repeat (constructor; [unfold Bytes.is_byte; apply Z.mod_pos_bound; lia|]).
  exact IH.
Qed.

Lemma words_i32_app (n : nat) (bs extra : list Z) :
  4 * n <= length bs ->
  Bytes.words_i32 n (bs ++ extra) = Bytes.words_i32 n bs.
Proof.
  revert bs. induction n as [|n IH]; intros bs Hlen; [reflexivity|].
  destruct bs as [|b0 [|b1 [|b2 [|b3 bs]]]]; cbn in Hlen; try lia.
  cbn. rewrite IH by lia. reflexivity.
Qed.

(** The bytes of a token array whose tokens fit one byte: every token is
    followed by a zero byte. *)
Lemma tobytes_u16_small (toks : list Z) :
  Forall Bytes.is_byte toks ->
  Bytes.tobytes_u16 toks = flat_map (fun t => [t; 0%Z]) toks.
Proof.
  induction 1 as [|t toks Ht _ IH]; cbn; [reflexivity|].
  unfold Bytes.is_byte in Ht.
  rewrite Z.mod_small, Z.div_small by lia.
  rewrite Zmod_0_l. f_equal. f_equal. exact IH.
Qed.

(** The writer accepts exactly the arrays of fewer than 2^31 tokens.  The
    file it writes is 1024 + 2N bytes long, holds bytes only, and its first
    256 words, read the way the reader reads them, are the magic number,
    the version, the token count and 253 zeros. *)
Theorem write_datafile_layout (toks : list Z) :
  match write_datafile toks with
  | Ok file =>
      (Z.of_nat (length toks) < 2 ^ 31)%Z /\
      length file = 1024 + 2 * length toks /\
      Forall Bytes.is_byte file /\
      from_file_int32 file 256
      = Ok ([20240520; 1; Z.of_nat (length toks)]%Z ++ repeat 0%Z 253)
  | Raise e =>
      (2 ^ 31 <= Z.of_nat (length toks))%Z /\
      e = AssertionError "token count too large"
  end.
Proof.
  unfold write_datafile.
  destruct (Z.ltb_spec (Z.of_nat (length toks)) (2 ^ 31)) as [Hlt|Hge].
  - split; [exact Hlt|]. split; [|split].
    + apply write_datafile_size. apply write_datafile_ok. exact Hlt.
    + apply Forall_app. split;
        [apply tobytes_i32_bytes | apply tobytes_u16_bytes].
    + apply from_file_header. exact Hlt.
  - split; [exact Hge | reflexivity].
Qed.

Variable fs : filesystem.

(** The reader accepts every file the writer made, and returns as many
    units as there were tokens: the first half of the payload's bytes.
    When every token fits one byte, these are the first tokens of the
    array, each followed by a zero. *)
Theorem load_of_written_file (name : path) (toks file : list Z) :
  write_datafile toks = Ok file ->
  fs name = Some file ->
  _load_data_shard fs name
  = Ok (firstn (length toks) (Bytes.tobytes_u16 toks)) /\
  (Forall Bytes.is_byte toks ->
   _load_data_shard fs name
   = Ok (firstn (length toks) (flat_map (fun t => [t; 0%Z]) toks))).
Proof.
  intros Hw Hfs. unfold _load_data_shard. rewrite Hfs.
  apply load_bytes_write_datafile in Hw. rewrite Hw.
  split; [reflexivity|].
  intros Hsmall. rewrite tobytes_u16_small by exact Hsmall. reflexivity.
Qed.

(** The reader never looks past the declared count: bytes appended to a
    file it accepts do not change what it returns. *)
Theorem load_ignores_trailing_bytes (name name' : path)
        (bytes extra toks : list Z) :
  fs name = Some bytes ->
  fs name' = Some (bytes ++ extra) ->
  _load_data_shard fs name = Ok toks ->
  _load_data_shard fs name' = Ok toks.
Proof.
  unfold _load_data_shard. intros -> -> Hload.
  destruct (Nat.lt_ge_cases (length bytes) 1024) as [Hshort|Hlen].
  { rewrite load_bytes_short in Hload by exact Hshort. discriminate. }
  rewrite load_bytes_unfold in Hload by exact Hlen.
  rewrite load_bytes_unfold by (rewrite length_app; lia).
  cbv zeta in *. rewrite words_i32_app by (cbn; lia).
  destruct (negb _); [discriminate|].
  destruct (negb _); [discriminate|].
  destruct (Z.ltb_spec (nth 2 (Bytes.words_i32 256 bytes) 0%Z) 0);
    [discriminate|].
  set (declared := nth 2 (Bytes.words_i32 256 bytes) 0%Z) in *.
  destruct (Z.eqb_spec
              (Z.of_nat (length (firstn (Z.to_nat declared) (skipn 1024 bytes))))
              declared) as [Hc|Hc]; [|discriminate].
  rewrite length_firstn, length_skipn in Hc.
  assert (Hfit : Z.to_nat declared <= length bytes - 1024) by lia.
  assert (Hsame : firstn (Z.to_nat declared) (skipn 1024 (bytes ++ extra))
                  = firstn (Z.to_nat declared) (skipn 1024 bytes)).
  { rewrite skipn_app, firstn_app, length_skipn.
    replace (Z.to_nat declared - (length bytes - 1024)) with 0 by lia.
    replace (1024 - length bytes) with 0 by lia.
    cbn [firstn skipn]. apply app_nil_r. }
  rewrite Hsame.
  destruct (Z.eqb_spec
              (Z.of_nat (length (firstn (Z.to_nat declared) (skipn 1024 bytes))))
              declared) as [_|Hc'].
  - exact Hload.
  - rewrite length_firstn, length_skipn in Hc'. lia.
Qed.

End ShardFileExtras.

Lemma load_of_written_file_witness :
  write_datafile [0; 20; 2]%Z = Ok cls_m_eos_shard /\
  single_file cls_m_eos_shard "shard.bin"%string = Some cls_m_eos_shard /\
  _load_data_shard (single_file cls_m_eos_shard) "shard.bin"%string
  = Ok [0; 0; 20]%Z.
Proof.
  assert (Hw : write_datafile [0; 20; 2]%Z = Ok cls_m_eos_shard) by reflexivity.
  assert (Hfs : single_file cls_m_eos_shard "shard.bin"%string
                = Some cls_m_eos_shard) by reflexivity.
  split; [exact Hw|]. split; [exact Hfs|].
  exact (proj1 (@load_of_written_file (single_file cls_m_eos_shard)
                  "shard.bin"%string _ _ Hw Hfs)).
Defined.

Lemma load_ignores_trailing_bytes_witness :
  files_of [("a.bin"%string, three_unit_shard);
            ("b.bin"%string, three_unit_shard ++ [0; 5; 2]%Z)]
           "a.bin"%string = Some three_unit_shard /\
  files_of [("a.bin"%string, three_unit_shard);
            ("b.bin"%string, three_unit_shard ++ [0; 5; 2]%Z)]
           "b.bin"%string = Some (three_unit_shard ++ [0; 5; 2]%Z) /\
  _load_data_shard
    (files_of [("a.bin"%string, three_unit_shard);
               ("b.bin"%string, three_unit_shard ++ [0; 5; 2]%Z)])
    "a.bin"%string = Ok [0; 7; 2]%Z /\
  _load_data_shard
    (files_of [("a.bin"%string, three_unit_shard);
               ("b.bin"%string, three_unit_shard ++ [0; 5; 2]%Z)])
    "b.bin"%string = Ok [0; 7; 2]%Z.
Proof.
  set (fs := files_of [("a.bin"%string, three_unit_shard);
                       ("b.bin"%string, three_unit_shard ++ [0; 5; 2]%Z)]).
  assert (Ha : fs "a.bin"%string = Some three_unit_shard) by reflexivity.
  assert (Hb : fs "b.bin"%string = Some (three_unit_shard ++ [0; 5; 2]%Z))
    by reflexivity.
  assert (Hl : _load_data_shard fs "a.bin"%string = Ok [0; 7; 2]%Z)
    by (vm_compute; reflexivity).
  split; [exact Ha|]. split; [exact Hb|]. split; [exact Hl|].
  exact (@load_ignores_trailing_bytes fs _ _ _ _ _ Ha Hb Hl).
Defined.

(** * Further properties of the tokenisation driver *)

Section DriverExtras.
Variable shard_size : nat.

Lemma feed_succeeds (w : writer) (corpus tokens : list Z) :
  writer_inv shard_size w corpus ->
  bar_or_room shard_size w ->
  (Z.of_nat shard_size < 2 ^ 31)%Z ->
  2 * length tokens <= shard_size ->
  exists w', feed shard_size w tokens = Ok w' /\ bar_or_room shard_size w'.
Proof.
  intros [Hbuf Hcnt Hbar _ _ _] Hroom Hcap Hhalf. unfold feed.
  destruct (Nat.ltb_spec (token_count w + length tokens) shard_size)
    as [Hlt|Hge].
  - rewrite assign_slice_within by lia. cbn [bind].
    eexists. split; [reflexivity|].
    unfold bar_or_room. cbn. discriminate.
  - destruct (progress_bar w) as [done|] eqn:Epb.
    2:{ specialize (Hroom Epb). lia. }
    assert (Hlt : token_count w < shard_size) by (apply Hbar; congruence).
    set (remainder := shard_size - token_count w).
    assert (Hrem : length (firstn remainder tokens) = remainder)
      by (rewrite length_firstn; subst remainder; lia).
    assert (Hleft : length (skipn remainder tokens) = length tokens - remainder)
      by apply length_skipn.
    set (buf1 := firstn (token_count w) (all_tokens_np w)
                 ++ firstn remainder tokens).
    assert (Hbuf1 : length buf1 = shard_size).
    { subst buf1. rewrite length_app, Hrem, length_firstn.
      subst remainder. lia. }
    assert (E1 : assign_slice (all_tokens_np w) (token_count w)
                   (token_count w + remainder) (firstn remainder tokens)
                 = Ok buf1).
    { rewrite <- Hrem at 1.
      rewrite assign_slice_within by (rewrite Hrem; subst remainder; lia).
      rewrite Hrem.
      replace (token_count w + remainder) with shard_size
        by (subst remainder; lia).
      rewrite skipn_all2 by lia. rewrite app_nil_r. reflexivity. }
    assert (E2 : assign_slice buf1 0 (length tokens - remainder)
                              (skipn remainder tokens)
                 = Ok (skipn remainder tokens
                       ++ skipn (length tokens - remainder) buf1)).
    { rewrite <- Hleft.
      change (length (skipn remainder tokens))
        with (0 + length (skipn remainder tokens)) at 1.
      rewrite (assign_slice_within buf1 (skipn remainder tokens) 0)
        by (cbn; rewrite Hleft, Hbuf1; subst remainder; lia).
      reflexivity. }
    rewrite E1. cbn [bind].
    rewrite write_datafile_ok by (rewrite Hbuf1; exact Hcap).
    cbn [bind]. rewrite E2. cbn [bind].
    eexists. split; [reflexivity|].
    unfold bar_or_room. cbn. intros _. subst remainder. lia.
Qed.

Lemma feed_all_succeeds (fw : list (list Z)) (w : writer) (corpus : list Z) :
  writer_inv shard_size w corpus ->
  bar_or_room shard_size w ->
  (Z.of_nat shard_size < 2 ^ 31)%Z ->
  Forall Bytes.is_u16 corpus ->
  Forall (Forall Bytes.is_u16) fw ->
  Forall (fun doc => 2 * length doc <= shard_size) fw ->
  exists w', feed_all shard_size w fw = Ok w' /\ bar_or_room shard_size w'.
Proof.
  revert w corpus.
  induction fw as [|tokens fw IH]; intros w corpus Hinv Hroom Hcap Hc Hu Hhalf.
  - exists w. split; [reflexivity | exact Hroom].
  - inversion Hu as [|? ? Hut Hurest]; subst.
    inversion Hhalf as [|? ? Hht Hhrest]; subst.
    destruct (feed_succeeds tokens Hinv Hroom Hcap Hht) as (w1 & E1 & Hroom1).
    cbn [feed_all]. rewrite E1. cbn [bind].
    apply IH with (corpus := corpus ++ tokens); auto.
    + eapply feed_inv; eauto.
    + apply Forall_app. split; assumption.
Qed.

Lemma full_shards_lengths (shards : list (nat * list Z)) :
  Forall (fun f => length (payload (snd f)) = shard_size) shards ->
  map (fun f => length (payload (snd f))) shards
  = repeat shard_size (length shards) /\
  length (shard_tokens shards) = length shards * shard_size.
Proof.
  induction 1 as [|f shards Hf _ [IHm IHl]]; [split; reflexivity|].
  split.
  - cbn [map length repeat]. rewrite Hf, IHm. reflexivity.
  - unfold shard_tokens in *. cbn [map concat length].
    rewrite length_app, Hf, IHl. reflexivity.
Qed.

(** When no document is longer than half a shard (and the shard size is
    positive and below 2^31), the driver runs to completion.  The shard
    files it writes are numbered 0, 1, 2, ... and hold, in that order and
    read as two-byte units, exactly the tokens of the documents; every
    file but the last holds [shard_size] tokens and the last one holds
    the remainder, no file being written for an empty remainder. *)
Theorem tokenize_fw_small_documents (empty : list Z) (fw : list (list Z)) :
  length empty = shard_size ->
  0 < shard_size ->
  (Z.of_nat shard_size < 2 ^ 31)%Z ->
  Forall (Forall Bytes.is_u16) fw ->
  Forall (fun doc => 2 * length doc <= shard_size) fw ->
  let total := length (concat fw) in
  exists shards,
    tokenize_fw shard_size empty fw = Ok shards /\
    shard_tokens shards = concat fw /\
    map fst shards = seq 0 (length shards) /\
    map (fun f => length (payload (snd f))) shards
    = repeat shard_size (total / shard_size)
      ++ (if total mod shard_size =? 0 then [] else [total mod shard_size]).
Proof.
  intros Hempty Hpos Hcap Hu Hhalf total.
  assert (Hroom0 : bar_or_room shard_size (mkWriter 0 empty 0 None []))
    by (unfold bar_or_room; cbn; lia).
  pose proof (@writer_inv_init shard_size empty Hempty) as Hinit.
  destruct (feed_all_succeeds Hinit Hroom0 Hcap (Forall_nil _) Hu Hhalf)
    as (w & Efeed & Hroom).
  assert (Hinv : writer_inv shard_size w ([] ++ concat fw)).
  { eapply feed_all_inv; [exact Hinit | constructor | exact Hu | exact Efeed]. }
  cbn [app] in Hinv. destruct Hinv as [Hbuf Hcnt Hbar Hidx Hfull Htok].
  assert (Hlt : token_count w < shard_size).
  { destruct (progress_bar w) eqn:Epb.
    - apply Hbar. congruence.
    - specialize (Hroom Epb). lia. }
  destruct (full_shards_lengths Hfull) as [Hlens Hlen].
  assert (Htotal : total = length (written w) * shard_size + token_count w).
  { subst total. rewrite <- Htok, length_app, Hlen, length_firstn. lia. }
  assert (Hdiv : total / shard_size = length (written w)).
  { symmetry. apply Nat.div_unique with (r := token_count w); lia. }
  assert (Hmod : total mod shard_size = token_count w).
  { symmetry. apply Nat.mod_unique with (q := length (written w)); lia. }
  set (shards :=
         if token_count w =? 0 then written w
         else written w
              ++ [(shard_index w,
                   Bytes.tobytes_i32 (header (token_count w))
                   ++ Bytes.tobytes_u16
                        (firstn (token_count w) (all_tokens_np w)))]).
  assert (Erun : tokenize_fw shard_size empty fw = Ok shards).
  { unfold tokenize_fw. rewrite Efeed. cbn [bind]. subst shards.
    destruct (token_count w =? 0); [reflexivity|].
    rewrite write_datafile_ok by (rewrite length_firstn; lia).
    cbn [bind]. rewrite length_firstn, Nat.min_l by lia. reflexivity. }
  destruct (@tokenize_fw_complete shard_size empty fw shards Hempty Hu Erun)
    as [Hcorpus Hindices].
  exists shards. split; [exact Erun|].
  split; [exact Hcorpus|]. split; [exact Hindices|].
  subst shards.
  rewrite Hdiv, Hmod.
  destruct (Nat.eqb_spec (token_count w) 0) as [Hz|Hnz].
  - rewrite app_nil_r. exact Hlens.
  - rewrite map_app, Hlens. cbn [map snd]. f_equal. f_equal.
    assert (Hlast : Forall Bytes.is_u16 (firstn (token_count w) (all_tokens_np w))).
    { assert (Hall : Forall Bytes.is_u16 (concat fw)).
      { clear -Hu. induction Hu; cbn; [constructor|].
        apply Forall_app; split; assumption. }
      rewrite <- Htok in Hall. apply Forall_app in Hall. tauto. }
    rewrite (@payload_write_datafile
               (firstn (token_count w) (all_tokens_np w))).
    + rewrite length_firstn. lia.
    + exact Hlast.
    + rewrite write_datafile_ok by (rewrite length_firstn; lia).
      rewrite length_firstn, Nat.min_l by lia. reflexivity.
Qed.

(** A first document as long as a shard, or longer, makes the driver
    raise before any file is written: the shard fills while there is no
    progress bar yet. *)
Theorem tokenize_fw_first_document_fills
        (empty doc : list Z) (rest : list (list Z)) :
  shard_size <= length doc ->
  tokenize_fw shard_size empty (doc :: rest)
  = Raise (AttributeError "'NoneType' object has no attribute 'update'").
Proof.
  intros Hlong. unfold tokenize_fw. cbn [feed_all]. unfold feed.
  cbn [token_count progress_bar Nat.add].
  destruct (Nat.ltb_spec (length doc) shard_size); [lia|]. reflexivity.
Qed.

End DriverExtras.

Lemma tokenize_fw_small_documents_witness :
  length (repeat 0%Z 10) = 10 /\
  0 < 10 /\
  (Z.of_nat 10 < 2 ^ 31)%Z /\
  Forall (Forall Bytes.is_u16) four_documents /\
  Forall (fun doc => 2 * length doc <= 10) four_documents /\
  exists shards,
    tokenize_fw 10 (repeat 0%Z 10) four_documents = Ok shards /\
    shard_tokens shards = concat four_documents /\
    map fst shards = seq 0 (length shards) /\
    map (fun f => length (payload (snd f))) shards = [10; 3].
Proof.
  assert (H1 : length (repeat 0%Z 10) = 10) by reflexivity.
  assert (H2 : 0 < 10) by lia.
  assert (H3 : (Z.of_nat 10 < 2 ^ 31)%Z) by reflexivity.
  assert (H4 : Forall (Forall Bytes.is_u16) four_documents)
    by (repeat constructor; unfold Bytes.is_u16; lia).
  assert (H5 : Forall (fun doc => 2 * length doc <= 10) four_documents)
    by (repeat constructor; cbn; lia).
  split; [exact H1|]. split; [exact H2|]. split; [exact H3|].
  split; [exact H4|]. split; [exact H5|].
  exact (@tokenize_fw_small_documents 10 (repeat 0%Z 10) four_documents
           H1 H2 H3 H4 H5).
Defined.

Lemma tokenize_fw_first_document_fills_witness :
  10 <= length (repeat 5%Z 12) /\
  tokenize_fw 10 (repeat 0%Z 10) [repeat 5%Z 12; [6%Z]]
  = Raise (AttributeError "'NoneType' object has no attribute 'update'").
Proof.
  assert (H : 10 <= length (repeat 5%Z 12)) by (cbn; lia).
  split; [exact H|].
  exact (@tokenize_fw_first_document_fills 10 (repeat 0%Z 10)
           (repeat 5%Z 12) [[6%Z]] H).
Defined.

(** * Further properties of the single-stream loader *)

Section SingleStreamExtras.
Variable fs : filesystem.

(** Every outcome of the constructor.  It returns only for a positive
    world size that divides the batch size and a file list whose first
    file loads; the loader then splits the batch evenly among the ranks,
    holds the first file's units with its cursor at 0, and points at the
    second file (the first again when there is only one).  Otherwise it
    raises: on a zero world size, on a batch size that is not a multiple
    of the world size, on an empty file list, or with whatever the reader
    raised on the first file. *)
Theorem init_outcomes (sorted_files : list path) (batch rank_ world : nat) :
  match init fs sorted_files batch rank_ world with
  | Ok (self, log) =>
      world <> 0 /\
      local_batch_size self * world = batch /\
      world_size self = world /\ rank self = rank_ /\
      batch_size self = batch /\ files self = sorted_files /\
      pos self = 0 /\ log = [] /\
      next_shard self = 1 mod length sorted_files /\
      exists first rest,
        sorted_files = first :: rest /\
        _load_data_shard fs first = Ok (tokens self)
  | Raise e =>
      (world = 0 /\ e = ZeroDivisionError) \/
      (world <> 0 /\ batch mod world <> 0 /\ e = AssertionError "") \/
      (world <> 0 /\ batch mod world = 0 /\ sorted_files = [] /\
       e = IndexError "list index out of range") \/
      (exists first rest,
         sorted_files = first :: rest /\ _load_data_shard fs first = Raise e)
  end.
Proof.
  unfold init, new_loader.
  destruct (Nat.eqb_spec world 0) as [Hz|Hnz]; cbn [bind]; [auto|].
  destruct (Nat.eqb_spec (batch mod world) 0) as [Hdiv|Hndiv]; cbn [negb bind];
    [|auto].
  unfold reset. cbn [advance base with_base DistributedDataLoader].
  unfold base_advance.
  cbn [set_pos set_next_shard files next_shard nth_error].
  destruct sorted_files as [|first rest]; cbn [nth_error].
  { right. right. left. auto. }
  destruct (_load_data_shard fs first) as [toks|e] eqn:Eload; cbn [bind].
  - cbn [set_tokens set_next_shard set_pos local_batch_size world_size rank
         batch_size files pos next_shard tokens].
    repeat split; try assumption.
    + pose proof (Nat.div_mod_eq batch world). rewrite Hdiv in *. lia.
    + exists first, rest. auto.
  - right. right. right. exists first, rest. auto.
Qed.

(** The files are visited cyclically, in list order: when every file
    loads, [k + 1] calls of [advance] leave the loader on the file [k]
    places after the one it pointed at, wrapping around, with its cursor
    at 0 and pointing at the file after that. *)
Theorem advance_cycles (content : nat -> list Z) (self : loader) (k : nat) :
  next_shard self < length (files self) ->
  (forall i, i < length (files self) ->
     exists name, nth_error (files self) i = Some name /\
                  _load_data_shard fs name = Ok (content i)) ->
  exists self',
    @advance_times _ (DistributedDataLoader fs) (S k) self = Ok self' /\
    tokens self' = content ((next_shard self + k) mod length (files self)) /\
    next_shard self' = (next_shard self + S k) mod length (files self) /\
    pos self' = 0 /\ files self' = files self.
Proof.
  revert self. induction k as [|k IH]; intros self Hlt Hload.
  - destruct (Hload _ Hlt) as (name & Hname & Hcontent).
    cbn [advance_times advance DistributedDataLoader]. unfold base_advance.
    cbn [set_pos files next_shard]. rewrite Hname, Hcontent. cbn [bind].
    eexists. split; [reflexivity|].
    cbn [set_next_shard set_tokens tokens next_shard pos files].
    rewrite Nat.add_0_r, Nat.mod_small by exact Hlt.
    rewrite Nat.add_1_r. auto.
  - destruct (Hload _ Hlt) as (name & Hname & Hcontent).
    change (@advance_times _ (DistributedDataLoader fs) (S (S k)) self)
      with ('(self', _) <- base_advance fs self ;;
            @advance_times _ (DistributedDataLoader fs) (S k) self').
    unfold base_advance at 1.
    cbn [set_pos files next_shard]. rewrite Hname, Hcontent. cbn [bind].
    set (self1 := set_next_shard _ _).
    assert (Hfiles1 : files self1 = files self) by reflexivity.
    assert (Hnext1 : next_shard self1
                     = S (next_shard self) mod length (files self))
      by reflexivity.
    destruct (IH self1) as (self' & E & Htok & Hnext & Hpos & Hfiles).
    + rewrite Hfiles1, Hnext1. apply Nat.mod_upper_bound. lia.
    + rewrite Hfiles1. exact Hload.
    + exists self'. split; [exact E|].
      rewrite Hfiles1, Hnext1 in *.
      split; [|split; [|split]].
      * rewrite Htok. f_equal.
        rewrite Nat.Div0.add_mod_idemp_l. f_equal. lia.
      * rewrite Hnext.
        rewrite Nat.Div0.add_mod_idemp_l. f_equal. lia.
      * exact Hpos.
      * exact Hfiles.
Qed.

End SingleStreamExtras.

Lemma advance_cycles_witness :
  exists self',
    @advance_times _ (DistributedDataLoader
                        (files_of [("a.bin"%string, three_unit_shard);
                                   ("b.bin"%string, eight_unit_shard)]))
                   3 (mkLoader 1 0 ["a.bin"%string; "b.bin"%string] 4 4 0 0 [])
    = Ok self' /\
    tokens self' = [0; 7; 2]%Z /\ next_shard self' = 1.
Proof.
  set (fs := files_of [("a.bin"%string, three_unit_shard);
                       ("b.bin"%string, eight_unit_shard)]).
  set (self := mkLoader 1 0 ["a.bin"%string; "b.bin"%string] 4 4 0 0 []).
  set (content := fun i : nat =>
                    if i =? 0 then [0; 7; 2]%Z
                    else [0; 5; 6; 2; 0; 7; 8; 2]%Z).
  assert (Hlt : next_shard self < length (files self)) by (cbn; lia).
  assert (Hload : forall i, i < length (files self) ->
            exists name, nth_error (files self) i = Some name /\
                         _load_data_shard fs name = Ok (content i)).
  { intros [|[|i]] Hi.
    - exists "a.bin"%string. split; [reflexivity | vm_compute; reflexivity].
    - exists "b.bin"%string. split; [reflexivity | vm_compute; reflexivity].
    - cbn in Hi. lia. }
  destruct (@advance_cycles fs content self 2 Hlt Hload)
    as (self' & E & Htok & Hnext & _).
  exists self'. split; [exact E|]. split; [exact Htok | exact Hnext].
Defined.

(** * The ranks of one loader *)

Section ListSlices.
Context {A : Type}.

Lemma firstn_add (a b : nat) (l : list A) :
  firstn (a + b) l = firstn a l ++ firstn b (skipn a l).
Proof.
  revert l. induction a as [|a IH]; intros l; [reflexivity|].
  destruct l as [|x l]; cbn.
  - rewrite firstn_nil. reflexivity.
  - rewrite IH. reflexivity.
Qed.

Lemma skipn_add (a b : nat) (l : list A) :
  skipn (a + b) l = skipn b (skipn a l).
Proof.
  revert l. induction a as [|a IH]; intros l; [reflexivity|].
  destruct l as [|x l]; cbn; [rewrite skipn_nil; reflexivity | apply IH].
Qed.

(** Consecutive windows of one width, laid end to end, are one window. *)
Lemma windows_tile (width start n : nat) (l : list A) :
  concat (map (fun r => firstn width (skipn (start + r * width) l)) (seq 0 n))
  = firstn (n * width) (skipn start l).
Proof.
  induction n as [|n IH]; [reflexivity|].
  rewrite seq_S, map_app, concat_app, IH. cbn [map concat Nat.add].
  rewrite app_nil_r, skipn_add.
  replace (S n * width) with (n * width + width) by lia.
  rewrite firstn_add. reflexivity.
Qed.
End ListSlices.

Section Ranks.
Variable fs : filesystem.
Variable shuffle : nat -> list path -> list path.

Local Abbreviation next_batch :=
  (@next_batch _ (DistributedPaddedDataLoader fs shuffle)).
Local Abbreviation batches :=
  (@next_batches _ (DistributedPaddedDataLoader fs shuffle)).

Lemma next_batch_out (self self' : padded) (out : list Z) (log : list effect) :
  next_batch self = Ok (out, self', log) ->
  out = firstn (local_batch_size (super self))
               (skipn (pos (super self)
                       + rank (super self) * local_batch_size (super self))
                      (tokens (super self))).
Proof.
  unfold Dataloading.next_batch.
  cbn [base with_base advance DistributedPaddedDataLoader].
  destruct (_ <=? _).
  - destruct (padded_advance fs shuffle _) as [[s l]|e]; cbn [bind];
      [|discriminate].
    intros E. injection E as <- _ _. reflexivity.
  - intros E. injection E as <- _ _. reflexivity.
Qed.

(** The batches the ranks of one step read lie end to end: put together
    in rank order they are the part of the working buffer from the cursor
    on, [world_size * local_batch_size] tokens long (less where the buffer
    ends), with no token read twice and none skipped. *)
Theorem rank_batches_tile (self : padded) (out : nat -> list Z) :
  (forall r, r < world_size (super self) ->
     exists self' log, next_batch (with_rank r self) = Ok (out r, self', log)) ->
  concat (map out (seq 0 (world_size (super self))))
  = slice (tokens (super self)) (pos (super self))
          (pos (super self)
           + world_size (super self) * local_batch_size (super self)).
Proof.
  intros Hranks.
  assert (Hout : forall r, r < world_size (super self) ->
            out r = firstn (local_batch_size (super self))
                           (skipn (pos (super self)
                                   + r * local_batch_size (super self))
                                  (tokens (super self)))).
  { intros r Hr. destruct (Hranks r Hr) as (s & l & E).
    apply next_batch_out in E. exact E. }
  unfold slice.
  replace (pos (super self)
           + world_size (super self) * local_batch_size (super self)
           - pos (super self))
    with (world_size (super self) * local_batch_size (super self)) by lia.
  rewrite <- windows_tile. f_equal.
  apply map_ext_in. intros r Hr. apply in_seq in Hr. apply Hout. lia.
Qed.

Lemma gather_with_rank (r : nat) (self : padded) :
  gather fs (with_rank r self)
  = '(raw, self1) <- gather fs self ;; Ok (raw, with_rank r self1).
Proof.
  unfold gather, with_rank.
  cbn [super set_super set_rank set_pos files next_shard max_epochs
       _leftover_tokens].
  destruct (_ =? 0); [reflexivity|].
  destruct (_ <? _); [|reflexivity].
  destruct (nth_error _ _); [|reflexivity].
  destruct (_load_data_shard fs p); reflexivity.
Qed.

Lemma repack_with_rank (r : nat) (raw : list Z) (self : padded) :
  repack shuffle raw (with_rank r self)
  = '(self', log) <- repack shuffle raw self ;; Ok (with_rank r self', log).
Proof.
  unfold repack, with_rank. destruct raw as [|t raw]; [reflexivity|].
  cbn [super set_super set_rank files next_shard local_batch_size
       cls_id eos_id pad_id].
  destruct (pack _ _ _ _ _) as [[[toks leftover] log2]|e]; cbn [bind];
    [|reflexivity].
  destruct (_ =? 0); reflexivity.
Qed.

Lemma padded_advance_with_rank (r : nat) (self : padded) :
  padded_advance fs shuffle (with_rank r self)
  = '(self', log) <- padded_advance fs shuffle self ;; Ok (with_rank r self', log).
Proof.
  unfold padded_advance. rewrite gather_with_rank.
  destruct (gather fs self) as [[raw self1]|e]; cbn [bind]; [|reflexivity].
  apply repack_with_rank.
Qed.

(** The ranks move in lock-step: whatever [next_batch] does to the loader
    of one rank (staying on the buffer or advancing, reshuffling, warning,
    raising) it does to the loader of any other rank, the two differing in
    the batch they return only. *)
Theorem ranks_in_lock_step (r : nat) (self : padded) :
  match next_batch self with
  | Ok (_, self', log) =>
      exists out, next_batch (with_rank r self) = Ok (out, with_rank r self', log)
  | Raise e => next_batch (with_rank r self) = Raise e
  end.
Proof.
  unfold Dataloading.next_batch.
  cbn [base with_base advance DistributedPaddedDataLoader].
  change (super (with_rank r self)) with (set_rank r (super self)).
  cbn [set_rank tokens pos batch_size local_batch_size rank].
  destruct (_ <=? _).
  - change (set_super (set_pos (pos (super self) + batch_size (super self))
                               (set_rank r (super self)))
                      (with_rank r self))
      with (with_rank r
              (set_super (set_pos (pos (super self) + batch_size (super self))
                                  (super self)) self)).
    rewrite padded_advance_with_rank.
    destruct (padded_advance fs shuffle _) as [[s l]|e]; cbn [bind].
    + eexists. reflexivity.
    + reflexivity.
  - eexists. reflexivity.
Qed.

(** While the buffer reaches more than one batch past the calls, [k]
    calls of [next_batch] in a row never leave the buffer: the call
    number [j] returns this rank's window of the batch that starts
    [j * batch_size] past the cursor, and the cursor ends
    [k * batch_size] further on. *)
Theorem next_batches_consecutive (k : nat) (self : padded) :
  pos (super self) + (k + 1) * batch_size (super self)
  < length (tokens (super self)) ->
  batches k self
  = Ok (map (fun j =>
               firstn (local_batch_size (super self))
                      (skipn (pos (super self) + j * batch_size (super self)
                              + rank (super self) * local_batch_size (super self))
                             (tokens (super self))))
            (seq 0 k),
        set_super (set_pos (pos (super self) + k * batch_size (super self))
                           (super self)) self).
Proof.
  revert self. induction k as [|k IH]; intros self Hroom.
  - cbn. rewrite Nat.add_0_r. destruct self as [[] ? ? ? ? ?]. reflexivity.
  - cbn [next_batches].
    unfold Dataloading.next_batch at 1.
    cbn [base with_base advance DistributedPaddedDataLoader].
    destruct (Nat.leb_spec (length (tokens (super self)))
                (pos (super self) + batch_size (super self)
                 + batch_size (super self))); [nia|].
    cbn [bind].
    set (self1 := set_super _ self).
    rewrite (IH self1) by (subst self1; cbn; nia).
    cbn [bind]. subst self1.
    cbn [super set_super set_pos pos batch_size local_batch_size rank tokens].
    f_equal. f_equal.
    + cbn [seq map]. f_equal.
      * rewrite Nat.add_0_r. reflexivity.
      * rewrite <- seq_shift, map_map.
        apply map_ext. intros j. do 2 f_equal. nia.
    + unfold set_super, set_pos. cbn. f_equal. f_equal. nia.
Qed.

End Ranks.

Lemma rank_batches_tile_witness :
  (forall r, r < world_size (super two_rank_loader) ->
     exists self' log,
       @next_batch _ (DistributedPaddedDataLoader (single_file eight_unit_shard)
                                                  shuffle_singleton)
                   (with_rank r two_rank_loader)
       = Ok ((fun r => if r =? 0 then [0%Z] else [5%Z]) r, self', log)) /\
  concat (map (fun r => if r =? 0 then [0%Z] else [5%Z]) (seq 0 2))
  = [0; 5]%Z.
Proof.
  assert (H : forall r, r < world_size (super two_rank_loader) ->
     exists self' log,
       @next_batch _ (DistributedPaddedDataLoader (single_file eight_unit_shard)
                                                  shuffle_singleton)
                   (with_rank r two_rank_loader)
       = Ok ((fun r => if r =? 0 then [0%Z] else [5%Z]) r, self', log)).
  { intros [|[|r]] Hr.
    - do 2 eexists. vm_compute. reflexivity.
    - do 2 eexists. vm_compute. reflexivity.
    - cbn in Hr. lia. }
  split; [exact H|].
  exact (@rank_batches_tile (single_file eight_unit_shard) shuffle_singleton
           two_rank_loader _ H).
Defined.

Lemma next_batches_consecutive_witness :
  pos (super two_rank_loader) + (2 + 1) * batch_size (super two_rank_loader)
  < length (tokens (super two_rank_loader)) /\
  @next_batches _ (DistributedPaddedDataLoader (single_file eight_unit_shard)
                                               shuffle_singleton)
                2 two_rank_loader
  = Ok ([[0%Z]; [6%Z]],
        set_super (set_pos 4 (super two_rank_loader)) two_rank_loader).
Proof.
  assert (H : pos (super two_rank_loader)
              + (2 + 1) * batch_size (super two_rank_loader)
              < length (tokens (super two_rank_loader))) by (cbn; lia).
  split; [exact H|].
  exact (@next_batches_consecutive (single_file eight_unit_shard)
           shuffle_singleton 2 two_rank_loader H).
Defined.

(** * Further properties of the packing *)

Section PadInsertion.
Variable pad : Z.

Lemma pad_insertion_refl (l : list Z) : pad_insertion pad l l.
Proof. induction l; constructor; assumption. Qed.

Lemma pad_insertion_app (s1 o1 s2 o2 : list Z) :
  pad_insertion pad s1 o1 -> pad_insertion pad s2 o2 ->
  pad_insertion pad (s1 ++ s2) (o1 ++ o2).
Proof.
  intros H1 H2. induction H1; cbn; try constructor; assumption.
Qed.

(** Inserting PAD changes neither the tokens that are not PAD nor their
    order. *)
Lemma pad_insertion_filter (src out : list Z) :
  pad_insertion pad src out ->
  filter (fun t => negb (t =? pad)%Z) out
  = filter (fun t => negb (t =? pad)%Z) src.
Proof.
  induction 1 as [|x src out _ IH|src out _ IH]; cbn.
  - reflexivity.
  - rewrite IH. reflexivity.
  - rewrite Z.eqb_refl. exact IH.
Qed.

Lemma pad_insertion_length (src out : list Z) :
  pad_insertion pad src out -> length src <= length out.
Proof. induction 1; cbn; lia. Qed.

Lemma pad_insertion_behind_pads (n : nat) (src out : list Z) :
  pad_insertion pad src out -> pad_insertion pad src (repeat pad n ++ out).
Proof. intros H. induction n; cbn; [exact H | constructor; exact IHn]. Qed.

Lemma padded_pieces_insertion (width : nat) (pieces : list (list Z)) :
  pad_insertion pad (concat pieces)
    (concat (flat_map (fun piece => [piece; repeat pad (width - length piece)])
                      pieces)).
Proof.
  induction pieces as [|piece pieces IH]; cbn; [constructor|].
  apply pad_insertion_app; [apply pad_insertion_refl|].
  apply pad_insertion_behind_pads. exact IH.
Qed.
End PadInsertion.

Section PackingExtras.
Variables (cls eos pad : Z) (width : nat).

Local Abbreviation pack_sample := (pack_sample cls eos pad width).
Local Abbreviation pack_loop := (pack_loop cls eos pad width).
Local Abbreviation pack := (pack cls eos pad width).
Local Abbreviation p8 := (to_uint8 pad).

(** One iteration appends the sample with PAD inserted, and nothing
    else. *)
Lemma pack_sample_inserts (st st' : packing) (i : nat) (sample : list Z) :
  pack_sample st i sample = Ok st' ->
  exists added,
    concat (processed_chunks st') = concat (processed_chunks st) ++ added /\
    pad_insertion p8 sample added.
Proof.
  intros E.
  apply pack_sample_cases in E
    as (Hcurr & _ & [(Hroom & Hc & _)|[(Hfull & Hfits & Hc & _)
                                      |(Hbig & Hall & Hc & _)]]);
    rewrite Hc, concat_app.
  - exists sample. cbn [concat]. rewrite app_nil_r.
    split; [reflexivity | apply pad_insertion_refl].
  - eexists. split; [reflexivity|]. cbn [concat]. rewrite app_nil_r.
    apply pad_insertion_behind_pads, pad_insertion_refl.
  - destruct (@torch_chunk_pieces sample width) as [_ Hconcat]; try lia.
    eexists. split; [reflexivity|]. cbn [app concat].
    apply pad_insertion_behind_pads.
    rewrite <- Hconcat at 1. apply padded_pieces_insertion.
Qed.

Lemma increasing_from_weaken (a b : nat) (positions : list nat) :
  b <= a -> increasing_from a positions -> increasing_from b positions.
Proof.
  destruct positions as [|p rest]; cbn; [tauto|]. intros Hle [Hp Hrest].
  split; [lia | exact Hrest].
Qed.

Lemma nonzero_eq_increasing (raw : list Z) (i : nat) :
  increasing_from i (nonzero_eq eos i raw).
Proof.
  revert i. induction raw as [|t rest IH]; intros i; cbn [nonzero_eq];
    [exact I|].
  destruct (t =? to_uint8 eos)%Z.
  - cbn. split; [lia|]. rewrite Nat.add_1_r. apply IH.
  - apply increasing_from_weaken with (a := S i); [lia | apply IH].
Qed.

Lemma pack_loop_inserts (raw : list Z) (positions : list nat)
      (i prev : nat) (st st' : packing) :
  increasing_from prev positions ->
  pad_insertion p8 (firstn prev raw) (concat (processed_chunks st)) ->
  pack_loop raw i prev positions st = Ok st' ->
  pad_insertion p8
    (firstn (fold_left (fun _ curr_eos => curr_eos + 1) positions prev) raw)
    (concat (processed_chunks st')).
Proof.
  revert i prev st.
  induction positions as [|curr_eos rest IH]; intros i prev st Hinc Hins;
    cbn [Dataloading.pack_loop fold_left].
  - intros E. injection E as <-. exact Hins.
  - destruct Hinc as [Hle Hrest].
    destruct (pack_sample st i (slice raw prev (curr_eos + 1)))
      as [st1|e] eqn:E1; cbn [bind]; [|discriminate].
    apply pack_sample_inserts in E1 as (added & Hadded & Hsample).
    apply IH; [exact Hrest|].
    rewrite Hadded.
    replace (curr_eos + 1) with (prev + (curr_eos + 1 - prev)) at 1 by lia.
    rewrite firstn_add.
    apply pad_insertion_app; [exact Hins | exact Hsample].
Qed.

Lemma fold_left_last (positions : list nat) (p prev : nat) :
  fold_left (fun _ curr_eos => curr_eos + 1) (p :: positions) prev
  = last (p :: positions) 0 + 1.
Proof.
  revert p prev. induction positions as [|q rest IH]; intros p prev;
    [reflexivity|].
  change (fold_left _ (p :: q :: rest) prev)
    with (fold_left (fun _ curr_eos => curr_eos + 1) (q :: rest) (p + 1)).
  rewrite IH. reflexivity.
Qed.

Lemma pack_conserves (raw toks leftover : list Z) (log : list effect) :
  pack raw = Ok (toks, leftover, log) ->
  exists consumed,
    raw = consumed ++ leftover /\
    pad_insertion p8 consumed toks /\
    filter (fun t => negb (t =? p8)%Z) toks
    = filter (fun t => negb (t =? p8)%Z) consumed.
Proof.
  unfold Dataloading.pack.
  destruct (pack_loop raw 0 0 (nonzero_eq eos 0 raw) (mkPacking [] 0 []))
    as [st|e] eqn:Eloop; cbn [bind]; [|discriminate].
  pose proof (nonzero_eq_increasing raw 0) as Hinc.
  destruct (nonzero_eq eos 0 raw) as [|p positions] eqn:Epos; [discriminate|].
  intros E. injection E as <- <- _.
  apply pack_loop_inserts in Eloop; [|exact Hinc|constructor].
  rewrite fold_left_last in Eloop.
  exists (firstn (last (p :: positions) 0 + 1) raw).
  split; [symmetry; apply firstn_skipn|].
  split; [exact Eloop|].
  apply pad_insertion_filter. exact Eloop.
Qed.

(** Packing inserts PAD and does nothing else to the tokens.  Whenever a
    combined buffer is packed, it is the tokens consumed followed by the
    leftover, and the working buffer is the consumed tokens with PAD
    tokens inserted (PAD being the uint8 value of the PAD id, the id
    itself when it is of the uint8 range): no token is dropped, doubled
    or moved.  So the tokens that are not PAD (the ones the evaluation
    loops count) are the same, in the same order, before and after. *)
Theorem pack_only_inserts_pad (raw toks leftover : list Z) (log : list effect) :
  pack raw = Ok (toks, leftover, log) ->
  exists consumed,
    raw = consumed ++ leftover /\
    pad_insertion (to_uint8 pad) consumed toks /\
    filter (fun t => negb (t =? to_uint8 pad)%Z) toks
    = filter (fun t => negb (t =? to_uint8 pad)%Z) consumed.
Proof.
  apply pack_conserves.
Qed.

(** A sample that fits a row is placed whole inside one row: it is
    appended after the chunks emitted so far, with nothing in between
    when it leaves room in the current row, and behind PAD up to the row
    end exactly when it would otherwise reach or cross that end; from
    where it starts the row has room for all of it. *)
Theorem fitting_sample_stays_in_one_row
        (st st' : packing) (i : nat) (sample : list Z) :
  row_invariant width st ->
  length sample <= width ->
  pack_sample st i sample = Ok st' ->
  exists fill,
    processed_chunks st' = processed_chunks st ++ fill ++ [sample] /\
    ((length sample + curr_batch_len st < width /\ fill = []) \/
     (width <= length sample + curr_batch_len st /\
      fill = [repeat (to_uint8 pad) (width - curr_batch_len st)])) /\
    length (concat (processed_chunks st ++ fill)) mod width + length sample
    <= width.
Proof.
  intros [Hcurr [rows Hrows]] Hfits E.
  apply pack_sample_cases in E
    as (_ & _ & [(Hroom & Hc & _)|[(Hfull & _ & Hc & _)|(Hbig & _)]]);
    [| |lia].
  - exists []. split; [exact Hc|]. split; [auto|].
    assert (Hlen : length (concat (processed_chunks st ++ []))
                   = curr_batch_len st + rows * width).
    { rewrite app_nil_r, Hrows. lia. }
    rewrite Hlen, Nat.Div0.mod_add, Nat.mod_small by lia. lia.
  - exists [repeat p8 (width - curr_batch_len st)].
    split; [exact Hc|]. split; [auto|].
    assert (Hlen : length (concat (processed_chunks st
                                   ++ [repeat p8 (width - curr_batch_len st)]))
                   = 0 + (rows + 1) * width).
    { rewrite length_concat_app, Hrows. cbn [concat].
      rewrite app_nil_r, repeat_length. lia. }
    rewrite Hlen, Nat.Div0.mod_add, Nat.Div0.mod_0_l. lia.
Qed.

End PackingExtras.

Lemma pack_only_inserts_pad_witness :
  pack 0 2 1 10 two_samples = Ok (two_samples_packed, [], []) /\
  exists consumed,
    two_samples = consumed ++ [] /\
    pad_insertion 1 consumed two_samples_packed /\
    filter (fun t => negb (t =? 1)%Z) two_samples_packed
    = filter (fun t => negb (t =? 1)%Z) consumed.
Proof.
  assert (H : pack 0 2 1 10 two_samples = Ok (two_samples_packed, [], []))
    by (vm_compute; reflexivity).
  split; [exact H|].
  exact (@pack_only_inserts_pad 0 2 1 10 _ _ _ _ H).
Defined.

Lemma fitting_sample_stays_in_one_row_witness :
  row_invariant 10 (mkPacking [[0; 5; 6; 7; 8; 9; 2]%Z] 7 []) /\
  length [0; 10; 11; 12; 13; 14; 2]%Z <= 10 /\
  pack_sample 0 2 1 10 (mkPacking [[0; 5; 6; 7; 8; 9; 2]%Z] 7 []) 1
              [0; 10; 11; 12; 13; 14; 2]%Z
  = Ok (mkPacking [[0; 5; 6; 7; 8; 9; 2]; [1; 1; 1];
                   [0; 10; 11; 12; 13; 14; 2]]%Z 7 []) /\
  exists fill,
    [[0; 5; 6; 7; 8; 9; 2]; [1; 1; 1]; [0; 10; 11; 12; 13; 14; 2]]%Z
    = [[0; 5; 6; 7; 8; 9; 2]%Z] ++ fill ++ [[0; 10; 11; 12; 13; 14; 2]%Z] /\
    ((7 + 7 < 10 /\ fill = []) \/
     (10 <= 7 + 7 /\ fill = [repeat 1%Z (10 - 7)])) /\
    length (concat ([[0; 5; 6; 7; 8; 9; 2]%Z] ++ fill)) mod 10 + 7 <= 10.
Proof.
  assert (Hinv : row_invariant 10 (mkPacking [[0; 5; 6; 7; 8; 9; 2]%Z] 7 []))
    by (split; [cbn; lia | exists 0; reflexivity]).
  assert (Hfits : length [0; 10; 11; 12; 13; 14; 2]%Z <= 10) by (cbn; lia).
  assert (Hrun : pack_sample 0 2 1 10
                   (mkPacking [[0; 5; 6; 7; 8; 9; 2]%Z] 7 []) 1
                   [0; 10; 11; 12; 13; 14; 2]%Z
                 = Ok (mkPacking [[0; 5; 6; 7; 8; 9; 2]; [1; 1; 1];
                                  [0; 10; 11; 12; 13; 14; 2]]%Z 7 []))
    by (vm_compute; reflexivity).
  split; [exact Hinv|]. split; [exact Hfits|]. split; [exact Hrun|].
  exact (@fitting_sample_stays_in_one_row 0 2 1 10 _ _ _ _ Hinv Hfits Hrun).
Defined.

Section Warnings.
Variables (cls cls' eos pad : Z) (width : nat).

Lemma pack_sample_ignores_cls (a b : packing) (i : nat) (sample : list Z) :
  same_packing a b ->
  match pack_sample cls eos pad width a i sample,
        pack_sample cls' eos pad width b i sample with
  | Ok a', Ok b' => same_packing a' b'
  | Raise e, Raise e' => e = e'
  | _, _ => False
  end.
Proof.
  destruct a as [ca na wa], b as [cb nb wb]. unfold same_packing.
  cbn [processed_chunks curr_batch_len]. intros [-> ->].
  unfold pack_sample. cbn [processed_chunks curr_batch_len warnings].
  destruct (negb (nb <? width)); [reflexivity|].
  destruct (width <=? _).
  - destruct (full pad _) as [padding|e]; cbn [bind]; [|reflexivity].
    cbn [processed_chunks curr_batch_len warnings].
    destruct (width <? _);
      [destruct (pad_each _ _ _); cbn [bind]; [split|]; reflexivity
      | split; reflexivity].
  - cbn [bind processed_chunks curr_batch_len warnings].
    destruct (width <? _);
      [destruct (pad_each _ _ _); cbn [bind]; [split|]; reflexivity
      | split; reflexivity].
Qed.

Lemma pack_loop_ignores_cls (raw : list Z) (positions : list nat)
      (i prev : nat) (a b : packing) :
  same_packing a b ->
  match pack_loop cls eos pad width raw i prev positions a,
        pack_loop cls' eos pad width raw i prev positions b with
  | Ok a', Ok b' => same_packing a' b'
  | Raise e, Raise e' => e = e'
  | _, _ => False
  end.
Proof.
  revert i prev a b.
  induction positions as [|curr_eos rest IH]; intros i prev a b Hsame;
    cbn [pack_loop]; [exact Hsame|].
  pose proof (pack_sample_ignores_cls i (slice raw prev (curr_eos + 1)) Hsame)
    as Hstep.
  destruct (pack_sample cls eos pad width a i _) as [a1|e1],
           (pack_sample cls' eos pad width b i _) as [b1|e2];
    cbn [bind]; try contradiction.
  - apply IH. exact Hstep.
  - exact Hstep.
Qed.

(** The CLS id is used for the warning alone.  Whatever id is taken for
    CLS, packing a buffer gives the same working buffer and the same
    leftover, or raises the same exception: a sample that does not start
    with CLS is packed like any other. *)
Theorem packing_ignores_cls (raw : list Z) :
  match pack cls eos pad width raw, pack cls' eos pad width raw with
  | Ok (toks, leftover, _), Ok (toks', leftover', _) =>
      toks = toks' /\ leftover = leftover'
  | Raise e, Raise e' => e = e'
  | _, _ => False
  end.
Proof.
  unfold pack.
  pose proof (@pack_loop_ignores_cls raw (nonzero_eq eos 0 raw) 0 0
                (mkPacking [] 0 []) (mkPacking [] 0 [])
                (conj eq_refl eq_refl)) as Hloop.
  destruct (pack_loop cls eos pad width raw 0 0 _ _) as [a|e1],
           (pack_loop cls' eos pad width raw 0 0 _ _) as [b|e2];
    cbn [bind]; try contradiction; [|exact Hloop].
  destruct (nonzero_eq eos 0 raw); [reflexivity|].
  destruct Hloop as [Hchunks _]. rewrite Hchunks. split; reflexivity.
Qed.

End Warnings.

(** * Reset and the leftover *)

Section Reset.
Variable fs : filesystem.
Variable shuffle : nat -> list path -> list path.

(** Whatever [advance] makes of a combined buffer, the tokens other than
    PAD of the working buffer and of the leftover are those of the
    combined buffer, in order. *)
Lemma repack_keeps_tokens (raw : list Z) (self self' : padded)
      (log : list effect) :
  repack shuffle raw self = Ok (self', log) ->
  let other := fun t => negb (t =? to_uint8 (pad_id self))%Z in
  filter other (tokens (super self')) ++ filter other (_leftover_tokens self')
  = filter other raw.
Proof.
  unfold repack. destruct raw as [|t raw].
  - intros E. injection E as <- _. reflexivity.
  - destruct (pack _ _ _ _ _) as [[[toks leftover] log2]|e] eqn:Ep;
      cbn [bind]; [|discriminate].
    intros E. injection E as <- _.
    apply pack_conserves in Ep as (consumed & Hraw & _ & Hfilter).
    cbv zeta. cbn [_leftover_tokens set_leftover super set_super].
    assert (Htoks : forall b, tokens (set_tokens toks b) = toks)
      by (intros b; reflexivity).
    destruct (_ =? 0); rewrite Htoks, Hraw, filter_app, Hfilter; reflexivity.
Qed.

(** C10, as the code has it.  [reset] on the padded loader does not clear
    the leftover.  For every padded loader with a first shard file that
    loads and at least one epoch allowed, [reset] rewinds the shard
    counter to 0, loads the first file and moves the counter to 1, and
    packs the leftover accumulated so far followed by that file's
    payload; a loader constructed afresh, over a sorted file list that
    starts with the same file, packs the payload alone.  Whenever both
    return and the leftover holds a token other than PAD, the loader
    after [reset] differs from the fresh one in its working buffer or in
    its leftover. *)
Theorem reset_prepends_leftover
        (self : padded) (sorted_files : list path)
        (first : path) (rest rest' : list path) (shard0 : list Z) :
  files (super self) = first :: rest ->
  sorted_files = first :: rest' ->
  1 <= max_epochs self ->
  world_size (super self) <> 0 ->
  batch_size (super self) mod world_size (super self) = 0 ->
  _load_data_shard fs first = Ok shard0 ->
  let rewound :=
    set_super (set_next_shard 1 (set_pos 0 (super self))) self in
  let fresh :=
    mkPadded (mkLoader (world_size (super self)) (rank (super self))
                       sorted_files (batch_size (super self))
                       (batch_size (super self) / world_size (super self))
                       1 0 [])
             (cls_id self) (eos_id self) (pad_id self) [] (max_epochs self) in
  let constructed :=
    padded_init fs shuffle sorted_files (batch_size (super self))
                (rank (super self)) (world_size (super self))
                (cls_id self) (eos_id self) (pad_id self) (max_epochs self) in
  @reset _ (DistributedPaddedDataLoader fs shuffle) self
  = repack shuffle (_leftover_tokens self ++ shard0) rewound /\
  _leftover_tokens rewound = _leftover_tokens self /\
  constructed = repack shuffle shard0 fresh /\
  (forall after log other log',
     @reset _ (DistributedPaddedDataLoader fs shuffle) self = Ok (after, log) ->
     constructed = Ok (other, log') ->
     (exists t, In t (_leftover_tokens self) /\ t <> to_uint8 (pad_id self)) ->
     (tokens (super after), _leftover_tokens after)
     <> (tokens (super other), _leftover_tokens other)).
Proof.
  intros Hfiles Hsorted Hepochs Hws Hdiv Hload rewound fresh constructed.
  assert (Hgate : forall n m, 1 <= m -> (0 / S n <? m) = true).
  { intros n m Hm. apply Nat.ltb_lt. rewrite Nat.Div0.div_0_l. lia. }
  assert (Hreset : @reset _ (DistributedPaddedDataLoader fs shuffle) self
                   = repack shuffle (_leftover_tokens self ++ shard0) rewound).
  { unfold reset.
    cbn [advance base with_base DistributedPaddedDataLoader].
    unfold Dataloading.padded_advance, gather.
    cbn [super set_super set_pos set_next_shard files next_shard max_epochs
         _leftover_tokens].
    rewrite Hfiles. cbn [length Nat.eqb].
    rewrite (Hgate _ _ Hepochs), Nat.Div0.mod_0_l. cbn [nth_error].
    rewrite Hload. cbn [bind]. reflexivity. }
  assert (Hinit : constructed = repack shuffle shard0 fresh).
  { subst constructed. unfold padded_init, new_loader.
    destruct (Nat.eqb_spec (world_size (super self)) 0); [contradiction|].
    rewrite Hdiv. cbn [Nat.eqb negb bind].
    unfold reset.
    cbn [advance base with_base DistributedPaddedDataLoader].
    unfold Dataloading.padded_advance, gather.
    cbn [super set_super set_pos set_next_shard files next_shard max_epochs
         _leftover_tokens].
    rewrite Hsorted. cbn [length Nat.eqb].
    rewrite (Hgate _ _ Hepochs), Nat.Div0.mod_0_l. cbn [nth_error].
    rewrite Hload. cbn [bind app]. subst fresh. rewrite Hsorted.
    reflexivity. }
  split; [exact Hreset|]. split; [reflexivity|]. split; [exact Hinit|].
  intros after log other log' Ha Ho (t & Hin & Hpad) Heq.
  rewrite Hreset in Ha. rewrite Hinit in Ho.
  apply repack_keeps_tokens in Ha. apply repack_keeps_tokens in Ho.
  cbv zeta in Ha, Ho.
  cbn [pad_id rewound fresh set_super] in Ha, Ho.
  injection Heq as Htok Hleft. rewrite Htok, Hleft, Ho, filter_app in Ha.
  apply (f_equal (@length Z)) in Ha. rewrite length_app in Ha.
  assert (Hkept : In t (filter (fun t0 => negb (t0 =? to_uint8 (pad_id self))%Z)
                               (_leftover_tokens self))).
  { apply filter_In. split; [exact Hin|].
    destruct (Z.eqb_spec t (to_uint8 (pad_id self))); [contradiction|].
    reflexivity. }
  destruct (filter _ (_leftover_tokens self)); [contradiction|].
  cbn [length] in Ha. lia.
Qed.

End Reset.

(** On the shard that ends inside a sample: the loader constructed over it
    has kept [0; 5]; resetting it packs [0; 5] in front of the reloaded
    shard and yields the working buffer [0; 5; 0; 7; 2], where the fresh
    loader had [0; 7; 2]. *)
Lemma reset_prepends_leftover_witness :
  files (super (fragment_loader 1 [0; 7; 2]%Z [0; 5]%Z))
  = ["shard_000000.bin"%string] /\
  1 <= max_epochs (fragment_loader 1 [0; 7; 2]%Z [0; 5]%Z) /\
  _load_data_shard (single_file fragment_shard) "shard_000000.bin"%string
  = Ok [0; 7; 2; 0; 5]%Z /\
  @reset _ (DistributedPaddedDataLoader (single_file fragment_shard)
                                        shuffle_singleton)
         (fragment_loader 1 [0; 7; 2]%Z [0; 5]%Z)
  = Ok (fragment_loader 1 [0; 5; 0; 7; 2]%Z [0; 5]%Z, [SeedShuffle 1])
  /\
  padded_init (single_file fragment_shard) shuffle_singleton
              ["shard_000000.bin"%string] 10 0 1 0 2 1 1
  = Ok (fragment_loader 1 [0; 7; 2]%Z [0; 5]%Z, [SeedShuffle 1]).
Proof.
  assert (Hfiles : files (super (fragment_loader 1 [0; 7; 2]%Z [0; 5]%Z))
                   = ["shard_000000.bin"%string]) by reflexivity.
  assert (Hsorted : ["shard_000000.bin"%string] = ["shard_000000.bin"%string])
    by reflexivity.
  assert (Hepochs : 1 <= max_epochs (fragment_loader 1 [0; 7; 2]%Z [0; 5]%Z))
    by (vm_compute; lia).
  assert (Hws : world_size (super (fragment_loader 1 [0; 7; 2]%Z [0; 5]%Z)) <> 0)
    by (vm_compute; discriminate).
  assert (Hdiv : batch_size (super (fragment_loader 1 [0; 7; 2]%Z [0; 5]%Z))
                 mod world_size (super (fragment_loader 1 [0; 7; 2]%Z [0; 5]%Z))
                 = 0) by reflexivity.
  assert (Hload : _load_data_shard (single_file fragment_shard)
                                   "shard_000000.bin"%string
                  = Ok [0; 7; 2; 0; 5]%Z) by (vm_compute; reflexivity).
  split; [exact Hfiles|]. split; [exact Hepochs|]. split; [exact Hload|].
  destruct (@reset_prepends_leftover (single_file fragment_shard)
              shuffle_singleton _ _ _ _ _ _ Hfiles Hsorted Hepochs Hws Hdiv
              Hload)
    as (Hreset & _ & Hinit & _).
  split.
  - rewrite Hreset. vm_compute. reflexivity.
  - refine (eq_trans Hinit _). vm_compute. reflexivity.
Defined.

(** C10, as stated, fails for a leftover of PAD tokens.  The loader
    constructed over a shard whose payload is fourteen PAD tokens, a
    sample of seven tokens and two more PAD tokens keeps the last two as
    its leftover; resetting it packs them in front of the reloaded shard,
    and the result is the very state, with the same effects, that the
    construction gave. *)
Lemma reset_with_pad_leftover_is_fresh :
  exists self log,
    padded_init (single_file pad_tail_shard) shuffle_singleton
                ["shard_000000.bin"%string] 10 0 1 0 2 1 1 = Ok (self, log) /\
    _leftover_tokens self = [1; 1]%Z /\
    _leftover_tokens self <> [] /\
    @reset _ (DistributedPaddedDataLoader (single_file pad_tail_shard)
                                          shuffle_singleton) self
    = Ok (self, log).
Proof.
  destruct (padded_init (single_file pad_tail_shard) shuffle_singleton
              ["shard_000000.bin"%string] 10 0 1 0 2 1 1)
    as [[self log]|e] eqn:E; [|vm_compute in E; discriminate].
  exists self, log. vm_compute in E. injection E as <- <-.
  split; [reflexivity|]. split; [reflexivity|]. split; [discriminate|].
  vm_compute. reflexivity.
Qed.

(** * Further properties of the padded loader *)

Section PaddedExtras.
Variable fs : filesystem.
Variable shuffle : nat -> list path -> list path.

Local Abbreviation advance_here := (padded_advance fs shuffle).
Local Abbreviation batches :=
  (@next_batches _ (DistributedPaddedDataLoader fs shuffle)).

Lemma epoch_gate (counter nfiles epochs : nat) :
  nfiles <> 0 ->
  (counter / nfiles <? epochs) = (counter <? epochs * nfiles).
Proof.
  intros Hn.
  destruct (Nat.ltb_spec counter (epochs * nfiles)) as [Hlt|Hge].
  - apply Nat.ltb_lt. apply Nat.Div0.div_lt_upper_bound. lia.
  - apply Nat.ltb_ge. apply Nat.div_le_lower_bound; lia.
Qed.

Lemma advance_at_end (self : padded) :
  files (super self) <> [] ->
  max_epochs self * length (files (super self)) <= next_shard (super self) ->
  _leftover_tokens self = [] ->
  advance_here self = Ok (at_end self, []).
Proof.
  intros Hfiles Hgate Hleft.
  unfold padded_advance, gather. cbn [set_pos files next_shard].
  destruct (Nat.eqb_spec (length (files (super self))) 0) as [Hz|Hnz].
  { destruct (files (super self)); [congruence | discriminate]. }
  rewrite epoch_gate by exact Hnz.
  destruct (Nat.ltb_spec (next_shard (super self))
              (max_epochs self * length (files (super self)))); [lia|].
  rewrite Hleft. cbn [bind repack].
  destruct self as [[] ? ? ? ? ?]. reflexivity.
Qed.

Lemma at_end_again (p : nat) (self : padded) :
  at_end (set_super (set_pos p (super (at_end self))) (at_end self))
  = at_end self.
Proof. destruct self as [[] ? ? ? ? ?]. reflexivity. Qed.

(** The end of the stream is stable.  Once the epochs are used up and
    nothing is left over, [advance] empties the working buffer, and from
    then on every [next_batch] returns an empty batch and leaves the
    loader as it is, however often it is called: no file is read again
    and nothing is raised. *)
Theorem end_of_stream_is_stable (self : padded) :
  files (super self) <> [] ->
  max_epochs self * length (files (super self)) <= next_shard (super self) ->
  _leftover_tokens self = [] ->
  advance_here self = Ok (at_end self, []) /\
  forall k, batches k (at_end self) = Ok (repeat [] k, at_end self).
Proof.
  intros Hfiles Hgate Hleft.
  split; [apply advance_at_end; assumption|].
  induction k as [|k IH]; [reflexivity|].
  cbn [next_batches]. unfold next_batch.
  cbn [base with_base advance DistributedPaddedDataLoader].
  assert (Hempty : tokens (super (at_end self)) = [])
    by (destruct self as [[] ? ? ? ? ?]; reflexivity).
  rewrite Hempty. cbn [length Nat.leb].
  rewrite advance_at_end.
  - rewrite at_end_again. cbn [bind]. rewrite IH. cbn [bind].
    rewrite skipn_nil, firstn_nil. reflexivity.
  - destruct self as [[] ? ? ? ? ?]. exact Hfiles.
  - destruct self as [[] ? ? ? ? ?]. exact Hgate.
  - destruct self as [[] ? ? ? ? ?]. reflexivity.
Qed.

(** [advance] rebuilds the cursor and the working buffer from scratch: what
    they were before has no influence on what it returns. *)
Lemma padded_advance_forgets (p : nat) (t : list Z) (self : padded) :
  advance_here (set_super (set_tokens t (set_pos p (super self))) self)
  = advance_here self.
Proof.
  destruct self as [[ws r f bs lbs ns p0 t0] c e pd lo me].
  unfold padded_advance, gather.
  cbn [super set_super set_tokens set_pos set_next_shard files next_shard
       max_epochs _leftover_tokens world_size rank batch_size
       local_batch_size pos tokens].
  destruct (length f =? 0); [reflexivity|].
  destruct (ns / length f <? me).
  - destruct (nth_error f (ns mod length f)) as [name|]; [|reflexivity].
    destruct (_load_data_shard fs name) as [raw|]; cbn [bind]; [|reflexivity].
    unfold repack. destruct (lo ++ raw); [reflexivity|].
    cbn [super set_super cls_id eos_id pad_id local_batch_size next_shard files].
    destruct (pack _ _ _ _ _) as [[[toks leftover] log2]|]; cbn [bind];
      [|reflexivity].
    destruct (_ =? 0); reflexivity.
  - cbn [bind]. unfold repack. destruct lo; [reflexivity|].
    cbn [super set_super cls_id eos_id pad_id local_batch_size next_shard files].
    destruct (pack _ _ _ _ _) as [[[toks leftover] log2]|]; cbn [bind];
      [|reflexivity].
    destruct (_ =? 0); reflexivity.
Qed.

(** With nothing left over and the file list in the order a constructor
    starts from, [reset] is a fresh start.  [sorted_files] being the
    sorted list of the files of the pattern, a loader that holds its
    files in that order (no reshuffle has moved them) and has nothing
    left over returns from [reset] what constructing a loader with the
    same parameters returns: the same state and effects, or the same
    exception.  ([reset] itself never sorts the list again: it keeps the
    order a reshuffle has left.) *)
Theorem reset_of_clean_loader (self : padded) (sorted_files : list path) :
  files (super self) = sorted_files ->
  _leftover_tokens self = [] ->
  world_size (super self) <> 0 ->
  batch_size (super self) mod world_size (super self) = 0 ->
  local_batch_size (super self)
  = batch_size (super self) / world_size (super self) ->
  @reset _ (DistributedPaddedDataLoader fs shuffle) self
  = padded_init fs shuffle sorted_files (batch_size (super self))
                (rank (super self)) (world_size (super self))
                (cls_id self) (eos_id self) (pad_id self) (max_epochs self).
Proof.
  intros <- Hleft Hws Hdiv Hwidth.
  unfold padded_init, new_loader.
  destruct (Nat.eqb_spec (world_size (super self)) 0); [contradiction|].
  rewrite Hdiv. cbn [Nat.eqb negb bind]. unfold reset.
  cbn [advance base with_base DistributedPaddedDataLoader].
  rewrite <- (padded_advance_forgets 0 []
                (set_super (set_next_shard 0 (super self)) self)).
  f_equal. destruct self as [[ws r f bs lbs ns p0 t0] c e pd lo me].
  cbn in Hleft, Hwidth |- *. subst lo lbs. reflexivity.
Qed.

(** [advance] moves the shard counter up by one while it is below
    [max_epochs * file_count], and not at all from there on. *)
Lemma padded_advance_counter (self self' : padded) (log : list effect) :
  (forall seed l, length (shuffle seed l) = length l) ->
  advance_here self = Ok (self', log) ->
  next_shard (super self')
  = (if next_shard (super self)
        <? max_epochs self * length (files (super self))
     then S (next_shard (super self)) else next_shard (super self)) /\
  length (files (super self')) = length (files (super self)) /\
  max_epochs self' = max_epochs self.
Proof.
  intros Hperm. destruct self as [[ws r f bs lbs ns p0 t0] c e pd lo me].
  unfold padded_advance, gather.
  cbn [super set_super set_tokens set_pos set_next_shard files next_shard
       max_epochs _leftover_tokens].
  destruct (Nat.eqb_spec (length f) 0) as [|Hnz]; [discriminate|].
  rewrite epoch_gate by exact Hnz.
  destruct (ns <? me * length f).
  - destruct (nth_error f (ns mod length f)) as [name|]; [|discriminate].
    destruct (_load_data_shard fs name) as [raw|]; cbn [bind]; [|discriminate].
    unfold repack. destruct (lo ++ raw).
    + intros E. injection E as <- _. cbn. auto.
    + cbn [super set_super cls_id eos_id pad_id local_batch_size next_shard
           files].
      destruct (pack _ _ _ _ _) as [[[toks leftover] log2]|]; cbn [bind];
        [|discriminate].
      intros E. injection E as <- _.
      destruct (_ =? 0); cbn; rewrite ?Hperm; auto.
  - cbn [bind]. unfold repack. destruct lo.
    + intros E. injection E as <- _. cbn. auto.
    + cbn [super set_super cls_id eos_id pad_id local_batch_size next_shard
           files].
      destruct (pack _ _ _ _ _) as [[[toks leftover] log2]|]; cbn [bind];
        [|discriminate].
      intros E. injection E as <- _.
      destruct (_ =? 0); cbn; rewrite ?Hperm; auto.
Qed.

(** No more than [max_epochs] passes are read.  When the seeded shuffle
    keeps the number of files (as a permutation does), [k] calls of
    [advance] that all return take the shard counter [k] steps up, but not
    past [max_epochs * file_count], where it stays. *)
Theorem shard_counter_stops_at_epoch_limit (k : nat) (self self' : padded) :
  (forall seed l, length (shuffle seed l) = length l) ->
  next_shard (super self) <= max_epochs self * length (files (super self)) ->
  @advance_times _ (DistributedPaddedDataLoader fs shuffle) k self = Ok self' ->
  next_shard (super self')
  = Nat.min (next_shard (super self) + k)
            (max_epochs self * length (files (super self))) /\
  length (files (super self')) = length (files (super self)) /\
  max_epochs self' = max_epochs self.
Proof.
  intros Hperm. revert self.
  induction k as [|k IH]; intros self Hle; cbn [advance_times].
  - intros E. injection E as <-. rewrite Nat.add_0_r, Nat.min_l by exact Hle.
    auto.
  - cbn [advance DistributedPaddedDataLoader].
    destruct (advance_here self) as [[self1 log]|e] eqn:E1; cbn [bind];
      [|discriminate].
    apply padded_advance_counter in E1 as (Hc & Hf & Hm); [|exact Hperm].
    intros E. apply IH in E.
    + rewrite Hf, Hm in E. destruct E as (Hc' & Hf' & Hm').
      split; [|split; assumption].
      rewrite Hc', Hc.
      destruct (Nat.ltb_spec (next_shard (super self))
                  (max_epochs self * length (files (super self)))); lia.
    + rewrite Hf, Hm, Hc.
      destruct (Nat.ltb_spec (next_shard (super self))
                  (max_epochs self * length (files (super self)))); lia.
Qed.

End PaddedExtras.

Lemma end_of_stream_is_stable_witness :
  files (super (sample_loader 1 [0; 7; 2]%Z)) <> [] /\
  max_epochs (sample_loader 1 [0; 7; 2]%Z)
  * length (files (super (sample_loader 1 [0; 7; 2]%Z)))
  <= next_shard (super (sample_loader 1 [0; 7; 2]%Z)) /\
  _leftover_tokens (sample_loader 1 [0; 7; 2]%Z) = [] /\
  padded_advance (single_file three_unit_shard) shuffle_singleton
                 (sample_loader 1 [0; 7; 2]%Z)
  = Ok (sample_loader 1 [], []) /\
  @next_batches _ (DistributedPaddedDataLoader (single_file three_unit_shard)
                                               shuffle_singleton)
                3 (sample_loader 1 [])
  = Ok ([[]; []; []], sample_loader 1 []).
Proof.
  assert (H1 : files (super (sample_loader 1 [0; 7; 2]%Z)) <> [])
    by (cbn; discriminate).
  assert (H2 : max_epochs (sample_loader 1 [0; 7; 2]%Z)
               * length (files (super (sample_loader 1 [0; 7; 2]%Z)))
               <= next_shard (super (sample_loader 1 [0; 7; 2]%Z)))
    by (cbn; lia).
  assert (H3 : _leftover_tokens (sample_loader 1 [0; 7; 2]%Z) = [])
    by reflexivity.
  split; [exact H1|]. split; [exact H2|]. split; [exact H3|].
  destruct (@end_of_stream_is_stable (single_file three_unit_shard)
              shuffle_singleton _ H1 H2 H3) as [Hadv Hbatches].
  split; [exact Hadv | exact (Hbatches 3)].
Defined.

Lemma reset_of_clean_loader_witness :
  files (super (sample_loader 1 [0; 7; 2]%Z)) = ["shard_000000.bin"%string] /\
  _leftover_tokens (sample_loader 1 [0; 7; 2]%Z) = [] /\
  world_size (super (sample_loader 1 [0; 7; 2]%Z)) <> 0 /\
  @reset _ (DistributedPaddedDataLoader (single_file three_unit_shard)
                                        shuffle_singleton)
         (sample_loader 1 [0; 7; 2]%Z)
  = padded_init (single_file three_unit_shard) shuffle_singleton
                ["shard_000000.bin"%string] 10 0 1 0 2 1 1.
Proof.
  assert (H0 : files (super (sample_loader 1 [0; 7; 2]%Z))
               = ["shard_000000.bin"%string]) by reflexivity.
  assert (H1 : _leftover_tokens (sample_loader 1 [0; 7; 2]%Z) = [])
    by reflexivity.
  assert (H2 : world_size (super (sample_loader 1 [0; 7; 2]%Z)) <> 0)
    by (cbn; discriminate).
  assert (H3 : batch_size (super (sample_loader 1 [0; 7; 2]%Z))
               mod world_size (super (sample_loader 1 [0; 7; 2]%Z)) = 0)
    by reflexivity.
  assert (H4 : local_batch_size (super (sample_loader 1 [0; 7; 2]%Z))
               = batch_size (super (sample_loader 1 [0; 7; 2]%Z))
                 / world_size (super (sample_loader 1 [0; 7; 2]%Z)))
    by reflexivity.
  split; [exact H0|]. split; [exact H1|]. split; [exact H2|].
  exact (@reset_of_clean_loader (single_file three_unit_shard)
           shuffle_singleton _ _ H0 H1 H2 H3 H4).
Defined.

Lemma shard_counter_stops_at_epoch_limit_witness :
  (forall seed l, length (shuffle_singleton seed l) = length l) /\
  next_shard (super (sample_loader 0 []))
  <= max_epochs (sample_loader 0 [])
     * length (files (super (sample_loader 0 []))) /\
  @advance_times _ (DistributedPaddedDataLoader (single_file three_unit_shard)
                                                shuffle_singleton)
                 3 (sample_loader 0 [])
  = Ok (sample_loader 1 []) /\
  next_shard (super (sample_loader 1 [])) = Nat.min (0 + 3) (1 * 1).
Proof.
  assert (H1 : forall seed l, length (shuffle_singleton seed l) = length l)
    by (intros; reflexivity).
  assert (H2 : next_shard (super (sample_loader 0 []))
               <= max_epochs (sample_loader 0 [])
                  * length (files (super (sample_loader 0 []))))
    by (cbn; lia).
  assert (H3 : @advance_times _ (DistributedPaddedDataLoader
                                   (single_file three_unit_shard)
                                   shuffle_singleton)
                              3 (sample_loader 0 [])
               = Ok (sample_loader 1 [])) by (vm_compute; reflexivity).
  split; [exact H1|]. split; [exact H2|]. split; [exact H3|].
  exact (proj1 (@shard_counter_stops_at_epoch_limit
                  (single_file three_unit_shard) shuffle_singleton
                  3 _ _ H1 H2 H3)).
Defined.

(** * The reader's own layout, and oversized samples *)

(** The reader reads back what is laid out in one-byte units: a file made
    of the writer's header for [N] followed by [N] bytes loads as exactly
    those bytes. *)
Theorem reader_roundtrip_one_byte_units
        (fs : filesystem) (name : path) (units : list Z) :
  (Z.of_nat (length units) < 2 ^ 31)%Z ->
  fs name = Some (Bytes.tobytes_i32 (header (length units)) ++ units) ->
  _load_data_shard fs name = Ok units.
Proof.
  intros Hn Hfs. unfold _load_data_shard. rewrite Hfs.
  unfold load_bytes. rewrite from_file_header by assumption.
  cbn [bind].
  change (nth 0 (header (length units)) 0%Z) with MAGIC.
  change (nth 1 (header (length units)) 0%Z) with VERSION.
  change (nth 2 (header (length units)) 0%Z) with (Z.of_nat (length units)).
  cbn [negb MAGIC VERSION Z.eqb Pos.eqb].
  destruct (Z.ltb_spec (Z.of_nat (length units)) 0); [lia|].
  unfold readinto. change (256 * 4) with 1024.
  rewrite skipn_header, Nat2Z.id, firstn_all, Z.eqb_refl. reflexivity.
Qed.

Lemma reader_roundtrip_one_byte_units_witness :
  (Z.of_nat (length [0; 7; 2]%Z) < 2 ^ 31)%Z /\
  single_file three_unit_shard "shard_000000.bin"%string
  = Some (Bytes.tobytes_i32 (header (length [0; 7; 2]%Z)) ++ [0; 7; 2]%Z) /\
  _load_data_shard (single_file three_unit_shard) "shard_000000.bin"%string
  = Ok [0; 7; 2]%Z.
Proof.
  assert (H1 : (Z.of_nat (length [0; 7; 2]%Z) < 2 ^ 31)%Z) by reflexivity.
  assert (H2 : single_file three_unit_shard "shard_000000.bin"%string
               = Some (Bytes.tobytes_i32 (header (length [0; 7; 2]%Z))
                       ++ [0; 7; 2]%Z)) by reflexivity.
  split; [exact H1|]. split; [exact H2|].
  exact (@reader_roundtrip_one_byte_units (single_file three_unit_shard)
           "shard_000000.bin"%string [0; 7; 2]%Z H1 H2).
Defined.

Section OversizedSamples.
Variables (cls eos pad : Z) (width : nat).

Lemma length_concat_bound (pieces : list (list Z)) :
  Forall (fun piece => length piece <= width) pieces ->
  length (concat pieces) <= length pieces * width.
Proof.
  induction 1 as [|piece pieces Hp _ IH]; cbn; [lia|].
  rewrite length_app. lia.
Qed.

(** [torch.chunk] never returns more pieces than it was asked for. *)
Lemma torch_chunk_at_most (sample : list Z) :
  0 < width -> 0 < length sample ->
  length (torch_chunk sample (length sample / width + 1))
  <= length sample / width + 1.
Proof.
  intros Hw Hl. unfold torch_chunk. rewrite length_split_n.
  pose proof (split_size_bounds Hw Hl) as Hs. cbv zeta in Hs.
  set (q := length sample / width) in *.
  set (len := length sample) in *.
  set (split_size := (len + (q + 1) - 1) / (q + 1)) in *.
  assert (Hsz : len <= split_size * (q + 1)).
  { subst split_size.
    pose proof (@ceil_div_covers len (q + 1) ltac:(lia)). lia. }
  assert (Hn : (len + split_size - 1) / split_size < q + 2).
  { apply Nat.Div0.div_lt_upper_bound. nia. }
  lia.
Qed.

(** A sample longer than a row: the current row is first filled with PAD
    (a whole row of PAD when it is empty), then the sample follows in
    pieces, each of at most a row and each padded to a full row, PAD being
    the uint8 value of the PAD id.  The pieces make up the sample, there
    are at least as many as the sample needs rows and at most
    [len // width + 1], and the next sample starts a row. *)
Theorem oversized_sample_rows (st st' : packing) (i : nat) (sample : list Z) :
  row_invariant width st ->
  width < length sample ->
  pack_sample cls eos pad width st i sample = Ok st' ->
  exists pieces,
    processed_chunks st'
    = processed_chunks st
      ++ [repeat (to_uint8 pad) (width - curr_batch_len st)]
      ++ flat_map (fun piece =>
                     [piece; repeat (to_uint8 pad) (width - length piece)])
                  pieces /\
    concat pieces = sample /\
    Forall (fun piece => length piece <= width) pieces /\
    (length sample + width - 1) / width <= length pieces
    <= length sample / width + 1 /\
    curr_batch_len st' = 0.
Proof.
  intros [Hcurr _] Hbig E.
  apply pack_sample_cases in E
    as (_ & _ & [(Hroom & _)|[(_ & Hfits & _)|(_ & Hpieces & Hc & Hl)]]);
    [lia | lia |].
  destruct (@torch_chunk_pieces sample width) as [_ Hconcat]; try lia.
  exists (torch_chunk sample (length sample / width + 1)).
  split; [exact Hc|].
  split; [exact Hconcat|]. split; [exact Hpieces|].
  split; [|exact Hl]. split.
  - pose proof (length_concat_bound Hpieces) as Hb. rewrite Hconcat in Hb.
    apply Nat.lt_succ_r. apply Nat.Div0.div_lt_upper_bound. nia.
  - apply torch_chunk_at_most; lia.
Qed.

End OversizedSamples.

Lemma oversized_sample_rows_witness :
  row_invariant 10 (mkPacking [] 0 []) /\
  10 < length sample_of_twenty /\
  exists st' pieces,
    pack_sample 0 2 1 10 (mkPacking [] 0 []) 0 sample_of_twenty = Ok st' /\
    processed_chunks st'
    = [] ++ [repeat 1%Z (10 - 0)]
      ++ flat_map (fun piece => [piece; repeat 1%Z (10 - length piece)])
                  pieces /\
    concat pieces = sample_of_twenty /\
    length pieces <= 3.
Proof.
  assert (H1 : row_invariant 10 (mkPacking [] 0 []))
    by (split; [cbn; lia | exists 0; reflexivity]).
  assert (H2 : 10 < length sample_of_twenty) by (cbn; lia).
  split; [exact H1|]. split; [exact H2|].
  destruct (pack_sample 0 2 1 10 (mkPacking [] 0 []) 0 sample_of_twenty)
    as [st'|e] eqn:E; [|vm_compute in E; discriminate].
  destruct (@oversized_sample_rows 0 2 1 10 _ _ _ _ H1 H2 E)
    as (pieces & Hchunks & Hconcat & _ & [_ Hcount] & _).
  exists st', pieces. split; [reflexivity|].
  split; [exact Hchunks|]. split; [exact Hconcat | exact Hcount].
Defined.

(** * The leftover and the epochs *)

Section LeftoverExtras.
Variable fs : filesystem.
Variable shuffle : nat -> list path -> list path.

Lemma nonzero_eq_absent (eos : Z) (raw : list Z) (i : nat) :
  ~ In (to_uint8 eos) raw -> nonzero_eq eos i raw = [].
Proof.
  revert i. induction raw as [|t rest IH]; intros i Hno; [reflexivity|].
  cbn [nonzero_eq]. destruct (Z.eqb_spec t (to_uint8 eos)) as [->|_].
  - exfalso. apply Hno. left. reflexivity.
  - apply IH. intros Hin. apply Hno. right. exact Hin.
Qed.

Lemma gather_ids (self self1 : padded) (raw : list Z) :
  gather fs self = Ok (raw, self1) ->
  cls_id self1 = cls_id self /\ eos_id self1 = eos_id self /\
  pad_id self1 = pad_id self /\ max_epochs self1 = max_epochs self.
Proof.
  unfold gather. cbn [files set_pos next_shard].
  destruct (_ =? 0); [discriminate|].
  destruct (_ <? _).
  - destruct (nth_error _ _) as [name|]; [|discriminate].
    destruct (_load_data_shard fs name); cbn [bind]; [|discriminate].
    intros E. injection E as _ <-. auto.
  - intros E. injection E as _ <-. auto.
Qed.

Lemma advance_leftover_without_eos (self self' : padded) (log : list effect) :
  padded_advance fs shuffle self = Ok (self', log) ->
  eos_id self' = eos_id self /\
  ~ In (to_uint8 (eos_id self')) (_leftover_tokens self').
Proof.
  unfold padded_advance.
  destruct (gather fs self) as [[raw self1]|e] eqn:Eg; cbn [bind];
    [|discriminate].
  apply gather_ids in Eg as (_ & Heos & _ & _).
  unfold repack. destruct raw as [|t raw].
  - intros E. injection E as <- _. cbn. split; [exact Heos | tauto].
  - destruct (pack _ _ _ _ _) as [[[toks leftover] log2]|e] eqn:Ep;
      cbn [bind]; [|discriminate].
    intros E. injection E as <- _. cbn [eos_id _leftover_tokens set_leftover
                                        set_super].
    split; [exact Heos|].
    apply pack_leftover in Ep as (consumed & _ & Hno). exact Hno.
Qed.

(** The leftover never holds an EOS: whatever [advance] returns, no token
    of the new leftover is the EOS id as the uint8 scalar the loop
    compares the tokens with; and, the tokens of a uint8 tensor being
    bytes, none is the EOS id itself. *)
Theorem leftover_never_holds_eos (self self' : padded) (log : list effect) :
  padded_advance fs shuffle self = Ok (self', log) ->
  eos_id self' = eos_id self /\
  ~ In (to_uint8 (eos_id self')) (_leftover_tokens self') /\
  (Forall Bytes.is_byte (_leftover_tokens self') ->
   ~ In (eos_id self') (_leftover_tokens self')).
Proof.
  intros E. apply advance_leftover_without_eos in E as [Hid Hno].
  split; [exact Hid|]. split; [exact Hno|].
  intros Hbytes Hin. apply Hno.
  rewrite Forall_forall in Hbytes. specialize (Hbytes _ Hin).
  rewrite (to_uint8_byte Hbytes). exact Hin.
Qed.

(** What is left over when the epochs are used up is never delivered.
    After an [advance] that returned, once the shard counter has reached
    [max_epochs * file_count] the next [advance] ends the stream when
    nothing is left over, and raises on the unbound [curr_eos] when
    something is. *)
Theorem leftover_at_epoch_limit_is_not_delivered
        (before self : padded) (log : list effect) :
  padded_advance fs shuffle before = Ok (self, log) ->
  files (super self) <> [] ->
  max_epochs self * length (files (super self)) <= next_shard (super self) ->
  padded_advance fs shuffle self
  = (if is_empty (_leftover_tokens self) then Ok (at_end self, [])
     else Raise (UnboundLocalError "curr_eos")).
Proof.
  intros Hbefore Hfiles Hgate.
  apply advance_leftover_without_eos in Hbefore as [_ Hno].
  destruct (_leftover_tokens self) as [|t rest] eqn:Hleft; cbn [is_empty].
  - apply advance_at_end; assumption.
  - unfold padded_advance, gather. cbn [set_pos files next_shard].
    destruct (Nat.eqb_spec (length (files (super self))) 0) as [Hz|Hnz].
    { destruct (files (super self)); [congruence | discriminate]. }
    rewrite epoch_gate by exact Hnz.
    destruct (Nat.ltb_spec (next_shard (super self))
                (max_epochs self * length (files (super self)))); [lia|].
    rewrite Hleft. cbn [bind repack].
    cbn [super set_super eos_id cls_id pad_id].
    rewrite pack_without_eos by (apply nonzero_eq_absent; exact Hno).
    reflexivity.
Qed.

(** One step of the shard counter, and the file list it leaves alone. *)
Lemma padded_advance_step (self self' : padded) (log : list effect) :
  padded_advance fs shuffle self = Ok (self', log) ->
  next_shard (super self')
  = (if next_shard (super self)
        <? max_epochs self * length (files (super self))
     then S (next_shard (super self)) else next_shard (super self)) /\
  max_epochs self' = max_epochs self /\
  (next_shard (super self') mod length (files (super self)) <> 0 ->
   files (super self') = files (super self)).
Proof.
  destruct self as [[ws r f bs lbs ns p0 t0] c e pd lo me].
  unfold padded_advance, gather.
  cbn [super set_super set_tokens set_pos set_next_shard files next_shard
       max_epochs _leftover_tokens].
  destruct (Nat.eqb_spec (length f) 0) as [|Hnz]; [discriminate|].
  rewrite epoch_gate by exact Hnz.
  destruct (ns <? me * length f).
  - destruct (nth_error f (ns mod length f)) as [name|]; [|discriminate].
    destruct (_load_data_shard fs name) as [raw|]; cbn [bind]; [|discriminate].
    unfold repack. destruct (lo ++ raw).
    + intros E. injection E as <- _. cbn. auto.
    + cbn [super set_super cls_id eos_id pad_id local_batch_size next_shard
           files].
      destruct (pack _ _ _ _ _) as [[[toks leftover] log2]|]; cbn [bind];
        [|discriminate].
      intros E. injection E as <- _.
      destruct (Nat.eqb_spec (S ns mod length f) 0) as [Hz|Hn]; cbn;
        repeat split; auto; congruence.
  - cbn [bind]. unfold repack. destruct lo.
    + intros E. injection E as <- _. cbn. auto.
    + cbn [super set_super cls_id eos_id pad_id local_batch_size next_shard
           files].
      destruct (pack _ _ _ _ _) as [[[toks leftover] log2]|]; cbn [bind];
        [|discriminate].
      intros E. injection E as <- _.
      destruct (Nat.eqb_spec (ns mod length f) 0) as [Hz|Hn]; cbn;
        repeat split; auto; congruence.
Qed.

(** Inside an epoch the files are read in list order, each once.  From a
    loader that points at position [r] of its file list, [j] calls of
    [advance] that stay inside the file list and the epoch limit leave the
    list as it was and the counter [j] further on, so that the next
    [advance] reads the file at position [r + j]. *)
Theorem epoch_reads_files_in_order (j : nat) (self self' : padded) :
  next_shard (super self) mod length (files (super self)) + j
  < length (files (super self)) ->
  next_shard (super self) + j
  < max_epochs self * length (files (super self)) ->
  @advance_times _ (DistributedPaddedDataLoader fs shuffle) j self = Ok self' ->
  files (super self') = files (super self) /\
  next_shard (super self') = next_shard (super self) + j /\
  next_shard (super self') mod length (files (super self'))
  = next_shard (super self) mod length (files (super self)) + j /\
  exists name,
    nth_error (files (super self))
              (next_shard (super self) mod length (files (super self)) + j)
    = Some name /\
    gather fs self'
    = raw <- _load_data_shard fs name ;;
      Ok (_leftover_tokens self' ++ raw,
          set_super (set_next_shard (S (next_shard (super self')))
                                    (set_pos 0 (super self'))) self').
Proof.
  revert self. induction j as [|j IH]; intros self Hlist Hepoch;
    cbn [advance_times].
  - intros E. injection E as <-. rewrite !Nat.add_0_r in *.
    split; [reflexivity|]. split; [reflexivity|]. split; [reflexivity|].
    destruct (nth_error (files (super self))
                (next_shard (super self) mod length (files (super self))))
      as [name|] eqn:Hname.
    2:{ apply nth_error_None in Hname. lia. }
    exists name. split; [reflexivity|].
    unfold gather. cbn [set_pos files next_shard].
    destruct (Nat.eqb_spec (length (files (super self))) 0); [lia|].
    rewrite epoch_gate by assumption.
    destruct (Nat.ltb_spec (next_shard (super self))
                (max_epochs self * length (files (super self)))); [|lia].
    rewrite Hname. reflexivity.
  - cbn [advance DistributedPaddedDataLoader].
    destruct (padded_advance fs shuffle self) as [[self1 log]|e] eqn:E1;
      cbn [bind]; [|discriminate].
    apply padded_advance_step in E1 as (Hc & Hm & Hf).
    destruct (Nat.ltb_spec (next_shard (super self))
                (max_epochs self * length (files (super self)))); [|lia].
    set (n := length (files (super self))) in *.
    assert (Hmod : S (next_shard (super self)) mod n
                   = next_shard (super self) mod n + 1).
    { pose proof (Nat.div_mod_eq (next_shard (super self)) n) as Ediv.
      symmetry.
      apply Nat.mod_unique with (q := next_shard (super self) / n); lia. }
    rewrite Hc in Hf. specialize (Hf ltac:(lia)).
    intros E. apply IH in E.
    + rewrite Hf, Hc in E. fold n in E. rewrite Hmod in E.
      destruct E as (Hfiles & Hnext & Hpos & name & Hname & Hgather).
      split; [exact Hfiles|]. split; [lia|].
      split; [rewrite Hpos; lia|].
      exists name. split; [|exact Hgather].
      rewrite <- Hname. f_equal. lia.
    + rewrite Hf, Hc. fold n. rewrite Hmod. lia.
    + rewrite Hf, Hc, Hm. fold n. lia.
Qed.

End LeftoverExtras.

Lemma leftover_never_holds_eos_witness :
  padded_advance (single_file fragment_shard) shuffle_singleton
                 (fragment_loader 0 [] [])
  = Ok (fragment_loader 1 [0; 7; 2]%Z [0; 5]%Z, [SeedShuffle 1]) /\
  ~ In (to_uint8 2) [0; 5]%Z.
Proof.
  assert (H : padded_advance (single_file fragment_shard) shuffle_singleton
                             (fragment_loader 0 [] [])
              = Ok (fragment_loader 1 [0; 7; 2]%Z [0; 5]%Z, [SeedShuffle 1]))
    by (vm_compute; reflexivity).
  split; [exact H|].
  exact (proj1 (proj2 (@leftover_never_holds_eos (single_file fragment_shard)
                         shuffle_singleton _ _ _ H))).
Defined.

Lemma leftover_at_epoch_limit_is_not_delivered_witness :
  padded_advance (single_file fragment_shard) shuffle_singleton
                 (fragment_loader 0 [] [])
  = Ok (fragment_loader 1 [0; 7; 2]%Z [0; 5]%Z, [SeedShuffle 1]) /\
  files (super (fragment_loader 1 [0; 7; 2]%Z [0; 5]%Z)) <> [] /\
  max_epochs (fragment_loader 1 [0; 7; 2]%Z [0; 5]%Z)
  * length (files (super (fragment_loader 1 [0; 7; 2]%Z [0; 5]%Z)))
  <= next_shard (super (fragment_loader 1 [0; 7; 2]%Z [0; 5]%Z)) /\
  padded_advance (single_file fragment_shard) shuffle_singleton
                 (fragment_loader 1 [0; 7; 2]%Z [0; 5]%Z)
  = Raise (UnboundLocalError "curr_eos").
Proof.
  assert (H1 : padded_advance (single_file fragment_shard) shuffle_singleton
                              (fragment_loader 0 [] [])
               = Ok (fragment_loader 1 [0; 7; 2]%Z [0; 5]%Z, [SeedShuffle 1]))
    by (vm_compute; reflexivity).
  assert (H2 : files (super (fragment_loader 1 [0; 7; 2]%Z [0; 5]%Z)) <> [])
    by (cbn; discriminate).
  assert (H3 : max_epochs (fragment_loader 1 [0; 7; 2]%Z [0; 5]%Z)
               * length (files (super (fragment_loader 1 [0; 7; 2]%Z [0; 5]%Z)))
               <= next_shard (super (fragment_loader 1 [0; 7; 2]%Z [0; 5]%Z)))
    by (cbn; lia).
  split; [exact H1|]. split; [exact H2|]. split; [exact H3|].
  exact (@leftover_at_epoch_limit_is_not_delivered
           (single_file fragment_shard) shuffle_singleton _ _ _ H1 H2 H3).
Defined.

Lemma epoch_reads_files_in_order_witness :
  next_shard (super (two_file_loader 0 []))
  mod length (files (super (two_file_loader 0 []))) + 1
  < length (files (super (two_file_loader 0 []))) /\
  next_shard (super (two_file_loader 0 [])) + 1
  < max_epochs (two_file_loader 0 [])
    * length (files (super (two_file_loader 0 []))) /\
  @advance_times _ (DistributedPaddedDataLoader two_files shuffle_reverse)
                 1 (two_file_loader 0 [])
  = Ok (two_file_loader 1 [0; 7; 2]%Z) /\
  files (super (two_file_loader 1 [0; 7; 2]%Z))
  = ["a.bin"%string; "b.bin"%string] /\
  next_shard (super (two_file_loader 1 [0; 7; 2]%Z)) = 0 + 1.
Proof.
  assert (H1 : next_shard (super (two_file_loader 0 []))
               mod length (files (super (two_file_loader 0 []))) + 1
               < length (files (super (two_file_loader 0 []))))
    by (cbn; lia).
  assert (H2 : next_shard (super (two_file_loader 0 [])) + 1
               < max_epochs (two_file_loader 0 [])
                 * length (files (super (two_file_loader 0 []))))
    by (cbn; lia).
  assert (H3 : @advance_times _ (DistributedPaddedDataLoader two_files
                                                             shuffle_reverse)
                              1 (two_file_loader 0 [])
               = Ok (two_file_loader 1 [0; 7; 2]%Z))
    by (vm_compute; reflexivity).
  split; [exact H1|]. split; [exact H2|]. split; [exact H3|].
  destruct (@epoch_reads_files_in_order two_files shuffle_reverse 1 _ _
              H1 H2 H3) as (Hfiles & Hnext & _).
  split; [exact Hfiles | exact Hnext].
Defined.

(** * Samples and warnings *)

Section Segmentation.
Variables (cls eos pad : Z) (width : nat).

Local Abbreviation e8 := (to_uint8 eos).

Lemma last_separator_unique (x : Z) (l1 t1 l2 t2 : list Z) :
  l1 ++ x :: t1 = l2 ++ x :: t2 -> ~ In x t1 -> ~ In x t2 -> t1 = t2.
Proof.
  revert l2. induction l1 as [|a l1 IH]; intros [|b l2] E H1 H2;
    cbn [app] in E.
  - congruence.
  - exfalso. apply H1. injection E as _ ->. apply in_or_app. right. left.
    reflexivity.
  - exfalso. apply H2. injection E as _ <-. apply in_or_app. right. left.
    reflexivity.
  - injection E as _ E. exact (IH _ E H1 H2).
Qed.

Lemma samples_of_nonempty (raw : list Z) (prev : nat) (positions : list nat) :
  positions <> [] -> samples_of raw prev positions <> [].
Proof. destruct positions; [congruence | discriminate]. Qed.

(** The samples the loop sees are the EOS-terminated runs of the buffer,
    EOS being the uint8 value the tokens are compared with.  The loop of
    [advance] is its body run over a list of samples, numbered from 0, of
    which there is one for each EOS of the buffer; each ends with EOS and
    holds no other; they follow one another without gap or overlap from
    the start of the buffer; what comes after the last one holds no EOS,
    and it is the leftover whenever the buffer is packed. *)
Theorem samples_are_eos_terminated_runs (raw : list Z) :
  exists samples tail,
    pack_loop cls eos pad width raw 0 0 (nonzero_eq eos 0 raw)
              (mkPacking [] 0 [])
    = pack_samples cls eos pad width 0 samples (mkPacking [] 0 []) /\
    length samples = count_occ Z.eq_dec raw (to_uint8 eos) /\
    Forall (fun sample =>
              exists body, sample = body ++ [to_uint8 eos] /\
                           ~ In (to_uint8 eos) body)
           samples /\
    raw = concat samples ++ tail /\
    ~ In (to_uint8 eos) tail /\
    (forall toks leftover log,
       pack cls eos pad width raw = Ok (toks, leftover, log) ->
       leftover = tail).
Proof.
  destruct (@segments_spec e8 raw []) as (Hlen & Hall & tail & Hcat & Htail);
    [cbn; tauto|].
  cbn [app] in Hcat.
  exists (segments e8 [] raw), tail.
  split; [rewrite pack_loop_over_samples, samples_of_buffer; reflexivity|].
  split; [exact Hlen|]. split; [exact Hall|]. split; [exact Hcat|].
  split; [exact Htail|].
  intros toks leftover log Hpack.
  assert (Hne : segments e8 [] raw <> []).
  { rewrite <- samples_of_buffer. apply samples_of_nonempty.
    intros Hnil. rewrite (@pack_without_eos cls eos pad width raw Hnil) in Hpack.
    discriminate. }
  apply pack_leftover in Hpack as (consumed & Hraw & Hno).
  destruct (exists_last Hne) as (init & final & Hsplit).
  rewrite Hsplit in Hall, Hcat.
  apply Forall_app in Hall as [_ Hfinal].
  apply Forall_inv in Hfinal as (body & Hbody & _). rewrite Hbody in Hcat.
  rewrite concat_app in Hcat. cbn [concat] in Hcat.
  rewrite app_nil_r, <- !app_assoc in Hcat. cbn [app] in Hcat.
  rewrite Hraw in Hcat. cbn [app] in Hcat.
  rewrite (app_assoc (concat init) body) in Hcat.
  exact (@last_separator_unique _ _ _ _ _ Hcat Hno Htail).
Qed.

Lemma pack_sample_warning (st st' : packing) (i : nat) (body : list Z) :
  pack_sample cls eos pad width st i (body ++ [e8]) = Ok st' ->
  warnings st' = warnings st ++ warning_for cls (i, body ++ [e8]).
Proof.
  intros E. apply pack_sample_cases in E as (_ & Hw & _).
  rewrite Hw. unfold warning_for. cbn [fst snd].
  rewrite last_last, Z.eqb_refl, andb_true_r.
  destruct (_ =? _)%Z; reflexivity.
Qed.

Lemma pack_samples_warnings (samples : list (list Z)) (i : nat)
      (st st' : packing) :
  Forall (fun sample => exists body, sample = body ++ [e8] /\ ~ In e8 body)
         samples ->
  pack_samples cls eos pad width i samples st = Ok st' ->
  warnings st'
  = warnings st
    ++ flat_map (warning_for cls) (combine (seq i (length samples)) samples).
Proof.
  intros Hall. revert i st.
  induction Hall as [|sample samples (body & -> & _) _ IH]; intros i st;
    cbn [pack_samples length seq combine flat_map].
  - intros E. injection E as <-. rewrite app_nil_r. reflexivity.
  - destruct (pack_sample cls eos pad width st i (body ++ [e8]))
      as [st1|e] eqn:E1; cbn [bind]; [|discriminate].
    apply pack_sample_warning in E1. intros E. apply IH in E.
    rewrite E, E1, <- app_assoc. reflexivity.
Qed.

(** A warning is logged for exactly the samples that do not start with
    CLS, in order and with the sample's number: the warnings of a packed
    buffer are those of its samples (its EOS-terminated runs) one by one.
    The first token is compared with the CLS id as a uint8 scalar, and
    the runs end at the uint8 value of the EOS id. *)
Theorem warnings_mark_samples_without_cls
        (raw toks leftover : list Z) (log : list effect) :
  pack cls eos pad width raw = Ok (toks, leftover, log) ->
  let samples := segments (to_uint8 eos) [] raw in
  log = flat_map (fun numbered : nat * list Z =>
                    if (hd 0%Z (snd numbered) =? to_uint8 cls)%Z then []
                    else [Warning (fst numbered)])
                 (combine (seq 0 (length samples)) samples).
Proof.
  unfold pack. rewrite pack_loop_over_samples, samples_of_buffer.
  destruct (pack_samples cls eos pad width 0 _ _) as [st|e] eqn:E;
    cbn [bind]; [|discriminate].
  destruct (nonzero_eq eos 0 raw) eqn:Epos; [discriminate|].
  intros Hok. injection Hok as _ _ <-.
  apply pack_samples_warnings in E; [exact E|].
  apply segments_spec. cbn. tauto.
Qed.

End Segmentation.

Lemma warnings_mark_samples_without_cls_witness :
  pack 0 2 1 10 [5; 2; 0; 7; 2]%Z = Ok ([5; 2; 0; 7; 2]%Z, [], [Warning 0]) /\
  segments (to_uint8 2) [] [5; 2; 0; 7; 2]%Z = [[5; 2]; [0; 7; 2]]%Z /\
  [Warning 0]
  = flat_map (fun numbered : nat * list Z =>
                if (hd 0%Z (snd numbered) =? to_uint8 0)%Z then []
                else [Warning (fst numbered)])
             (combine (seq 0 2) [[5; 2]; [0; 7; 2]]%Z).
Proof.
  assert (H : pack 0 2 1 10 [5; 2; 0; 7; 2]%Z
              = Ok ([5; 2; 0; 7; 2]%Z, [], [Warning 0]))
    by (vm_compute; reflexivity).
  split; [exact H|]. split; [reflexivity|].
  exact (@warnings_mark_samples_without_cls 0 2 1 10 _ _ _ _ H).
Defined.

(** * Shard boundaries *)

Section ShardBoundaries.
Variable fs : filesystem.
Variable shuffle : nat -> list path -> list path.

Local Abbreviation buffers :=
  (@advance_buffers _ (DistributedPaddedDataLoader fs shuffle)).

(** One [advance] that loads a shard: the old leftover followed by the
    shard is the tokens consumed followed by the new leftover. *)
Lemma advance_conserves (self self' : padded) (log : list effect)
      (name : path) (shard : list Z) :
  next_shard (super self)
  < max_epochs self * length (files (super self)) ->
  nth_error (files (super self))
            (next_shard (super self) mod length (files (super self)))
  = Some name ->
  _load_data_shard fs name = Ok shard ->
  padded_advance fs shuffle self = Ok (self', log) ->
  pad_id self' = pad_id self /\
  exists consumed,
    _leftover_tokens self ++ shard = consumed ++ _leftover_tokens self' /\
    pad_insertion (to_uint8 (pad_id self)) consumed (tokens (super self')).
Proof.
  intros Hepoch Hname Hload.
  unfold padded_advance, gather. cbn [set_pos files next_shard].
  destruct (Nat.eqb_spec (length (files (super self))) 0) as [Hz|Hnz].
  { rewrite Hz in Hepoch. lia. }
  rewrite epoch_gate by exact Hnz.
  destruct (Nat.ltb_spec (next_shard (super self))
              (max_epochs self * length (files (super self)))); [|lia].
  rewrite Hname, Hload. cbn [bind]. unfold repack.
  destruct (_leftover_tokens self ++ shard) as [|t raw] eqn:Eraw.
  - intros E. injection E as <- _. cbn. split; [reflexivity|].
    exists []. split; [reflexivity | constructor].
  - cbn [super set_super cls_id eos_id pad_id local_batch_size].
    destruct (pack _ _ _ _ _) as [[[toks leftover] log2]|e] eqn:Ep;
      cbn [bind]; [|discriminate].
    intros E. injection E as <- _.
    apply pack_conserves in Ep as (consumed & Hraw & Hins & _).
    split; [reflexivity|]. exists consumed.
    split; [exact Hraw|].
    destruct (_ =? 0); exact Hins.
Qed.

(** Nothing is lost at a shard boundary.  Over [k] calls of [advance]
    inside one pass over the files, the leftover the loader started with
    followed by the [k] shards it read, in list order, is the tokens
    consumed by the [k] calls followed by the leftover it ends with; and
    the working buffer each call left is what that call consumed with PAD
    tokens (the uint8 value of the PAD id) inserted.  A sample cut by the end of a shard comes out whole
    in the buffer of the next one. *)
Theorem shard_boundaries_lose_nothing
        (content : nat -> list Z) (k : nat) (self self' : padded)
        (bufs : list (list Z)) :
  (forall i, i < length (files (super self)) ->
     exists name, nth_error (files (super self)) i = Some name /\
                  _load_data_shard fs name = Ok (content i)) ->
  next_shard (super self) mod length (files (super self)) + k
  <= length (files (super self)) ->
  next_shard (super self) + k
  <= max_epochs self * length (files (super self)) ->
  buffers k self = Ok (bufs, self') ->
  exists consumed,
    Forall2 (pad_insertion (to_uint8 (pad_id self))) consumed bufs /\
    _leftover_tokens self
    ++ concat (map content
                   (seq (next_shard (super self)
                         mod length (files (super self))) k))
    = concat consumed ++ _leftover_tokens self'.
Proof.
  revert self bufs. induction k as [|k IH]; intros self bufs Hfiles Hlist Hepoch;
    cbn [advance_buffers].
  - intros E. injection E as <- <-. exists []. split; [constructor|].
    cbn. rewrite app_nil_r. reflexivity.
  - cbn [advance base DistributedPaddedDataLoader].
    destruct (padded_advance fs shuffle self) as [[self1 log]|e] eqn:E1;
      cbn [bind]; [|discriminate].
    destruct (buffers k self1) as [[bufs1 self2]|e] eqn:E2; cbn [bind];
      [|discriminate].
    intros E. injection E as <- <-.
    set (n := length (files (super self))) in *.
    set (r := next_shard (super self) mod n) in *.
    assert (Hn : n <> 0) by lia.
    assert (Hr : r < n) by lia.
    destruct (Hfiles r Hr) as (name & Hname & Hcontent).
    destruct (advance_conserves self ltac:(fold n; lia) Hname Hcontent E1)
      as (Hpad & consumed & Hcut & Hins).
    apply padded_advance_step in E1 as (Hc & Hm & Hf). fold n in Hc, Hf.
    destruct (Nat.ltb_spec (next_shard (super self)) (max_epochs self * n));
      [|lia].
    destruct k as [|k].
    + cbn [advance_buffers] in E2. injection E2 as <- <-.
      exists [consumed]. split; [constructor; [exact Hins | constructor]|].
      cbn. rewrite !app_nil_r. exact Hcut.
    + assert (Hmod : S (next_shard (super self)) mod n = r + 1).
      { pose proof (Nat.div_mod_eq (next_shard (super self)) n) as Ediv.
        fold r in Ediv. symmetry.
        apply Nat.mod_unique with (q := next_shard (super self) / n); lia. }
      rewrite Hc in Hf. specialize (Hf ltac:(lia)).
      destruct (IH self1 bufs1) as (rest & Hall & Hcat).
      * rewrite Hf. exact Hfiles.
      * rewrite Hf, Hc. fold n. rewrite Hmod. lia.
      * rewrite Hf, Hc, Hm. fold n. lia.
      * exact E2.
      * rewrite Hf, Hc in Hcat. fold n in Hcat. rewrite Hmod, Hpad in *.
        exists (consumed :: rest).
        split; [constructor; assumption|].
        change (seq r (S (S k))) with (r :: seq (S r) (S k)).
        cbn [map concat]. rewrite app_assoc, Hcut, <- app_assoc.
        replace (S r) with (r + 1) by lia.
        rewrite Hcat, app_assoc. reflexivity.
Qed.

End ShardBoundaries.

Lemma shard_boundaries_lose_nothing_witness :
  exists self',
    @advance_buffers _ (DistributedPaddedDataLoader boundary_files
                                                    shuffle_reverse)
                     2 (two_file_loader 0 [])
    = Ok ([[0; 7; 2]; [0; 5; 0; 7; 2]]%Z, self') /\
    _leftover_tokens self' = [] /\
    exists consumed,
      Forall2 (pad_insertion 1) consumed [[0; 7; 2]; [0; 5; 0; 7; 2]]%Z /\
      [] ++ concat (map (fun i : nat => if i =? 0 then [0; 7; 2; 0; 5]%Z
                                        else [0; 7; 2]%Z) (seq 0 2))
      = concat consumed ++ _leftover_tokens self'.
Proof.
  set (content := fun i : nat => if i =? 0 then [0; 7; 2; 0; 5]%Z
                                 else [0; 7; 2]%Z).
  assert (Hfiles : forall i, i < length (files (super (two_file_loader 0 []))) ->
            exists name,
              nth_error (files (super (two_file_loader 0 []))) i = Some name /\
              _load_data_shard boundary_files name = Ok (content i)).
  { intros [|[|i]] Hi.
    - exists "a.bin"%string. split; [reflexivity | vm_compute; reflexivity].
    - exists "b.bin"%string. split; [reflexivity | vm_compute; reflexivity].
    - cbn in Hi. lia. }
  assert (Hlist : next_shard (super (two_file_loader 0 []))
                  mod length (files (super (two_file_loader 0 []))) + 2
                  <= length (files (super (two_file_loader 0 []))))
    by (cbn; lia).
  assert (Hepoch : next_shard (super (two_file_loader 0 [])) + 2
                   <= max_epochs (two_file_loader 0 [])
                      * length (files (super (two_file_loader 0 []))))
    by (cbn; lia).
  destruct (@advance_buffers _ (DistributedPaddedDataLoader boundary_files
                                                            shuffle_reverse)
                             2 (two_file_loader 0 []))
    as [[bufs self']|e] eqn:E; [|vm_compute in E; discriminate].
  assert (Hbufs : bufs = [[0; 7; 2]; [0; 5; 0; 7; 2]]%Z)
    by (vm_compute in E; congruence).
  assert (Hleft : _leftover_tokens self' = [])
    by (vm_compute in E; injection E as _ <-; reflexivity).
  exists self'. subst bufs. split; [reflexivity|]. split; [exact Hleft|].
  exact (@shard_boundaries_lose_nothing boundary_files shuffle_reverse
           content 2 _ _ _ Hfiles Hlist Hepoch E).
Defined.

(** * A document longer than the buffer *)

Section OverlongDocument.
Variable shard_size : nat.

(** One iteration of the driver's loop on a document that leaves more
    than a shard behind once the current shard is filled. *)
Lemma feed_overlong (w : writer) (tokens : list Z) :
  length (all_tokens_np w) = shard_size ->
  token_count w < shard_size ->
  progress_bar w <> None ->
  (Z.of_nat shard_size < 2 ^ 31)%Z ->
  2 * shard_size < token_count w + length tokens ->
  feed shard_size w tokens
  = Raise (ValueError "could not broadcast input array").
Proof.
  intros Hbuf Hcnt Hbar Hcap Hlong. unfold feed.
  destruct (Nat.ltb_spec (token_count w + length tokens) shard_size);
    [lia|].
  destruct (progress_bar w) as [done|]; [|congruence].
  set (remainder := shard_size - token_count w).
  assert (Hrem : length (firstn remainder tokens) = remainder)
    by (rewrite length_firstn; subst remainder; lia).
  assert (Hleft : length (skipn remainder tokens) = length tokens - remainder)
    by apply length_skipn.
  set (buf1 := firstn (token_count w) (all_tokens_np w)
               ++ firstn remainder tokens).
  assert (Hbuf1 : length buf1 = shard_size).
  { subst buf1. rewrite length_app, Hrem, length_firstn.
    subst remainder. lia. }
  assert (E1 : assign_slice (all_tokens_np w) (token_count w)
                 (token_count w + remainder) (firstn remainder tokens)
               = Ok buf1).
  { rewrite <- Hrem at 1.
    rewrite assign_slice_within by (rewrite Hrem; subst remainder; lia).
    rewrite Hrem.
    replace (token_count w + remainder) with shard_size
      by (subst remainder; lia).
    rewrite skipn_all2 by lia. rewrite app_nil_r. reflexivity. }
  rewrite E1. cbn [bind].
  rewrite write_datafile_ok by (rewrite Hbuf1; exact Hcap).
  cbn [bind]. unfold assign_slice.
  rewrite Hbuf1, Hleft, Nat.min_0_l.
  rewrite (Nat.min_r (length tokens - remainder) shard_size)
    by (subst remainder; lia).
  rewrite Nat.max_r, Nat.sub_0_r by lia.
  destruct (Nat.eqb_spec (length tokens - remainder) shard_size);
    [subst remainder; lia|].
  destruct (Nat.eqb_spec (length tokens - remainder) 1);
    [subst remainder; lia|].
  reflexivity.
Qed.

(** A document that overflows the current shard by more than a whole
    shard stops the driver.  After a first document shorter than a shard,
    a second one with which the two exceed two shards makes the driver
    raise the broadcast error of the slice assignment: what is left of
    the document after filling the current shard does not fit the
    buffer.  No list of shards is returned, whatever documents follow. *)
Theorem tokenize_fw_overlong_document
        (empty first doc : list Z) (rest : list (list Z)) :
  length empty = shard_size ->
  (Z.of_nat shard_size < 2 ^ 31)%Z ->
  length first < shard_size ->
  2 * shard_size < length first + length doc ->
  tokenize_fw shard_size empty (first :: doc :: rest)
  = Raise (ValueError "could not broadcast input array").
Proof.
  intros Hempty Hcap Hfirst Hlong. unfold tokenize_fw.
  cbn [feed_all]. unfold feed at 1.
  cbn [token_count progress_bar all_tokens_np shard_index written Nat.add].
  destruct (Nat.ltb_spec (length first) shard_size); [|lia].
  change (length first) with (0 + length first) at 1.
  rewrite assign_slice_within by (cbn; lia).
  cbn [bind Nat.add firstn app].
  rewrite feed_overlong; cbn [all_tokens_np token_count progress_bar bind].
  - reflexivity.
  - rewrite length_app, length_skipn. lia.
  - exact Hfirst.
  - discriminate.
  - exact Hcap.
  - exact Hlong.
Qed.

End OverlongDocument.

Lemma tokenize_fw_overlong_document_witness :
  length (repeat 0%Z 10) = 10 /\
  (Z.of_nat 10 < 2 ^ 31)%Z /\
  length [4%Z] < 10 /\
  2 * 10 < length [4%Z] + length (repeat 5%Z 25) /\
  tokenize_fw 10 (repeat 0%Z 10) [[4%Z]; repeat 5%Z 25; [6%Z]]
  = Raise (ValueError "could not broadcast input array").
Proof.
  assert (H1 : length (repeat 0%Z 10) = 10) by reflexivity.
  assert (H2 : (Z.of_nat 10 < 2 ^ 31)%Z) by reflexivity.
  assert (H3 : length [4%Z] < 10) by (cbn; lia).
  assert (H4 : 2 * 10 < length [4%Z] + length (repeat 5%Z 25))
    by (cbn; lia).
  split; [exact H1|]. split; [exact H2|]. split; [exact H3|].
  split; [exact H4|].
  exact (@tokenize_fw_overlong_document 10 (repeat 0%Z 10) [4%Z]
           (repeat 5%Z 25) [[6%Z]] H1 H2 H3 H4).
Defined.
